(** * Control-expression editor dialog (DolphinQt/Config/Mapping/IOWindow.cpp)

    A shallow embedding of the expression editor dialog: the syntax
    highlighter, the status line driven by the compile outcome, the output
    test timer, the range spin box and the input-detection loop, together
    with the expression language (lexer, parser, evaluator), the control
    reference and the input detector the dialog calls into. *)

From Stdlib Require Import ZArith List String Ascii Bool Lia Floats.
From Stdlib Require Import Sorting.Sorted Sorting.Permutation.
From stdpp Require Import gmap strings.
Import ListNotations.

#[local] Set Warnings "-register-all".

Local Open Scope Z_scope.
Local Open Scope list_scope.

(** [ControlState] is a C++ [double]. *)
Definition ControlState := float.

(* ===================================================================== *)
(** ** ciface::ExpressionParser: tokens and parse results                 *)
(* ===================================================================== *)

Module ExpressionParser.

(** Modelled from the spec: the token kinds of
    InputCommon/ControlReference/ExpressionParser.h, which is missing. The
    names used by
    [ControlExpressionSyntaxHighlighter::Highlight] are kept; the operator
    kinds are those of the operator set of the lexer. *)
Inductive TokenType :=
| TOK_INVALID | TOK_END_OF_STRING
| TOK_LPAREN | TOK_RPAREN | TOK_COMMA | TOK_QUESTION | TOK_COLON
| TOK_LITERAL | TOK_CONTROL | TOK_BAREWORD | TOK_VARIABLE | TOK_COMMENT
| TOK_NOT
| TOK_MUL | TOK_DIV | TOK_MOD | TOK_ADD | TOK_SUB
| TOK_GTHAN | TOK_LTHAN | TOK_AND | TOK_XOR | TOK_OR.

Definition TokenType_eqb (a b : TokenType) : bool :=
  match a, b with
  | TOK_INVALID, TOK_INVALID | TOK_END_OF_STRING, TOK_END_OF_STRING
  | TOK_LPAREN, TOK_LPAREN | TOK_RPAREN, TOK_RPAREN | TOK_COMMA, TOK_COMMA
  | TOK_QUESTION, TOK_QUESTION | TOK_COLON, TOK_COLON
  | TOK_LITERAL, TOK_LITERAL | TOK_CONTROL, TOK_CONTROL
  | TOK_BAREWORD, TOK_BAREWORD | TOK_VARIABLE, TOK_VARIABLE
  | TOK_COMMENT, TOK_COMMENT | TOK_NOT, TOK_NOT
  | TOK_MUL, TOK_MUL | TOK_DIV, TOK_DIV | TOK_MOD, TOK_MOD
  | TOK_ADD, TOK_ADD | TOK_SUB, TOK_SUB
  | TOK_GTHAN, TOK_GTHAN | TOK_LTHAN, TOK_LTHAN
  | TOK_AND, TOK_AND | TOK_XOR, TOK_XOR | TOK_OR, TOK_OR => true
  | _, _ => false
  end.

(** The payload of a token: the number of a literal, the text of a name. *)
Inductive TokenValue :=
| NoValue
| Number (x : ControlState)
| Text (s : string).

Record Token := mkToken {
  type : TokenType;
  string_position : Z;
  string_length : Z;
  value : TokenValue
}.

Definition set_type (t : TokenType) (tok : Token) : Token :=
  {| type := t;
     string_position := string_position tok;
     string_length := string_length tok;
     value := value tok |}.

(** Modelled from the spec: [Token::IsBinaryOperator], declared in the
    missing header; the binary operators are [* / % + - > < & ^ |]. *)
Definition IsBinaryOperator (tok : Token) : bool :=
  match type tok with
  | TOK_MUL | TOK_DIV | TOK_MOD | TOK_ADD | TOK_SUB
  | TOK_GTHAN | TOK_LTHAN | TOK_AND | TOK_XOR | TOK_OR => true
  | _ => false
  end.

(** Modelled from the spec: the parse status has four values. *)
Inductive ParseStatus :=
| Successful | EmptyExpression | SyntaxError | TokenizeError.

Definition ParseStatus_eqb (a b : ParseStatus) : bool :=
  match a, b with
  | Successful, Successful | EmptyExpression, EmptyExpression
  | SyntaxError, SyntaxError | TokenizeError, TokenizeError => true
  | _, _ => false
  end.

(** Modelled from the spec: the operators and the node kinds of the
    expression tree (section 3 of the specification). A function call
    node carries the text position of its name, which identifies the
    node instance its state belongs to. *)
Inductive UnaryOperator := OpNot | OpNeg.

Inductive BinaryOperator :=
| OpMul | OpDiv | OpMod | OpAdd | OpSub
| OpGthan | OpLthan | OpAnd | OpXor | OpOr.

Inductive Expression :=
| Literal (x : ControlState)
| ControlRef (name : string)
| VariableRef (name : string)
| UnaryOp (op : UnaryOperator) (operand : Expression)
| BinaryOp (op : BinaryOperator) (lhs rhs : Expression)
| Conditional (cond then_branch else_branch : Expression)
| FunctionCall (node : Z) (name : string) (args : list Expression)
| CommaSequence (first second : Expression).
Arguments Literal x%_float.

(** The result of [ParseTokens]: a status, the token at which parsing
    stopped ([std::optional<Token>], read by [Highlight] whenever the
    status is not [Successful]), the tree and the error text. *)
Record ParseResult := mkParseResult {
  status : ParseStatus;
  token : option Token;
  expr : option Expression;
  description : option string
}.

End ExpressionParser.
Import ExpressionParser.

(* ===================================================================== *)
(** ** Lexer                                                              *)
(* ===================================================================== *)

Module Lexer.

(** Modelled from the spec: the lexer of InputCommon's ExpressionParser,
    which is missing; this is the lexer of the specification's section
    4.1. It scans left to right, longest match first, skips white
    space, and on an unrecognized character stops with [TokenizeError],
    returning the tokens found so far followed by a [TOK_INVALID] token
    on that character. A successful scan ends with a [TOK_END_OF_STRING]
    token. Where the specification names a category without its
    delimiters, the choice is stated at the definition. *)

Definition is_digit (c : ascii) : bool :=
  let n := N_of_ascii c in ((48 <=? n) && (n <=? 57))%N.

Definition is_alpha (c : ascii) : bool :=
  let n := N_of_ascii c in
  (((65 <=? n) && (n <=? 90)) || ((97 <=? n) && (n <=? 122)))%N.

Definition is_name_char (c : ascii) : bool :=
  is_alpha c || is_digit c || Ascii.eqb c "_".

Definition is_space (c : ascii) : bool :=
  let n := N_of_ascii c in
  ((n =? 32) || (n =? 9) || (n =? 10) || (n =? 13))%N.

Definition is_newline (c : ascii) : bool := (N_of_ascii c =? 10)%N.

(** The longest prefix whose characters satisfy [p], and the rest. *)
Fixpoint span (p : ascii -> bool) (l : list ascii) : list ascii * list ascii :=
  match l with
  | [] => ([], [])
  | c :: l' =>
      if p c then let '(a, b) := span p l' in (c :: a, b) else ([], l)
  end.

(** The text up to the closing delimiter [d], and what follows it;
    [None] when the delimiter is missing. *)
Fixpoint delimited (d : ascii) (l : list ascii)
    : option (list ascii * list ascii) :=
  match l with
  | [] => None
  | c :: l' =>
      if Ascii.eqb c d then Some ([], l')
      else match delimited d l' with
           | Some (a, b) => Some (c :: a, b)
           | None => None
           end
  end.

Definition digit_value (c : ascii) : Z := Z.of_N (N_of_ascii c) - 48.

Definition digits_value (ds : list ascii) : Z :=
  fold_left (fun acc c => 10 * acc + digit_value c) ds 0.

(** The [double] nearest to an integer. *)
Definition float_of_Z (z : Z) : ControlState :=
  SF2Prim (binary_normalize prec emax z 0 false).

(** The value of [int.frac]: the integer [int frac] divided by ten to the
    number of fraction digits, one rounding for each conversion and one
    for the division. *)
Definition real_value (int_part frac_part : list ascii) : ControlState :=
  match frac_part with
  | [] => float_of_Z (digits_value int_part)
  | _ => (float_of_Z (digits_value (int_part ++ frac_part))
          / float_of_Z (10 ^ Z.of_nat (List.length frac_part)))%float
  end.

(** A bare numeric literal is digits, optionally followed by a point and
    digits. Returns the value and the rest of the input. *)
Definition scan_real (l : list ascii) : ControlState * list ascii :=
  let '(int_part, rest) := span is_digit l in
  match rest with
  | "."%char :: rest' =>
      let '(frac_part, rest'') := span is_digit rest' in
      (real_value int_part frac_part, rest'')
  | _ => (real_value int_part [], rest)
  end.

(** The number a quoted literal stands for: its text read as a bare
    numeric literal, the neutral value 0 when it is not one. *)
Definition number_of_text (l : list ascii) : ControlState :=
  match l with
  | c :: _ =>
      if is_digit c then
        match scan_real l with
        | (x, []) => x
        | _ => 0%float
        end
      else 0%float
  | [] => 0%float
  end.

Definition len (l : list ascii) : Z := Z.of_nat (List.length l).

(** Modelled from the spec: [Lexer::NextToken], which is missing.
    One token at the head of the input, which starts at [pos] and is not
    white space: the token and the input after it. *)
Definition NextToken (pos : Z) (c : ascii) (rest : list ascii)
    : Token * list ascii :=
  let single t := (mkToken t pos 1 NoValue, rest) in
  let upto rest' := len (c :: rest) - len rest' in
  match c with
  | "("%char => single TOK_LPAREN
  | ")"%char => single TOK_RPAREN
  | ","%char => single TOK_COMMA
  | "?"%char => single TOK_QUESTION
  | ":"%char => single TOK_COLON
  | "!"%char => single TOK_NOT
  | "*"%char => single TOK_MUL
  | "/"%char =>
      (* a comment runs from two slashes to the end of the line *)
      match rest with
      | "/"%char :: rest' =>
          let '(body, rest'') := span (fun c => negb (is_newline c)) rest' in
          (mkToken TOK_COMMENT pos (upto rest'')
             (Text (string_of_list_ascii body)), rest'')
      | _ => single TOK_DIV
      end
  | "%"%char => single TOK_MOD
  | "+"%char => single TOK_ADD
  | "-"%char => single TOK_SUB
  | ">"%char => single TOK_GTHAN
  | "<"%char => single TOK_LTHAN
  | "&"%char => single TOK_AND
  | "^"%char => single TOK_XOR
  | "|"%char => single TOK_OR
  | "'"%char =>
      (* a quoted literal, between single quotes *)
      match delimited "'"%char rest with
      | Some (body, rest') =>
          (mkToken TOK_LITERAL pos (upto rest') (Number (number_of_text body)),
           rest')
      | None => single TOK_INVALID
      end
  | "`"%char =>
      (* a device control, between backquotes *)
      match delimited "`"%char rest with
      | Some (body, rest') =>
          (mkToken TOK_CONTROL pos (upto rest')
             (Text (string_of_list_ascii body)), rest')
      | None => single TOK_INVALID
      end
  | "$"%char =>
      let '(name, rest') := span is_name_char rest in
      (mkToken TOK_VARIABLE pos (upto rest')
         (Text (string_of_list_ascii name)), rest')
  | _ =>
      if is_alpha c then
        let '(name, rest') := span is_name_char rest in
        (mkToken TOK_BAREWORD pos (upto rest')
           (Text (string_of_list_ascii (c :: name))), rest')
      else if is_digit c then
        let '(x, rest') := scan_real (c :: rest) in
        (mkToken TOK_LITERAL pos (upto rest') (Number x), rest')
      else single TOK_INVALID
  end.

(** Modelled from the spec: the loop of [Lexer::Tokenize], which is
    missing. [fuel] bounds the number of iterations; every iteration
    consumes a character, so the length of the input plus one is enough
    ([LexerProperties.tokenize_loop_fuel]). *)
Fixpoint tokenize_loop (fuel : nat) (pos : Z) (l : list ascii)
    : option (list Token * ParseStatus) :=
  match fuel with
  | O => None
  | S fuel' =>
      match l with
      | [] => Some ([mkToken TOK_END_OF_STRING pos 0 NoValue], Successful)
      | c :: rest =>
          if is_space c then tokenize_loop fuel' (pos + 1) rest
          else
            let '(tok, rest') := NextToken pos c rest in
            match type tok with
            | TOK_INVALID => Some ([tok], TokenizeError)
            | _ =>
                match tokenize_loop fuel' (pos + string_length tok) rest' with
                | Some (toks, st) => Some (tok :: toks, st)
                | None => None
                end
            end
      end
  end.

(** Modelled from the spec: [Lexer::Tokenize], which is missing:
    the tokens found and the status. *)
Definition Tokenize (expr : string) : list Token * ParseStatus :=
  let l := list_ascii_of_string expr in
  match tokenize_loop (S (List.length l)) 0 l with
  | Some r => r
  | None => ([], TokenizeError)
  end.

End Lexer.

(* ===================================================================== *)
(** ** Parser                                                             *)
(* ===================================================================== *)

Module Parser.

(** Modelled from the spec: the parser of InputCommon's
    ExpressionParser, which is missing; this is the parser of the
    specification's section 4.2, a recursive descent over the token
    list. From the tightest binding to the loosest: function call, unary
    [!] and [-], [* / %], [+ -], [> <], [& ^ |], the ternary [? :] and
    the comma sequence; parentheses hold a whole comma sequence. Binary
    operators associate to the left, the ternary to the right. Parsing
    stops at the first unexpected token and reports it. *)

Inductive Parsed (A : Type) :=
| Ok (a : A) (rest : list Token)
| Err (tok : Token)
| OutOfFuel.
Arguments Ok {A} a rest.
Arguments Err {A} tok.
Arguments OutOfFuel {A}.

(** Sequencing of parse steps. *)
Definition bind {A B} (p : Parsed A) (k : A -> list Token -> Parsed B)
    : Parsed B :=
  match p with
  | Ok a rest => k a rest
  | Err tok => Err tok
  | OutOfFuel => OutOfFuel
  end.

Notation "'parse' x 'leaving' r := p 'in' k" := (bind p (fun x r => k))
  (at level 10, x name, r name, p at level 100, k at level 200).

(** The token under the cursor; past the end of the vector, an
    end-of-string token. *)
Definition Peek (toks : list Token) : Token :=
  match toks with
  | tok :: _ => tok
  | [] => mkToken TOK_END_OF_STRING 0 0 NoValue
  end.

(** Consume a token of type [t], or fail at the token found instead. *)
Definition expect (t : TokenType) (toks : list Token) : Parsed unit :=
  match toks with
  | tok :: rest =>
      if TokenType_eqb (type tok) t then Ok tt rest else Err tok
  | [] => Err (Peek toks)
  end.

(** The binary operator of a token and its precedence level; a lower
    level binds tighter. *)
Definition binary_operator (t : TokenType) : option (BinaryOperator * nat) :=
  match t with
  | TOK_MUL => Some (OpMul, 1%nat)
  | TOK_DIV => Some (OpDiv, 1%nat)
  | TOK_MOD => Some (OpMod, 1%nat)
  | TOK_ADD => Some (OpAdd, 2%nat)
  | TOK_SUB => Some (OpSub, 2%nat)
  | TOK_GTHAN => Some (OpGthan, 3%nat)
  | TOK_LTHAN => Some (OpLthan, 3%nat)
  | TOK_AND => Some (OpAnd, 4%nat)
  | TOK_XOR => Some (OpXor, 4%nat)
  | TOK_OR => Some (OpOr, 4%nat)
  | _ => None
  end.

(** The loosest binary level. *)
Definition lowest_binary : nat := 4.

Definition text_of (tok : Token) : string :=
  match value tok with
  | Text s => s
  | _ => EmptyString
  end.

Definition number_of (tok : Token) : ControlState :=
  match value tok with
  | Number x => x
  | _ => 0%float
  end.

(** Modelled from the spec: the grammar of the parser, which is
    missing. Every call spends one unit of [fuel]. *)
Fixpoint ParseAtom (fuel : nat) (toks : list Token) : Parsed Expression :=
  match fuel with
  | O => OutOfFuel
  | S fuel =>
      match toks with
      | [] => Err (Peek toks)
      | tok :: rest =>
          match type tok with
          | TOK_LITERAL => Ok (Literal (number_of tok)) rest
          | TOK_CONTROL => Ok (ControlRef (text_of tok)) rest
          | TOK_VARIABLE => Ok (VariableRef (text_of tok)) rest
          | TOK_BAREWORD =>
              match rest with
              | paren :: rest' =>
                  if TokenType_eqb (type paren) TOK_LPAREN then
                    parse args leaving r := ParseArguments fuel rest' in
                    Ok (FunctionCall (string_position tok) (text_of tok) args) r
                  else
                    Ok (FunctionCall (string_position tok) (text_of tok) [])
                      rest
              | [] =>
                  Ok (FunctionCall (string_position tok) (text_of tok) []) rest
              end
          | TOK_NOT =>
              parse e leaving r := ParseAtom fuel rest in Ok (UnaryOp OpNot e) r
          | TOK_SUB =>
              parse e leaving r := ParseAtom fuel rest in Ok (UnaryOp OpNeg e) r
          | TOK_LPAREN =>
              parse e leaving r := ParseToplevel fuel rest in
              parse _ leaving r' := expect TOK_RPAREN r in
              Ok e r'
          | _ => Err tok
          end
      end
  end

(** The arguments of a call, after the opening parenthesis. *)
with ParseArguments (fuel : nat) (toks : list Token)
    : Parsed (list Expression) :=
  match fuel with
  | O => OutOfFuel
  | S fuel =>
      if TokenType_eqb (type (Peek toks)) TOK_RPAREN then Ok [] (tl toks)
      else
        parse arg leaving r := ParseTernary fuel toks in
        match type (Peek r) with
        | TOK_RPAREN => Ok [arg] (tl r)
        | TOK_COMMA =>
            if TokenType_eqb (type (Peek (tl r))) TOK_RPAREN
            then Err (Peek (tl r))
            else
              parse args leaving r' := ParseArguments fuel (tl r) in
              Ok (arg :: args) r'
        | _ => Err (Peek r)
        end
  end

(** [lhs] followed by operators of level at most [precedence]. *)
with ParseBinaryLoop (fuel : nat) (precedence : nat) (lhs : Expression)
    (toks : list Token) : Parsed Expression :=
  match fuel with
  | O => OutOfFuel
  | S fuel =>
      match binary_operator (type (Peek toks)) with
      | Some (op, level) =>
          if (level <=? precedence)%nat then
            parse rhs leaving r := ParseBinary fuel (level - 1) (tl toks) in
            ParseBinaryLoop fuel precedence (BinaryOp op lhs rhs) r
          else Ok lhs toks
      | None => Ok lhs toks
      end
  end

with ParseBinary (fuel : nat) (precedence : nat) (toks : list Token)
    : Parsed Expression :=
  match fuel with
  | O => OutOfFuel
  | S fuel =>
      parse lhs leaving r := ParseAtom fuel toks in
      ParseBinaryLoop fuel precedence lhs r
  end

with ParseTernary (fuel : nat) (toks : list Token) : Parsed Expression :=
  match fuel with
  | O => OutOfFuel
  | S fuel =>
      parse c leaving r := ParseBinary fuel lowest_binary toks in
      if TokenType_eqb (type (Peek r)) TOK_QUESTION then
        parse a leaving r1 := ParseTernary fuel (tl r) in
        parse _ leaving r2 := expect TOK_COLON r1 in
        parse b leaving r3 := ParseTernary fuel r2 in
        Ok (Conditional c a b) r3
      else Ok c r
  end

(** [lhs] followed by comma-separated expressions. *)
with ParseCommaLoop (fuel : nat) (lhs : Expression) (toks : list Token)
    : Parsed Expression :=
  match fuel with
  | O => OutOfFuel
  | S fuel =>
      if TokenType_eqb (type (Peek toks)) TOK_COMMA then
        parse rhs leaving r := ParseTernary fuel (tl toks) in
        ParseCommaLoop fuel (CommaSequence lhs rhs) r
      else Ok lhs toks
  end

with ParseToplevel (fuel : nat) (toks : list Token) : Parsed Expression :=
  match fuel with
  | O => OutOfFuel
  | S fuel =>
      parse e leaving r := ParseTernary fuel toks in
      ParseCommaLoop fuel e r
  end.

Definition is_comment (tok : Token) : bool :=
  TokenType_eqb (type tok) TOK_COMMENT.

(** Fuel that suffices for a vector of [n] tokens
    ([ParserProperties.ParseTokens_fuel]). *)
Definition fuel_for (n : nat) : nat := 8 * (n + 1).

Definition MakeEmptyResult (tok : Token) : ParseResult :=
  {| status := EmptyExpression; token := Some tok;
     expr := None; description := None |}.

Definition MakeErrorResult (tok : Token) (text : string) : ParseResult :=
  {| status := SyntaxError; token := Some tok;
     expr := None; description := Some text |}.

Definition MakeSuccessfulResult (e : Expression) : ParseResult :=
  {| status := Successful; token := None;
     expr := Some e; description := None |}.

(** Modelled from the spec: [ParseTokens], which is missing.
    Comments are skipped; a vector with nothing before the end of string
    is the empty expression; anything left after the expression is an
    error at the first token left. Every result other than the successful
    one carries the token at which parsing stopped. The last branch is
    never taken ([ParserProperties.ParseTokens_fuel]). *)
Definition ParseTokens (tokens : list Token) : ParseResult :=
  let toks := filter (fun tok => negb (is_comment tok)) tokens in
  if TokenType_eqb (type (Peek toks)) TOK_END_OF_STRING then
    MakeEmptyResult (Peek toks)
  else
    match ParseToplevel (fuel_for (List.length toks)) toks with
    | Ok e rest =>
        if TokenType_eqb (type (Peek rest)) TOK_END_OF_STRING
        then MakeSuccessfulResult e
        else MakeErrorResult (Peek rest) "Expected end of expression."
    | Err tok => MakeErrorResult tok "Unexpected token."
    | OutOfFuel => MakeErrorResult (Peek toks) "Expression too deep."
    end.

(** Modelled from the spec: [ParseExpression], which is missing:
    lexer, then parser. *)
Definition ParseExpression (text : string) : ParseResult :=
  let '(tokens, tokenize_status) := Lexer.Tokenize text in
  match tokenize_status with
  | Successful => ParseTokens tokens
  | _ =>
      {| status := TokenizeError; token := List.last (map Some tokens) None;
         expr := None; description := Some "Unrecognized character." |}
  end.

End Parser.

(* ===================================================================== *)
(** ** Expression evaluation                                              *)
(* ===================================================================== *)

Module Evaluator.

(** Modelled from the spec: the expression classes of InputCommon, which
    are missing; this is the evaluator of the specification's section
    4.3. Boolean-like operators read a nonzero operand as true and
    yield 1 or 0; [/] and [%] by zero yield the sentinel 0; the ternary
    evaluates its condition and then the selected branch only. The value
    of a node is not clamped (the specification's "1 + 2 * 3" is 7). *)

Definition is_true (x : ControlState) : bool := negb (x =? 0)%float.

Definition of_bool (b : bool) : ControlState := if b then 1%float else 0%float.

(** C's [fmod] for a nonzero divisor, computed exactly on the mantissas:
    the result has the sign of the dividend. *)
Definition fmod (x y : ControlState) : ControlState :=
  match Prim2SF x, Prim2SF y with
  | S754_finite sx mx ex, S754_finite _ my ey =>
      let e := Z.min ex ey in
      let a := Z.pos mx * 2 ^ (ex - e) in
      let b := Z.pos my * 2 ^ (ey - e) in
      let r := a mod b in
      SF2Prim (binary_normalize prec emax (if sx then - r else r) e sx)
  | S754_finite _ _ _, S754_infinity _ => x
  | S754_zero _, S754_finite _ _ _ => x
  | S754_zero _, S754_infinity _ => x
  | _, _ => nan
  end.

Definition apply_unary (op : UnaryOperator) (x : ControlState) : ControlState :=
  match op with
  | OpNot => of_bool (negb (is_true x))
  | OpNeg => (- x)%float
  end.

Definition apply_binary (op : BinaryOperator) (x y : ControlState)
    : ControlState :=
  match op with
  | OpMul => (x * y)%float
  | OpDiv => if (y =? 0)%float then 0%float else (x / y)%float
  | OpMod => if (y =? 0)%float then 0%float else fmod x y
  | OpAdd => (x + y)%float
  | OpSub => (x - y)%float
  | OpGthan => of_bool (y <? x)%float
  | OpLthan => of_bool (x <? y)%float
  | OpAnd => of_bool (is_true x && is_true y)
  | OpXor => of_bool (xorb (is_true x) (is_true y))
  | OpOr => of_bool (is_true x || is_true y)
  end.

Section WithFunctions.

(** The state a stateful function keeps in its node. *)
Variable FunctionState : Type.

(** An entry of the function table: arity, the state of a fresh node and
    the evaluation from the argument values and the node's state. *)
Record Function := mkFunction {
  arity : nat;
  initial_state : FunctionState;
  evaluate : list ControlState -> FunctionState -> ControlState * FunctionState
}.

Variable function_table : string -> option Function.

(** What evaluation reads and writes: the device inputs and outputs by
    control name, the controller's variable table, and the state of the
    function nodes of the tree by node. *)
Record Environment := mkEnvironment {
  inputs : gmap string ControlState;
  outputs : gmap string ControlState;
  variables : gmap string ControlState;
  node_states : gmap Z FunctionState
}.

Definition set_node_state (node : Z) (st : FunctionState) (env : Environment)
    : Environment :=
  {| inputs := inputs env; outputs := outputs env;
     variables := variables env;
     node_states := <[node := st]> (node_states env) |}.

(** A call with evaluated arguments: an unknown name or a wrong number
    of arguments yields the neutral value 0 and touches nothing. *)
Definition call_function (node : Z) (name : string) (xs : list ControlState)
    (env : Environment) : ControlState * Environment :=
  match function_table name with
  | Some f =>
      if (List.length xs =? arity f)%nat then
        let st := default (initial_state f) (node_states env !! node) in
        let '(x, st') := evaluate f xs st in
        (x, set_node_state node st' env)
      else (0%float, env)
  | None => (0%float, env)
  end.

(** Modelled from the spec: [get_state] of a node, which is
    missing. *)
Fixpoint GetState (e : Expression) (env : Environment)
    : ControlState * Environment :=
  match e with
  | Literal x => (x, env)
  | ControlRef name => (default 0%float (inputs env !! name), env)
  | VariableRef name => (default 0%float (variables env !! name), env)
  | UnaryOp op a =>
      let '(x, env1) := GetState a env in (apply_unary op x, env1)
  | BinaryOp op a b =>
      let '(x, env1) := GetState a env in
      let '(y, env2) := GetState b env1 in
      (apply_binary op x y, env2)
  | Conditional c a b =>
      let '(x, env1) := GetState c env in
      if is_true x then GetState a env1 else GetState b env1
  | FunctionCall node name args =>
      let '(xs, env1) :=
        (fix eval_args (l : list Expression) (env : Environment) :=
           match l with
           | [] => ([], env)
           | a :: l' =>
               let '(x, env1) := GetState a env in
               let '(xs, env2) := eval_args l' env1 in
               (x :: xs, env2)
           end) args env in
      call_function node name xs env1
  | CommaSequence a b =>
      let '(_, env1) := GetState a env in GetState b env1
  end.

(** Modelled from the spec: [set_state] of a node, which is
    missing: a control writes the device output, a variable writes the
    table (creating the entry), [|] writes both sides (the one operator
    the dialog offers for outputs); other nodes are not output-capable. *)
Fixpoint SetState (e : Expression) (x : ControlState) (env : Environment)
    : Environment :=
  match e with
  | ControlRef name =>
      {| inputs := inputs env; outputs := <[name := x]> (outputs env);
         variables := variables env; node_states := node_states env |}
  | VariableRef name =>
      {| inputs := inputs env; outputs := outputs env;
         variables := <[name := x]> (variables env);
         node_states := node_states env |}
  | BinaryOp OpOr a b => SetState b x (SetState a x env)
  | _ => env
  end.

End WithFunctions.

Arguments mkFunction {FunctionState}.
Arguments arity {FunctionState}.
Arguments initial_state {FunctionState}.
Arguments evaluate {FunctionState}.
Arguments mkEnvironment {FunctionState}.
Arguments inputs {FunctionState}.
Arguments outputs {FunctionState}.
Arguments variables {FunctionState}.
Arguments node_states {FunctionState}.
Arguments GetState {FunctionState}.
Arguments SetState {FunctionState}.
Arguments call_function {FunctionState}.

(** A small function table to run expressions with: [min], [max] and
    [abs] are pure, [toggle] flips its output on each rising edge of its
    argument and keeps (last input, output) in its node. *)
Definition toggle_step (xs : list ControlState) (st : bool * bool)
    : ControlState * (bool * bool) :=
  let pressed := is_true (hd 0%float xs) in
  let '(was_pressed, on) := st in
  let on' := if pressed && negb was_pressed then negb on else on in
  (of_bool on', (pressed, on')).

Definition pure_function (n : nat) (f : list ControlState -> ControlState)
    : Function (bool * bool) :=
  mkFunction n (false, false) (fun xs st => (f xs, st)).

Definition basic_functions (name : string) : option (Function (bool * bool)) :=
  if String.eqb name "min" then
    Some (pure_function 2 (fun xs =>
      let a := nth 0 xs 0%float in let b := nth 1 xs 0%float in
      if (a <? b)%float then a else b))
  else if String.eqb name "max" then
    Some (pure_function 2 (fun xs =>
      let a := nth 0 xs 0%float in let b := nth 1 xs 0%float in
      if (a <? b)%float then b else a))
  else if String.eqb name "abs" then
    Some (pure_function 1 (fun xs => abs (nth 0 xs 0%float)))
  else if String.eqb name "toggle" then
    Some (mkFunction 1%nat (false, false) toggle_step)
  else None.

Definition empty_environment {S : Type} : Environment S :=
  mkEnvironment ∅ ∅ ∅ ∅.

(** Parse a text and evaluate its tree once; [None] when the text has no
    tree. *)
Definition evaluate_text {S : Type} (table : string -> option (Function S))
    (text : string) (env : Environment S)
    : option (ControlState * Environment S) :=
  match expr (Parser.ParseExpression text) with
  | Some e => Some (GetState table e env)
  | None => None
  end.

End Evaluator.

(* ===================================================================== *)
(** ** Control reference and controller                                   *)
(* ===================================================================== *)

(** What the dialog uses of [ControlReference]
    (InputCommon/ControlReference/ControlReference.h). [SetExpression]
    returns the error text, if any, and the recompiled reference; [range]
    is the public member of that name. *)
Class ControlReferenceOps (R : Type) := {
  GetExpression : R -> string;
  SetExpression : string -> R -> option string * R;
  GetParseStatus : R -> ParseStatus;
  range : R -> ControlState;
  set_range : ControlState -> R -> R;
  IsInput : R -> bool;
  (* [range] is a plain data member: assigning it changes nothing else *)
  range_set_range : forall x r, range (set_range x r) = x;
  GetExpression_set_range :
    forall x r, GetExpression (set_range x r) = GetExpression r;
  GetParseStatus_set_range :
    forall x r, GetParseStatus (set_range x r) = GetParseStatus r
}.

(** What the dialog uses of [ControllerEmu::EmulatedController]. The
    variables are a [std::map], read in key order. *)
Class EmulatedControllerOps (C R : Type) := {
  UpdateSingleControlReference : R -> C -> C;
  GetExpressionVariables : C -> list (string * ControlState);
  ResetExpressionVariables : C -> C
}.

Module ControlReference.

(** Modelled from the spec: the control reference of InputCommon, which
    is missing; this is the one of the specification's section 4.4: the
    expression text, the parse status, the compiled tree, the range and
    the input flag. *)
Record t := mk {
  m_expression : string;
  m_parse_status : ParseStatus;
  m_parsed_expression : option Expression;
  m_range : ControlState;
  m_is_input : bool
}.

(** Modelled from the spec: [ControlReference::SetExpression], which
    is missing. Recompile with lexer and parser. On success the new
    tree is stored and there is no error; the empty expression is the
    valid state of no binding; on failure the previous tree is kept and
    the error text returned. *)
Definition SetExpression (text : string) (r : t) : option string * t :=
  let result := Parser.ParseExpression text in
  let tree :=
    match status result with
    | Successful => expr result
    | EmptyExpression => None
    | SyntaxError | TokenizeError => m_parsed_expression r
    end in
  (description result,
   {| m_expression := text;
      m_parse_status := status result;
      m_parsed_expression := tree;
      m_range := m_range r;
      m_is_input := m_is_input r |}).

Definition set_range (x : ControlState) (r : t) : t :=
  {| m_expression := m_expression r;
     m_parse_status := m_parse_status r;
     m_parsed_expression := m_parsed_expression r;
     m_range := x;
     m_is_input := m_is_input r |}.

(** A fresh reference: no expression, range 1. *)
Definition create (is_input : bool) : t :=
  {| m_expression := EmptyString;
     m_parse_status := EmptyExpression;
     m_parsed_expression := None;
     m_range := 1%float;
     m_is_input := is_input |}.

#[global] Instance ops : ControlReferenceOps t := {
  GetExpression := m_expression;
  SetExpression := SetExpression;
  GetParseStatus := m_parse_status;
  range := m_range;
  set_range := set_range;
  IsInput := m_is_input;
  range_set_range := fun _ _ => eq_refl;
  GetExpression_set_range := fun _ _ => eq_refl;
  GetParseStatus_set_range := fun _ _ => eq_refl
}.

(** Modelled from the spec: the variable table of the parent controller,
    from variable name to last written value; reset sets every entry
    to 0. The specification gives the controller nothing to do when one
    reference is updated. *)
Definition Controller := gmap string ControlState.

#[global] Instance controller_ops : EmulatedControllerOps Controller t := {
  UpdateSingleControlReference := fun _ c => c;
  GetExpressionVariables := fun c => map_to_list c;
  ResetExpressionVariables := fun c => (fun _ => 0%float) <$> c
}.

End ControlReference.

(* ===================================================================== *)
(** ** Input detector                                                     *)
(* ===================================================================== *)

Module InputDetector.

(** Modelled from the spec: [ciface::Core::InputDetector], which is
    missing; this is the state machine of the specification's section
    4.5. Times are clock ticks (milliseconds). The confidence of a
    detection is the deviation from the baseline that crossed the
    threshold. *)

Inductive Phase := Idle | Sampling | Complete.

Record Detection := mkDetection {
  input : string;
  confidence : ControlState;
  time : Z
}.

Record t := mk {
  phase : Phase;
  start_time : Z;
  baseline : list (string * ControlState);
  detections : list Detection
}.

(** [std::make_unique<InputDetector>()]. *)
Definition create : t :=
  {| phase := Idle; start_time := 0; baseline := []; detections := [] |}.

(** Modelled from the spec: [InputDetector::Start], which is
    missing: snapshot the state of every control of the chosen devices. *)
Definition Start (now : Z) (controls : list (string * ControlState)) (d : t)
    : t :=
  {| phase := Sampling; start_time := now; baseline := controls;
     detections := [] |}.

Definition IsComplete (d : t) : bool :=
  match phase d with Complete => true | _ => false end.

Fixpoint lookup_control (name : string) (l : list (string * ControlState))
    : option ControlState :=
  match l with
  | [] => None
  | (n, x) :: l' => if String.eqb n name then Some x else lookup_control name l'
  end.

Definition detected (name : string) (l : list Detection) : bool :=
  existsb (fun r => String.eqb (input r) name) l.

Section Sampling.

(** The fixed confidence threshold, whose value the specification leaves
    open. *)
Variable threshold : ControlState.

(** One sampled control: recorded when its deviation from the baseline
    exceeds the threshold and it was not recorded before. *)
Definition sample_control (now : Z) (base : list (string * ControlState))
    (found : list Detection) (s : string * ControlState) : list Detection :=
  let '(name, x) := s in
  match lookup_control name base with
  | Some x0 =>
      let deviation := abs (x - x0)%float in
      if (threshold <? deviation)%float && negb (detected name found)
      then found ++ [mkDetection name deviation now]
      else found
  | None => found
  end.

(** Modelled from the spec: [InputDetector::Update], which is
    missing: while sampling, record the controls that moved; sampling ends
    when the time budget is spent. *)
Definition Update (budget : Z) (now : Z) (sample : list (string * ControlState))
    (d : t) : t :=
  match phase d with
  | Sampling =>
      let found := fold_left (sample_control now (baseline d)) sample
                     (detections d) in
      {| phase := if budget <=? now - start_time d then Complete else Sampling;
         start_time := start_time d;
         baseline := baseline d;
         detections := found |}
  | _ => d
  end.

End Sampling.

(** An external cancel ends the sampling. *)
Definition Cancel (d : t) : t :=
  match phase d with
  | Sampling =>
      {| phase := Complete; start_time := start_time d;
         baseline := baseline d; detections := detections d |}
  | _ => d
  end.

(** Modelled from the spec: the order of the results, by detection
    confidence and then recency: higher confidence first, then the
    earlier detection. *)
Definition ranks_before (a b : Detection) : bool :=
  if (confidence b <? confidence a)%float then true
  else if (confidence a <? confidence b)%float then false
  else time a <=? time b.

Fixpoint insert_ranked (a : Detection) (l : list Detection) : list Detection :=
  match l with
  | [] => [a]
  | b :: l' => if ranks_before a b then a :: l else b :: insert_ranked a l'
  end.

Definition rank (l : list Detection) : list Detection :=
  fold_right insert_ranked [] l.

(** Modelled from the spec: [InputDetector::TakeResults], which is
    missing: the ranked detections, which leave the detector. *)
Definition TakeResults (d : t) : list Detection * t :=
  (rank (detections d),
   {| phase := phase d; start_time := start_time d; baseline := baseline d;
      detections := [] |}).

End InputDetector.


(* ===================================================================== *)
(** ** Qt text: QString, toLatin1, text blocks and character formats      *)
(* ===================================================================== *)

Module Qt.

(** A [QString] is a sequence of UTF-16 code units ([QChar]). *)
Definition QChar := N.
Definition QString := list QChar.

(** [QString::toLatin1]: one byte for each [QChar]; a code unit above
    0xFF has no Latin-1 equivalent and becomes a question mark (what Qt
    does, and what the comment in [Highlight] relies on: a single byte
    for such a character). *)
Definition latin1_of_QChar (c : QChar) : ascii :=
  if (c <=? 255)%N then ascii_of_N c else "?"%char.

Definition toLatin1 (s : QString) : string :=
  string_of_list_ascii (map latin1_of_QChar s).

(** [QString::fromLatin1], each byte read as the code unit of that value. *)
Definition fromLatin1 (s : string) : QString :=
  map N_of_ascii (list_ascii_of_string s).

Inductive QColor :=
| Rgb (r g b : Z)
| darkMagenta | darkRed | darkGreen | darkYellow | darkBlue | darkGray.

Record QTextCharFormat := mkFormat {
  fontWeightBold : bool;
  foreground : option QColor;
  waveUnderline : option QColor
}.

Definition default_format : QTextCharFormat :=
  {| fontWeightBold := false; foreground := None; waveUnderline := None |}.

(** A [QTextBlock] as the highlighter sees it: [position()] and
    [length()], in QChar units. *)
Record QTextBlock := mkBlock {
  block_position_of : Z;
  block_length_of : Z
}.

Record QTextDocument := mkDocument {
  toPlainText : QString;
  blocks : list QTextBlock
}.

End Qt.
Import Qt.

(** [QTextLayout::FormatRange]. *)
Module QTextLayout.
Record FormatRange := mkRange {
  start : Z;
  length : Z;
  format : QTextCharFormat
}.
End QTextLayout.
Abbreviation FormatRange := QTextLayout.FormatRange.

(* ===================================================================== *)
(** ** ControlExpressionSyntaxHighlighter                                 *)
(* ===================================================================== *)

Section CharFormats.

(** [Settings::Instance().IsThemeDark()]. *)
Variable IsThemeDark : bool.

Definition GetSpecialCharFormat : QTextCharFormat :=
  {| fontWeightBold := true; foreground := None; waveUnderline := None |}.

Definition GetLiteralCharFormat : QTextCharFormat :=
  {| fontWeightBold := false;
     foreground := Some (if IsThemeDark then Rgb 171 132 219 else darkMagenta);
     waveUnderline := None |}.

Definition GetInvalidCharFormat : QTextCharFormat :=
  {| fontWeightBold := false;
     foreground := None;
     waveUnderline := Some (if IsThemeDark then Rgb 255 69 0 else darkRed) |}.

Definition GetControlCharFormat : QTextCharFormat :=
  {| fontWeightBold := false;
     foreground := Some (if IsThemeDark then Rgb 0 220 0 else darkGreen);
     waveUnderline := None |}.

Definition GetVariableCharFormat : QTextCharFormat :=
  {| fontWeightBold := false;
     foreground := Some (if IsThemeDark then Rgb 226 226 0 else darkYellow);
     waveUnderline := None |}.

Definition GetBarewordCharFormat : QTextCharFormat :=
  {| fontWeightBold := false;
     foreground := Some (if IsThemeDark then Rgb 66 138 255 else darkBlue);
     waveUnderline := None |}.

Definition GetCommentCharFormat : QTextCharFormat :=
  {| fontWeightBold := false;
     foreground := Some (if IsThemeDark then Rgb 176 176 176 else darkGray);
     waveUnderline := None |}.

(** The lambda [get_token_char_format] of [Highlight]. *)
Definition get_token_char_format (token : Token) : option QTextCharFormat :=
  match type token with
  | TOK_INVALID => Some GetInvalidCharFormat
  | TOK_LPAREN | TOK_RPAREN | TOK_COMMA | TOK_QUESTION | TOK_COLON =>
      Some GetSpecialCharFormat
  | TOK_LITERAL => Some GetLiteralCharFormat
  | TOK_CONTROL => Some GetControlCharFormat
  | TOK_BAREWORD => Some GetBarewordCharFormat
  | TOK_VARIABLE => Some GetVariableCharFormat
  | TOK_COMMENT => Some GetCommentCharFormat
  | _ => if IsBinaryOperator token then Some GetSpecialCharFormat else None
  end.

(** The conversion [int(x)] of a [size_t]: the low 32 bits, signed. *)
Definition to_int (x : Z) : Z := (x + 2 ^ 31) mod 2 ^ 32 - 2 ^ 31.

(** The inner loop of [Highlight] over the tokens, for one block:
    [continue] on a token that ends before the block, [break] on the
    first token found to start after it. *)
Fixpoint block_format_ranges (block_position block_length : Z)
    (tokens : list Token) : list FormatRange :=
  match tokens with
  | [] => []
  | token :: rest =>
      let token_length := to_int (string_length token) in
      let token_start := to_int (string_position token) - block_position in
      let token_length :=
        if token_start <? 0 then token_length + token_start else token_length in
      let token_start := if token_start <? 0 then 0 else token_start in
      if token_length <=? 0 then
        block_format_ranges block_position block_length rest
      else if token_start >=? block_length then
        []
      else
        match get_token_char_format token with
        | Some char_format =>
            {| QTextLayout.start := token_start;
               QTextLayout.length := token_length;
               QTextLayout.format := char_format |}
            :: block_format_ranges block_position block_length rest
        | None => block_format_ranges block_position block_length rest
        end
  end.

(** The outer loop: the format ranges set on each block's layout. Note
    that [block_length] is the block's end position, as in the source. *)
Definition set_block_formats (tokens : list Token) (block : QTextBlock)
    : list FormatRange :=
  let block_position := block_position_of block in
  let block_length := block_position + block_length_of block in
  block_format_ranges block_position block_length tokens.

End CharFormats.

Section Highlighter.

(** [Lexer::Tokenize] fills a vector and returns a status; [ParseTokens]
    reads the vector. Both live in InputCommon. *)
Variable Tokenize : string -> list Token * ParseStatus.
Variable ParseTokens : list Token -> ParseResult.
Variable IsThemeDark : bool.

(** The token vector [Highlight] paints from. [None] is the undefined
    behaviour of dereferencing an empty [parse_status.token]. *)
Definition highlight_tokens (text : QString) : option (list Token) :=
  let '(tokens, tokenize_status) := Tokenize (toLatin1 text) in
  if ParseStatus_eqb Successful tokenize_status then
    let parse_status := ParseTokens tokens in
    if negb (ParseStatus_eqb Successful (status parse_status)) then
      match token parse_status with
      | Some token => Some (tokens ++ [set_type TOK_INVALID token])
      | None => None
      end
    else Some tokens
  else Some tokens.

(** [Highlight]: the list of format ranges of every block, in order. *)
Definition Highlight (document : QTextDocument)
    : option (list (list FormatRange)) :=
  match highlight_tokens (toPlainText document) with
  | Some tokens =>
      Some (map (set_block_formats IsThemeDark tokens) (blocks document))
  | None => None
  end.

End Highlighter.

(* ===================================================================== *)
(** ** IOWindow                                                           *)
(* ===================================================================== *)

(** [IOWindow::Type]. *)
Inductive IOType := Input | Output.

(** [IOWindow::UpdateMode]. *)
Inductive UpdateMode := Normal | Force.

Inductive DialogCode := Rejected | Accepted.

(** The read-only line under the editor: its text, and whether
    [paintEvent] paints the state indicator over it. *)
Record InputStateLineEdit := mkLineEdit {
  text : string;
  m_should_paint_state_indicator : bool
}.

Definition SetShouldPaintStateIndicator (b : bool) (e : InputStateLineEdit) :=
  {| text := text e; m_should_paint_state_indicator := b |}.

Definition setText (s : string) (e : InputStateLineEdit) :=
  {| text := s;
     m_should_paint_state_indicator := m_should_paint_state_indicator e |}.

(** [InputStateLineEdit::paintEvent] paints the indicator exactly when
    the flag is set. *)
Definition paints_state_indicator (e : InputStateLineEdit) : bool :=
  m_should_paint_state_indicator e.

Inductive ComboItem := Item (s : string) | Separator.

Record QSpinBox := mkSpinBox {
  minimum : Z;
  maximum : Z;
  spin_value : Z
}.

(** [QSpinBox::setValue] keeps the value within the bounds. *)
Definition bound_value (box : QSpinBox) (v : Z) : Z :=
  Z.max (minimum box) (Z.min (maximum box) v).

(** The integer part of a [double], towards zero; an infinity and a NaN
    have none. *)
Definition truncate (x : ControlState) : option Z :=
  match Prim2SF x with
  | S754_zero _ => Some 0
  | S754_finite s m e =>
      let a := if 0 <=? e then Z.pos m * 2 ^ e else Z.pos m / 2 ^ (- e) in
      Some (if s then - a else a)
  | _ => None
  end.

Definition INT_MIN : Z := - 2 ^ 31.
Definition INT_MAX : Z := 2 ^ 31 - 1.

(** The conversion of [x] to [int] is defined: the integer part of [x]
    is an [int]. *)
Definition fits_int (x : ControlState) : bool :=
  match truncate x with
  | Some a => (INT_MIN <=? a) && (a <=? INT_MAX)
  | None => false
  end.

(** The conversion of a [double] to [int]: the fraction is dropped. Where
    the integer part is no [int], and for an infinity or a NaN, C++ leaves
    the conversion undefined; the value here is what the conversion
    instruction of x86-64 gives then, [INT_MIN]. *)
Definition int_of_double (x : ControlState) : Z :=
  match truncate x with
  | Some a => if (INT_MIN <=? a) && (a <=? INT_MAX) then a else INT_MIN
  | None => INT_MIN
  end.

(** Milliseconds. *)
Definition INPUT_DETECT_TIME : Z := 2000.
Definition OUTPUT_TEST_TIME : Z := 2000.

(** [Qt::MatchFixedString] compares without regard to letter case. *)
Definition to_lower (c : ascii) : ascii :=
  let n := N_of_ascii c in
  if ((65 <=? n) && (n <=? 90))%N then ascii_of_N (n + 32) else c.

Definition lower (s : string) : list ascii :=
  map to_lower (list_ascii_of_string s).

Definition MatchFixedString (a b : string) : bool :=
  String.eqb (string_of_list_ascii (lower a)) (string_of_list_ascii (lower b)).

(** The editor, a [QPlainTextEdit]. A [std::string] shown in it with
    [setPlainText(QString::fromStdString(s))] is read back with
    [toPlainText().toStdString()] as [plain_text s]. That is not [s] for
    every [s]: [fromStdString] decodes UTF-8 into UTF-16, and
    [toPlainText] gives a line feed for every paragraph or line separator
    and a space for a no-break space. Qt is not part of the repository
    and nothing is assumed of the function. *)
Class QPlainTextEditOps := {
  plain_text : string -> string
}.

Section Dialog.

Context {R C : Type}.
Context {reference_ops : ControlReferenceOps R}.
Context {controller_ops : EmulatedControllerOps C R}.
Context {editor_ops : QPlainTextEditOps}.

(** The confidence threshold of the input detector. *)
Variable threshold : ControlState.

Record IOWindow := mkIOWindow {
  m_reference : R;
  m_controller : C;
  m_original_expression : string;
  m_type : IOType;
  m_expression_text : string;
  m_parse_text : InputStateLineEdit;
  m_variables_combo : list ComboItem;
  m_scalar_spinbox : QSpinBox;
  m_output_test_timer : bool;
  m_test_button : string;
  m_detect_button : string;
  input_detect_start_timer : bool;
  m_input_detector : option InputDetector.t;
  m_option_list : list string;
  current_item : option string;
  signals_blocked : bool;
  widgets_connected : bool;
  state_written : list ControlState;
  warnings : list string;
  result : option DialogCode
}.

(** Assignment to one member. *)
Definition set_m_reference (v : R) (w : IOWindow) : IOWindow :=
  mkIOWindow v (m_controller w) (m_original_expression w) (m_type w)
    (m_expression_text w) (m_parse_text w) (m_variables_combo w)
    (m_scalar_spinbox w) (m_output_test_timer w) (m_test_button w)
    (m_detect_button w) (input_detect_start_timer w) (m_input_detector w)
    (m_option_list w) (current_item w) (signals_blocked w)
    (widgets_connected w) (state_written w) (warnings w) (result w).

Definition set_m_controller (v : C) (w : IOWindow) : IOWindow :=
  mkIOWindow (m_reference w) v (m_original_expression w) (m_type w)
    (m_expression_text w) (m_parse_text w) (m_variables_combo w)
    (m_scalar_spinbox w) (m_output_test_timer w) (m_test_button w)
    (m_detect_button w) (input_detect_start_timer w) (m_input_detector w)
    (m_option_list w) (current_item w) (signals_blocked w)
    (widgets_connected w) (state_written w) (warnings w) (result w).

Definition set_m_original_expression (v : string) (w : IOWindow) : IOWindow :=
  mkIOWindow (m_reference w) (m_controller w) v (m_type w)
    (m_expression_text w) (m_parse_text w) (m_variables_combo w)
    (m_scalar_spinbox w) (m_output_test_timer w) (m_test_button w)
    (m_detect_button w) (input_detect_start_timer w) (m_input_detector w)
    (m_option_list w) (current_item w) (signals_blocked w)
    (widgets_connected w) (state_written w) (warnings w) (result w).

Definition set_m_type (v : IOType) (w : IOWindow) : IOWindow :=
  mkIOWindow (m_reference w) (m_controller w) (m_original_expression w) v
    (m_expression_text w) (m_parse_text w) (m_variables_combo w)
    (m_scalar_spinbox w) (m_output_test_timer w) (m_test_button w)
    (m_detect_button w) (input_detect_start_timer w) (m_input_detector w)
    (m_option_list w) (current_item w) (signals_blocked w)
    (widgets_connected w) (state_written w) (warnings w) (result w).

Definition set_m_expression_text (v : string) (w : IOWindow) : IOWindow :=
  mkIOWindow (m_reference w) (m_controller w) (m_original_expression w)
    (m_type w) v (m_parse_text w) (m_variables_combo w) (m_scalar_spinbox w)
    (m_output_test_timer w) (m_test_button w) (m_detect_button w)
    (input_detect_start_timer w) (m_input_detector w) (m_option_list w)
    (current_item w) (signals_blocked w) (widgets_connected w)
    (state_written w) (warnings w) (result w).

Definition set_m_parse_text (v : InputStateLineEdit)
    (w : IOWindow) : IOWindow :=
  mkIOWindow (m_reference w) (m_controller w) (m_original_expression w)
    (m_type w) (m_expression_text w) v (m_variables_combo w)
    (m_scalar_spinbox w) (m_output_test_timer w) (m_test_button w)
    (m_detect_button w) (input_detect_start_timer w) (m_input_detector w)
    (m_option_list w) (current_item w) (signals_blocked w)
    (widgets_connected w) (state_written w) (warnings w) (result w).

Definition set_m_variables_combo (v : list ComboItem)
    (w : IOWindow) : IOWindow :=
  mkIOWindow (m_reference w) (m_controller w) (m_original_expression w)
    (m_type w) (m_expression_text w) (m_parse_text w) v (m_scalar_spinbox w)
    (m_output_test_timer w) (m_test_button w) (m_detect_button w)
    (input_detect_start_timer w) (m_input_detector w) (m_option_list w)
    (current_item w) (signals_blocked w) (widgets_connected w)
    (state_written w) (warnings w) (result w).

Definition set_m_scalar_spinbox (v : QSpinBox) (w : IOWindow) : IOWindow :=
  mkIOWindow (m_reference w) (m_controller w) (m_original_expression w)
    (m_type w) (m_expression_text w) (m_parse_text w) (m_variables_combo w)
    v (m_output_test_timer w) (m_test_button w) (m_detect_button w)
    (input_detect_start_timer w) (m_input_detector w) (m_option_list w)
    (current_item w) (signals_blocked w) (widgets_connected w)
    (state_written w) (warnings w) (result w).

Definition set_m_output_test_timer (v : bool) (w : IOWindow) : IOWindow :=
  mkIOWindow (m_reference w) (m_controller w) (m_original_expression w)
    (m_type w) (m_expression_text w) (m_parse_text w) (m_variables_combo w)
    (m_scalar_spinbox w) v (m_test_button w) (m_detect_button w)
    (input_detect_start_timer w) (m_input_detector w) (m_option_list w)
    (current_item w) (signals_blocked w) (widgets_connected w)
    (state_written w) (warnings w) (result w).

Definition set_m_test_button (v : string) (w : IOWindow) : IOWindow :=
  mkIOWindow (m_reference w) (m_controller w) (m_original_expression w)
    (m_type w) (m_expression_text w) (m_parse_text w) (m_variables_combo w)
    (m_scalar_spinbox w) (m_output_test_timer w) v (m_detect_button w)
    (input_detect_start_timer w) (m_input_detector w) (m_option_list w)
    (current_item w) (signals_blocked w) (widgets_connected w)
    (state_written w) (warnings w) (result w).

Definition set_m_detect_button (v : string) (w : IOWindow) : IOWindow :=
  mkIOWindow (m_reference w) (m_controller w) (m_original_expression w)
    (m_type w) (m_expression_text w) (m_parse_text w) (m_variables_combo w)
    (m_scalar_spinbox w) (m_output_test_timer w) (m_test_button w) v
    (input_detect_start_timer w) (m_input_detector w) (m_option_list w)
    (current_item w) (signals_blocked w) (widgets_connected w)
    (state_written w) (warnings w) (result w).

Definition set_input_detect_start_timer (v : bool) (w : IOWindow) : IOWindow :=
  mkIOWindow (m_reference w) (m_controller w) (m_original_expression w)
    (m_type w) (m_expression_text w) (m_parse_text w) (m_variables_combo w)
    (m_scalar_spinbox w) (m_output_test_timer w) (m_test_button w)
    (m_detect_button w) v (m_input_detector w) (m_option_list w)
    (current_item w) (signals_blocked w) (widgets_connected w)
    (state_written w) (warnings w) (result w).

Definition set_m_input_detector (v : option InputDetector.t)
    (w : IOWindow) : IOWindow :=
  mkIOWindow (m_reference w) (m_controller w) (m_original_expression w)
    (m_type w) (m_expression_text w) (m_parse_text w) (m_variables_combo w)
    (m_scalar_spinbox w) (m_output_test_timer w) (m_test_button w)
    (m_detect_button w) (input_detect_start_timer w) v (m_option_list w)
    (current_item w) (signals_blocked w) (widgets_connected w)
    (state_written w) (warnings w) (result w).

Definition set_m_option_list (v : list string) (w : IOWindow) : IOWindow :=
  mkIOWindow (m_reference w) (m_controller w) (m_original_expression w)
    (m_type w) (m_expression_text w) (m_parse_text w) (m_variables_combo w)
    (m_scalar_spinbox w) (m_output_test_timer w) (m_test_button w)
    (m_detect_button w) (input_detect_start_timer w) (m_input_detector w) v
    (current_item w) (signals_blocked w) (widgets_connected w)
    (state_written w) (warnings w) (result w).

Definition set_current_item (v : option string) (w : IOWindow) : IOWindow :=
  mkIOWindow (m_reference w) (m_controller w) (m_original_expression w)
    (m_type w) (m_expression_text w) (m_parse_text w) (m_variables_combo w)
    (m_scalar_spinbox w) (m_output_test_timer w) (m_test_button w)
    (m_detect_button w) (input_detect_start_timer w) (m_input_detector w)
    (m_option_list w) v (signals_blocked w) (widgets_connected w)
    (state_written w) (warnings w) (result w).

Definition set_signals_blocked (v : bool) (w : IOWindow) : IOWindow :=
  mkIOWindow (m_reference w) (m_controller w) (m_original_expression w)
    (m_type w) (m_expression_text w) (m_parse_text w) (m_variables_combo w)
    (m_scalar_spinbox w) (m_output_test_timer w) (m_test_button w)
    (m_detect_button w) (input_detect_start_timer w) (m_input_detector w)
    (m_option_list w) (current_item w) v (widgets_connected w)
    (state_written w) (warnings w) (result w).

Definition set_widgets_connected (v : bool) (w : IOWindow) : IOWindow :=
  mkIOWindow (m_reference w) (m_controller w) (m_original_expression w)
    (m_type w) (m_expression_text w) (m_parse_text w) (m_variables_combo w)
    (m_scalar_spinbox w) (m_output_test_timer w) (m_test_button w)
    (m_detect_button w) (input_detect_start_timer w) (m_input_detector w)
    (m_option_list w) (current_item w) (signals_blocked w) v (state_written
    w) (warnings w) (result w).

Definition set_state_written (v : list ControlState)
    (w : IOWindow) : IOWindow :=
  mkIOWindow (m_reference w) (m_controller w) (m_original_expression w)
    (m_type w) (m_expression_text w) (m_parse_text w) (m_variables_combo w)
    (m_scalar_spinbox w) (m_output_test_timer w) (m_test_button w)
    (m_detect_button w) (input_detect_start_timer w) (m_input_detector w)
    (m_option_list w) (current_item w) (signals_blocked w)
    (widgets_connected w) v (warnings w) (result w).

Definition set_warnings (v : list string) (w : IOWindow) : IOWindow :=
  mkIOWindow (m_reference w) (m_controller w) (m_original_expression w)
    (m_type w) (m_expression_text w) (m_parse_text w) (m_variables_combo w)
    (m_scalar_spinbox w) (m_output_test_timer w) (m_test_button w)
    (m_detect_button w) (input_detect_start_timer w) (m_input_detector w)
    (m_option_list w) (current_item w) (signals_blocked w)
    (widgets_connected w) (state_written w) v (result w).

Definition set_result (v : option DialogCode) (w : IOWindow) : IOWindow :=
  mkIOWindow (m_reference w) (m_controller w) (m_original_expression w)
    (m_type w) (m_expression_text w) (m_parse_text w) (m_variables_combo w)
    (m_scalar_spinbox w) (m_output_test_timer w) (m_test_button w)
    (m_detect_button w) (input_detect_start_timer w) (m_input_detector w)
    (m_option_list w) (current_item w) (signals_blocked w)
    (widgets_connected w) (state_written w) (warnings w) v.

(** The scalar bound of [CreateMainLayout], in percent. *)
Definition scalar_min_max (type : IOType) : Z :=
  match type with Input => 1000 | Output => 100 end.

Definition initial_test_text : string := "Test Output".
Definition initial_detect_text : string := "Detect Input".

(** The members as the constructor's initializer list and
    [CreateMainLayout] leave them, before [ConfigChanged] and
    [ConnectWidgets] run in the constructor. *)
Definition CreateMainLayout (ref : R) (controller : C) (type : IOType)
    : IOWindow :=
  {| m_reference := ref;
     m_controller := controller;
     m_original_expression := GetExpression ref;
     m_type := type;
     m_expression_text := EmptyString;
     m_parse_text := mkLineEdit EmptyString false;
     m_variables_combo :=
       [Item "User Variables"; Separator; Item "Reset Values"; Separator];
     m_scalar_spinbox :=
       mkSpinBox (- scalar_min_max type) (scalar_min_max type) 0;
     m_output_test_timer := false;
     m_test_button := initial_test_text;
     m_detect_button := initial_detect_text;
     input_detect_start_timer := false;
     m_input_detector := None;
     m_option_list := [];
     current_item := None;
     signals_blocked := false;
     widgets_connected := false;
     state_written := [];
     warnings := [];
     result := None |}.

(** [m_reference->State(x)]: the value is recorded as written. *)
Definition State (x : ControlState) (w : IOWindow) : IOWindow :=
  set_state_written (x :: state_written w) w.

(** A signal of the dialog reaches its slots when [ConnectWidgets] has
    run and no [QSignalBlocker] is active on the dialog. *)
Definition delivers (w : IOWindow) : bool :=
  widgets_connected w && negb (signals_blocked w).

(** The slot connected to [TestOutputComplete]. *)
Definition on_TestOutputComplete (w : IOWindow) : IOWindow :=
  State 0%float
    (set_m_test_button initial_test_text
       (set_m_output_test_timer false w)).

Definition emit_TestOutputComplete (w : IOWindow) : IOWindow :=
  if delivers w then on_TestOutputComplete w else w.

(** The slot connected to [DetectInputComplete]. *)
Definition on_DetectInputComplete (w : IOWindow) : IOWindow :=
  set_m_detect_button initial_detect_text
    (set_m_input_detector None
       (set_input_detect_start_timer false w)).

Definition emit_DetectInputComplete (w : IOWindow) : IOWindow :=
  if delivers w then on_DetectInputComplete w else w.

(** The last statement of [UpdateExpression]: the status line for the
    error text and the parse status. *)
Definition parse_text_for (error : option string) (status : ParseStatus)
    (e : InputStateLineEdit) : InputStateLineEdit :=
  match error with
  | Some message =>
      setText message (SetShouldPaintStateIndicator false e)
  | None =>
      if ParseStatus_eqb status EmptyExpression then
        setText EmptyString (SetShouldPaintStateIndicator false e)
      else if negb (ParseStatus_eqb status Successful) then
        setText "Invalid Expression." (SetShouldPaintStateIndicator false e)
      else
        setText EmptyString (SetShouldPaintStateIndicator true e)
  end.

(** [IOWindow::UpdateExpression]. *)
Definition UpdateExpression (new_expression : string) (mode : UpdateMode)
    (w : IOWindow) : IOWindow :=
  let w := emit_TestOutputComplete w in
  let forced := match mode with Force => true | Normal => false end in
  if negb forced && String.eqb new_expression (GetExpression (m_reference w))
  then w
  else
    let '(error, ref) := SetExpression new_expression (m_reference w) in
    let status := GetParseStatus ref in
    let controller := UpdateSingleControlReference ref (m_controller w) in
    let w := set_m_controller controller (set_m_reference ref w) in
    (* keep the first 4 items, then one item for each variable *)
    let items :=
      firstn 4 (m_variables_combo w)
      ++ map (fun v => Item (fst v)) (GetExpressionVariables controller) in
    let w := set_m_variables_combo items w in
    set_m_parse_text (parse_text_for error status (m_parse_text w)) w.

(** The slot of the editor's [textChanged]. *)
Definition on_textChanged (w : IOWindow) : IOWindow :=
  if widgets_connected w
  then UpdateExpression (m_expression_text w) Normal w
  else w.

(** The editor's text is replaced, by the user or by the program. *)
Definition set_expression_text (s : string) (w : IOWindow) : IOWindow :=
  on_textChanged (set_m_expression_text s w).

(** [IOWindow::OnRangeChanged]. *)
Definition OnRangeChanged (value : Z) (w : IOWindow) : IOWindow :=
  let w :=
    set_m_reference
      (set_range (Lexer.float_of_Z value / 100)%float (m_reference w)) w in
  emit_TestOutputComplete w.

(** [m_scalar_spinbox->setValue(v)]: the bounded value is stored and, when
    it changed, [valueChanged] runs [OnRangeChanged]. *)
Definition spinbox_setValue (v : Z) (w : IOWindow) : IOWindow :=
  let box := m_scalar_spinbox w in
  let v' := bound_value box v in
  if v' =? spin_value box then w
  else
    let w := set_m_scalar_spinbox
               (mkSpinBox (minimum box) (maximum box) v') w in
    if widgets_connected w then OnRangeChanged v' w else w.

(** The slot of the dialog's [finished]: revert to the original
    expression. *)
Definition on_finished (w : IOWindow) : IOWindow :=
  if delivers w then UpdateExpression (m_original_expression w) Normal w
  else w.

(** [QDialog::accept] and [QDialog::reject]. *)
Definition done (code : DialogCode) (w : IOWindow) : IOWindow :=
  on_finished (set_result (Some code) w).

Inductive Button := ClearButton | OkButton.

(** [IOWindow::OnDialogButtonPressed]. *)
Definition OnDialogButtonPressed (button : Button) (w : IOWindow) : IOWindow :=
  match button with
  | ClearButton => set_expression_text EmptyString w
  | OkButton =>
      let w := UpdateExpression (m_expression_text w) Normal w in
      match GetParseStatus (m_reference w) with
      | SyntaxError =>
          set_warnings
            (warnings w ++ ["The expression contains a syntax error."]) w
      | _ =>
          let w :=
            set_m_original_expression (GetExpression (m_reference w)) w in
          done Accepted w
      end
  end.

(** [IOWindow::ConfigChanged]; [controls] are the names of the controls
    of the device found for the option list. The editor is given the
    reference's expression as a [QString], and its [textChanged] slot
    reads the text back from it. *)
Definition ConfigChanged (controls : list string) (w : IOWindow) : IOWindow :=
  let w := emit_DetectInputComplete w in
  let w := emit_TestOutputComplete w in
  let blocked := signals_blocked w in
  let w := set_signals_blocked true w in
  let w := UpdateExpression (GetExpression (m_reference w)) Force w in
  let w :=
    set_expression_text (plain_text (GetExpression (m_reference w))) w in
  let w :=
    spinbox_setValue (int_of_double (range (m_reference w) * 100)%float) w in
  let w := set_current_item None (set_m_option_list controls w) in
  set_signals_blocked blocked w.

(** [IOWindow::ConnectWidgets]. *)
Definition ConnectWidgets (w : IOWindow) : IOWindow :=
  set_widgets_connected true w.

(** The constructor. *)
Definition construct (ref : R) (controller : C) (type : IOType)
    (controls : list string) : IOWindow :=
  ConnectWidgets
    (ConfigChanged controls (CreateMainLayout ref controller type)).

(** The slot of the test button's [clicked]. *)
Definition on_test_clicked (w : IOWindow) : IOWindow :=
  if m_output_test_timer w then emit_TestOutputComplete w
  else
    State 1%float
      (set_m_output_test_timer true (set_m_test_button "[ ... ]" w)).

(** The slot of the output test timer's [timeout]; a single-shot timer
    is no longer active when it fires. *)
Definition on_test_timeout (w : IOWindow) : IOWindow :=
  if m_output_test_timer w
  then emit_TestOutputComplete (set_m_output_test_timer false w)
  else w.

(** The slots of the detect button and of the timer it starts. *)
Definition on_detect_clicked (w : IOWindow) : IOWindow :=
  set_input_detect_start_timer true (set_m_detect_button "[ ... ]" w).

Definition on_detect_start_timeout (now : Z)
    (controls : list (string * ControlState)) (w : IOWindow) : IOWindow :=
  if input_detect_start_timer w then
    set_m_input_detector
      (Some (InputDetector.Start now controls InputDetector.create))
      (set_m_detect_button "[ Press Now ]"
         (set_input_detect_start_timer false w))
  else w.

(** [findItems(name, Qt::MatchFixedString)], first match. *)
Definition findItems (name : string) (rows : list string) : list string :=
  filter (fun row => MatchFixedString row name) rows.

(** [IOWindow::Update]; [now] and [sample] are the clock and the device
    state the detector reads at this tick. *)
Definition Update (now : Z) (sample : list (string * ControlState))
    (w : IOWindow) : IOWindow :=
  match m_input_detector w with
  | None => w
  | Some detector =>
      if InputDetector.IsComplete detector then
        let '(results, detector) := InputDetector.TakeResults detector in
        let w := set_m_input_detector (Some detector) w in
        let w := emit_DetectInputComplete w in
        match results with
        | [] => w
        | front :: _ =>
            match findItems (InputDetector.input front) (m_option_list w) with
            | [] => w
            | item :: _ => set_current_item (Some item) w
            end
        end
      else
        set_m_input_detector
          (Some (InputDetector.Update threshold INPUT_DETECT_TIME now sample
                   detector)) w
  end.

(** What can happen to an open dialog. *)
Inductive Event :=
| TextEdited (s : string)
| ButtonPressed (button : Button)
| DialogClosed
| RangeEdited (v : Z)
| TestClicked
| TestTimeout
| DetectClicked
| DetectStartTimeout (now : Z) (controls : list (string * ControlState))
| WindowUpdate (now : Z) (sample : list (string * ControlState))
| ConfigChange (controls : list string)
| ResetVariables.

Definition handle (e : Event) (w : IOWindow) : IOWindow :=
  match e with
  | TextEdited s => set_expression_text s w
  | ButtonPressed button => OnDialogButtonPressed button w
  | DialogClosed => done Rejected w
  | RangeEdited v => spinbox_setValue v w
  | TestClicked => on_test_clicked w
  | TestTimeout => on_test_timeout w
  | DetectClicked => on_detect_clicked w
  | DetectStartTimeout now controls => on_detect_start_timeout now controls w
  | WindowUpdate now sample => Update now sample w
  | ConfigChange controls => ConfigChanged controls w
  | ResetVariables =>
      set_m_controller (ResetExpressionVariables (m_controller w)) w
  end.

Definition run (events : list Event) (w : IOWindow) : IOWindow :=
  fold_left (fun w e => handle e w) events w.

End Dialog.

(** What a slot of a box's [activated] does besides making the first
    item current again: nothing, the reset of the expression variables,
    or the insertion of a text at the editor's cursor. *)
Inductive Activated :=
| NoAction
| ResetValues
| InsertPlainText (s : string).

(** [itemText(index)]: empty for a separator and outside the box. *)
Definition itemText (items : list ComboItem) (index : Z) : string :=
  if index <? 0 then EmptyString
  else
    match nth_error items (Z.to_nat index) with
    | Some (Item s) => s
    | _ => EmptyString
    end.

(** The slot of [m_variables_combo]'s [activated] in [ConnectWidgets];
    the activated item is the current one. *)
Definition variables_combo_activated (index : Z) (items : list ComboItem)
    : Activated :=
  if index =? 0 then NoAction
  else if index =? 2 then ResetValues
  else InsertPlainText ("$" ++ itemText items index)%string.

(* ===================================================================== *)
(** ** The devices box and the option list                                *)
(* ===================================================================== *)

(** [QComboBox], with a text and a user data string for each item.
    [currentIndex] is -1 when no item is current. *)
Module QComboBox.

Record t := mk {
  items : list (string * string);
  currentIndex : Z
}.


Definition clear (c : t) : t := mk [] (-1).






End QComboBox.






(** A control of a device, as the option list reads it. *)
Module Device.

Record Control := mkControl {
  GetName : string;
  IsHidden : bool
}.

Record t := mk {
  Inputs : list Control;
  Outputs : list Control
}.

End Device.

(** [QTableWidget], one column: the text of each row's item, if one was
    set, and whether the row is hidden. *)
Module QTableWidget.







End QTableWidget.





(* ===================================================================== *)
(** * Properties                                                          *)
(* ===================================================================== *)

(** ** Text normalization *)

Lemma length_string_of_list_ascii (l : list ascii) :
  String.length (string_of_list_ascii l) = List.length l.
Proof. induction l as [|c l IH]; simpl; congruence. Qed.



(** One byte for every QChar. *)
Lemma toLatin1_length (s : QString) :
  String.length (toLatin1 s) = List.length s.
Proof.
  unfold toLatin1. now rewrite length_string_of_list_ascii, length_map.
Qed.



(** A Latin-1 text survives the normalization unchanged. *)
Lemma toLatin1_fromLatin1 (s : string) : toLatin1 (fromLatin1 s) = s.
Proof.
  unfold toLatin1, fromLatin1. rewrite map_map.
  rewrite <- (string_of_list_ascii_of_string s) at 2. f_equal.
  induction (list_ascii_of_string s) as [|c l IH]; simpl; [reflexivity|].
  rewrite IH. f_equal. unfold latin1_of_QChar.
  pose proof (N_ascii_bounded c) as Hc.
  destruct (N.leb_spec (N_of_ascii c) 255) as [_|Hgt]; [|lia].
  apply ascii_N_embedding.
Qed.

(** ** The lexer *)

Module LexerProperties.
Import Lexer.

Lemma span_length (p : ascii -> bool) (l : list ascii) :
  (List.length (fst (span p l)) + List.length (snd (span p l)))%nat
  = List.length l.
Proof.
  induction l as [|c l IH]; simpl; [reflexivity|].
  destruct (p c); [|reflexivity].
  destruct (span p l) as [a b]. simpl in *. lia.
Qed.

Lemma span_rest (p : ascii -> bool) (l : list ascii) a b :
  span p l = (a, b) -> (List.length b <= List.length l)%nat.
Proof.
  intros E. pose proof (span_length p l) as H. rewrite E in H. simpl in H. lia.
Qed.

Lemma delimited_rest (d : ascii) (l : list ascii) a b :
  delimited d l = Some (a, b) -> (List.length b < List.length l)%nat.
Proof.
  revert a b. induction l as [|c l IH]; intros a b; simpl; [discriminate|].
  destruct (Ascii.eqb c d).
  - intros [= <- <-]. lia.
  - destruct (delimited d l) as [[a' b']|]; [|discriminate].
    intros [= <- <-]. specialize (IH a' b' eq_refl). lia.
Qed.

Lemma scan_real_rest (l : list ascii) x rest :
  scan_real l = (x, rest) -> (List.length rest <= List.length l)%nat.
Proof.
  unfold scan_real. destruct (span is_digit l) as [i r] eqn:E.
  apply span_rest in E.
  destruct r as [|c r']; [intros [= <- <-]; exact E|].
  destruct (Ascii.eqb_spec c "."%char) as [->|Hc].
  - destruct (span is_digit r') as [f r''] eqn:E'. apply span_rest in E'.
    intros [= <- <-]. simpl in E. lia.
  - destruct c as [[] [] [] [] [] [] [] []];
      try (intros [= <- <-]; exact E); contradiction.
Qed.

Lemma scan_real_digit (c : ascii) (l : list ascii) x rest :
  is_digit c = true ->
  scan_real (c :: l) = (x, rest) -> (List.length rest <= List.length l)%nat.
Proof.
  intros Hc. unfold scan_real. simpl span. rewrite Hc.
  destruct (span is_digit l) as [i r] eqn:E. apply span_rest in E.
  destruct r as [|d r']; [intros [= <- <-]; exact E|].
  destruct (Ascii.eqb_spec d "."%char) as [->|Hd].
  - destruct (span is_digit r') as [f r''] eqn:E'. apply span_rest in E'.
    intros [= <- <-]. simpl in E. lia.
  - destruct d as [[] [] [] [] [] [] [] []];
      try (intros [= <- <-]; exact E); contradiction.
Qed.

(** A token starts at the cursor, is as long as the text it consumes,
    and consumes at least the character under the cursor. *)
Lemma NextToken_span (pos : Z) (c : ascii) (rest : list ascii) tok rest' :
  NextToken pos c rest = (tok, rest') ->
  string_position tok = pos
  /\ string_length tok = len (c :: rest) - len rest'
  /\ (List.length rest' <= List.length rest)%nat.
Proof.
  assert (Hsingle : forall t,
            (mkToken t pos 1 NoValue, rest) = (tok, rest') ->
            string_position tok = pos
            /\ string_length tok = len (c :: rest) - len rest'
            /\ (List.length rest' <= List.length rest)%nat).
  { intros t [= <- <-]. unfold len. simpl List.length.
    repeat split; simpl; lia. }
  assert (Hupto : forall t v r,
            (List.length r <= List.length rest)%nat ->
            (mkToken t pos (len (c :: rest) - len r) v, r) = (tok, rest') ->
            string_position tok = pos
            /\ string_length tok = len (c :: rest) - len rest'
            /\ (List.length rest' <= List.length rest)%nat).
  { intros t v r Hr [= <- <-]. repeat split. exact Hr. }
  unfold NextToken.
  destruct c as [[] [] [] [] [] [] [] []]; cbv beta iota zeta;
    try (apply Hsingle);
    repeat match goal with
    | |- context [span ?p ?l] =>
        let E := fresh "E" in
        destruct (span p l) as [? ?] eqn:E; apply span_rest in E
    | |- context [scan_real (?c :: ?l)] =>
        let E := fresh "E" in
        destruct (scan_real (c :: l)) as [? ?] eqn:E;
        apply scan_real_digit in E; [|reflexivity]
    | |- context [delimited ?d ?l] =>
        let E := fresh "E" in
        destruct (delimited d l) as [[? ?]|] eqn:E;
        [apply delimited_rest in E|]
    | |- context [match rest with _ => _ end] => destruct rest as [|? ?]
    | |- context [match ?a with Ascii _ _ _ _ _ _ _ _ => _ end] =>
        destruct a as [[] [] [] [] [] [] [] []]
    end;
    simpl in *;
    try (apply Hsingle);
    try (apply Hupto; simpl in *; lia).
Qed.

(** The tokens of a scan from [pos] lie, in order, between [pos] and the
    end of the text. *)
Definition within (lo hi : Z) (tok : Token) : Prop :=
  lo <= string_position tok
  /\ 0 <= string_length tok
  /\ string_position tok + string_length tok <= hi.

Lemma tokenize_loop_within (fuel : nat) (pos : Z) (l : list ascii) toks st :
  tokenize_loop fuel pos l = Some (toks, st) ->
  Forall (within pos (pos + len l)) toks.
Proof.
  revert pos l toks st.
  induction fuel as [|fuel IH]; intros pos l toks st; simpl; [discriminate|].
  destruct l as [|c rest].
  - intros [= <- <-]. constructor; [|constructor].
    unfold within, len. simpl. lia.
  - assert (Hweaken : forall lo lo' hi hi' ts,
              lo' <= lo -> hi <= hi' ->
              Forall (within lo hi) ts -> Forall (within lo' hi') ts).
    { intros lo lo' hi hi' ts Hlo Hhi HF.
      apply (List.Forall_impl (P := within lo hi)); [|exact HF].
      unfold within. intros t. lia. }
    destruct (is_space c).
    + intros H. apply IH in H. revert H. apply Hweaken.
      * lia.
      * unfold len. simpl List.length. lia.
    + destruct (NextToken pos c rest) as [tok rest'] eqn:E.
      apply NextToken_span in E. destruct E as (Hp & Hl & Hr).
      assert (Htok : within pos (pos + len (c :: rest)) tok).
      { unfold within. rewrite Hp, Hl. unfold len in *.
        simpl List.length in *. lia. }
      assert (Hone : forall ts s,
                Some ([tok], TokenizeError) = Some (ts, s) ->
                Forall (within pos (pos + len (c :: rest))) ts).
      { intros ts s [= <- <-]. constructor; [exact Htok | constructor]. }
      assert (Hmore : forall ts s,
                match tokenize_loop fuel (pos + string_length tok) rest' with
                | Some (toks0, st0) => Some (tok :: toks0, st0)
                | None => None
                end = Some (ts, s) ->
                Forall (within pos (pos + len (c :: rest))) ts).
      { intros ts s.
        destruct (tokenize_loop fuel (pos + string_length tok) rest')
          as [[toks0 st0]|] eqn:E0; [|discriminate].
        intros [= <- <-]. constructor; [exact Htok|].
        apply IH in E0. revert E0. apply Hweaken.
        - destruct Htok as (_ & H0 & _). lia.
        - rewrite Hl. lia. }
      destruct (type tok); first [apply Hone | apply Hmore].
Qed.

(** The scan never runs out of fuel. *)
Lemma tokenize_loop_fuel (fuel : nat) (pos : Z) (l : list ascii) :
  (List.length l < fuel)%nat -> tokenize_loop fuel pos l <> None.
Proof.
  revert pos l. induction fuel as [|fuel IH]; intros pos l Hf; [lia|].
  simpl. destruct l as [|c rest]; [discriminate|].
  simpl in Hf. destruct (is_space c); [apply IH; lia|].
  destruct (NextToken pos c rest) as [tok rest'] eqn:E.
  apply NextToken_span in E. destruct E as (_ & _ & Hr).
  assert (Hmore : match tokenize_loop fuel (pos + string_length tok) rest' with
                  | Some (toks0, st0) => Some (tok :: toks0, st0)
                  | None => None
                  end <> None).
  { specialize (IH (pos + string_length tok) rest').
    destruct (tokenize_loop fuel (pos + string_length tok) rest')
      as [[toks0 st0]|]; [discriminate|].
    exfalso. apply IH; [lia | reflexivity]. }
  destruct (type tok); first [discriminate | exact Hmore].
Qed.

(** The span of a token never exceeds the text. *)
Lemma Tokenize_within (text : string) :
  Forall (within 0 (Z.of_nat (String.length text))) (fst (Tokenize text)).
Proof.
  unfold Tokenize.
  destruct (tokenize_loop _ 0 (list_ascii_of_string text))
    as [[toks st]|] eqn:E; [|constructor].
  apply tokenize_loop_within in E. simpl in *.
  replace (Z.of_nat (String.length text))
    with (len (list_ascii_of_string text)); [exact E|].
  unfold len. f_equal.
  rewrite <- (string_of_list_ascii_of_string text) at 2.
  now rewrite length_string_of_list_ascii.
Qed.

(** The status is [Successful] or [TokenizeError]; a failed scan ends
    with the [TOK_INVALID] token of the unrecognized character. *)
Lemma Tokenize_total (text : string) :
  tokenize_loop (S (String.length text)) 0 (list_ascii_of_string text)
  = Some (Tokenize text).
Proof.
  unfold Tokenize.
  replace (List.length (list_ascii_of_string text)) with (String.length text).
  - destruct (tokenize_loop _ 0 (list_ascii_of_string text)) eqn:E;
      [reflexivity|].
    exfalso. revert E. apply tokenize_loop_fuel.
    rewrite <- (string_of_list_ascii_of_string text) at 2.
    rewrite length_string_of_list_ascii. lia.
  - rewrite <- (string_of_list_ascii_of_string text) at 1.
    now rewrite length_string_of_list_ascii.
Qed.

End LexerProperties.

(** ** The parser *)

Module ParserProperties.
Import Parser.

Abbreviation size := (@List.length Token).

Lemma Peek_nonempty (toks : list Token) (t : TokenType) :
  TokenType_eqb (type (Peek toks)) t = true ->
  t <> TOK_END_OF_STRING ->
  (size (tl toks) < size toks)%nat.
Proof.
  destruct toks as [|tok rest]; simpl; [|lia].
  destruct t; simpl; try discriminate. congruence.
Qed.

Lemma expect_rest (t : TokenType) (toks : list Token) u r :
  expect t toks = Ok u r -> (size r < size toks)%nat.
Proof.
  destruct toks as [|tok rest]; simpl; [discriminate|].
  destruct (TokenType_eqb _ _); [|discriminate].
  intros [= <- <-]. lia.
Qed.

Lemma expect_fuel (t : TokenType) (toks : list Token) :
  expect t toks <> OutOfFuel.
Proof.
  destruct toks as [|tok rest]; simpl; [discriminate|].
  destruct (TokenType_eqb _ _); discriminate.
Qed.

(** What a successful step leaves is shorter than what it was given
    (no longer, for the two loops). *)
Definition consumes (fuel : nat) : Prop :=
  (forall toks e r, ParseAtom fuel toks = Ok e r -> (size r < size toks)%nat)
  /\ (forall toks a r,
        ParseArguments fuel toks = Ok a r -> (size r < size toks)%nat)
  /\ (forall p lhs toks e r,
        ParseBinaryLoop fuel p lhs toks = Ok e r -> (size r <= size toks)%nat)
  /\ (forall p toks e r,
        ParseBinary fuel p toks = Ok e r -> (size r < size toks)%nat)
  /\ (forall toks e r,
        ParseTernary fuel toks = Ok e r -> (size r < size toks)%nat)
  /\ (forall lhs toks e r,
        ParseCommaLoop fuel lhs toks = Ok e r -> (size r <= size toks)%nat)
  /\ (forall toks e r,
        ParseToplevel fuel toks = Ok e r -> (size r < size toks)%nat).

Lemma parser_consumes (fuel : nat) : consumes fuel.
Proof.
  induction fuel as [|fuel (IA & IG & IL & IB & IT & IC & IP)].
  { repeat split; intros; discriminate. }
  repeat split.
  - (* ParseAtom *)
    intros toks e r. cbn [ParseAtom].
    destruct toks as [|tok rest]; [discriminate|].
    destruct (type tok); try discriminate;
      try (intros [= <- <-]; simpl; lia).
    + (* parenthesis *)
      destruct (ParseToplevel fuel rest) as [e0 r0| |] eqn:E;
        cbn [bind]; try discriminate. apply IP in E.
      destruct (expect TOK_RPAREN r0) as [u r1| |] eqn:E';
        cbn [bind]; try discriminate. apply expect_rest in E'.
      intros [= <- <-]. simpl. lia.
    + (* bareword *)
      destruct rest as [|paren rest']; [intros [= <- <-]; simpl; lia|].
      destruct (TokenType_eqb (type paren) TOK_LPAREN);
        [|intros [= <- <-]; simpl; lia].
      destruct (ParseArguments fuel rest') as [a0 r0| |] eqn:E;
        cbn [bind]; try discriminate. apply IG in E.
      intros [= <- <-]. simpl. lia.
    + (* not *)
      destruct (ParseAtom fuel rest) as [e0 r0| |] eqn:E;
        cbn [bind]; try discriminate. apply IA in E.
      intros [= <- <-]. simpl. lia.
    + (* minus *)
      destruct (ParseAtom fuel rest) as [e0 r0| |] eqn:E;
        cbn [bind]; try discriminate. apply IA in E.
      intros [= <- <-]. simpl. lia.
  - (* ParseArguments *)
    intros toks a r. cbn [ParseArguments].
    destruct (TokenType_eqb (type (Peek toks)) TOK_RPAREN) eqn:Hp.
    { intros [= <- <-]. apply (Peek_nonempty _ _ Hp). discriminate. }
    destruct (ParseTernary fuel toks) as [e0 r0| |] eqn:E;
      cbn [bind]; try discriminate. apply IT in E.
    destruct (type (Peek r0)) eqn:Hr0; try discriminate.
    + (* closing parenthesis *)
      intros [= <- <-]. destruct r0; simpl in *; lia.
    + (* comma *)
      destruct (TokenType_eqb (type (Peek (tl r0))) TOK_RPAREN);
        [discriminate|].
      destruct (ParseArguments fuel (tl r0)) as [a1 r1| |] eqn:E1;
        cbn [bind]; try discriminate. apply IG in E1.
      intros [= <- <-]. destruct r0; simpl in *; lia.
  - (* ParseBinaryLoop *)
    intros p lhs toks e r. cbn [ParseBinaryLoop].
    destruct (binary_operator (type (Peek toks))) as [[op level]|];
      [|intros [= <- <-]; lia].
    destruct (level <=? p)%nat; [|intros [= <- <-]; lia].
    destruct (ParseBinary fuel (level - 1) (tl toks)) as [e0 r0| |] eqn:E;
      cbn [bind]; try discriminate. apply IB in E.
    intros H. apply IL in H. destruct toks; simpl in *; lia.
  - (* ParseBinary *)
    intros p toks e r. cbn [ParseBinary].
    destruct (ParseAtom fuel toks) as [e0 r0| |] eqn:E;
      cbn [bind]; try discriminate. apply IA in E.
    intros H. apply IL in H. lia.
  - (* ParseTernary *)
    intros toks e r. cbn [ParseTernary].
    destruct (ParseBinary fuel lowest_binary toks) as [e0 r0| |] eqn:E;
      cbn [bind]; try discriminate. apply IB in E.
    destruct (TokenType_eqb (type (Peek r0)) TOK_QUESTION);
      [|intros [= <- <-]; lia].
    destruct (ParseTernary fuel (tl r0)) as [e1 r1| |] eqn:E1;
      cbn [bind]; try discriminate. apply IT in E1.
    destruct (expect TOK_COLON r1) as [u r2| |] eqn:E2;
      cbn [bind]; try discriminate. apply expect_rest in E2.
    destruct (ParseTernary fuel r2) as [e3 r3| |] eqn:E3;
      cbn [bind]; try discriminate. apply IT in E3.
    intros [= <- <-]. destruct r0; simpl in *; lia.
  - (* ParseCommaLoop *)
    intros lhs toks e r. cbn [ParseCommaLoop].
    destruct (TokenType_eqb (type (Peek toks)) TOK_COMMA);
      [|intros [= <- <-]; lia].
    destruct (ParseTernary fuel (tl toks)) as [e0 r0| |] eqn:E;
      cbn [bind]; try discriminate. apply IT in E.
    intros H. apply IC in H. destruct toks; simpl in *; lia.
  - (* ParseToplevel *)
    intros toks e r. cbn [ParseToplevel].
    destruct (ParseTernary fuel toks) as [e0 r0| |] eqn:E;
      cbn [bind]; try discriminate. apply IT in E.
    intros H. apply IC in H. lia.
Qed.

(** Fuel with which a step cannot run out, by the number of tokens. *)
Definition enough (fuel : nat) : Prop :=
  (forall toks, (4 * size toks + 1 <= fuel)%nat ->
     ParseAtom fuel toks <> OutOfFuel)
  /\ (forall toks, (4 * size toks + 4 <= fuel)%nat ->
        ParseArguments fuel toks <> OutOfFuel)
  /\ (forall p lhs toks, (4 * size toks + 1 <= fuel)%nat ->
        ParseBinaryLoop fuel p lhs toks <> OutOfFuel)
  /\ (forall p toks, (4 * size toks + 2 <= fuel)%nat ->
        ParseBinary fuel p toks <> OutOfFuel)
  /\ (forall toks, (4 * size toks + 3 <= fuel)%nat ->
        ParseTernary fuel toks <> OutOfFuel)
  /\ (forall lhs toks, (4 * size toks + 1 <= fuel)%nat ->
        ParseCommaLoop fuel lhs toks <> OutOfFuel)
  /\ (forall toks, (4 * size toks + 4 <= fuel)%nat ->
        ParseToplevel fuel toks <> OutOfFuel).

(** A step that ran out of fuel although it had enough. *)
Ltac impossible E IH :=
  exfalso; revert E; apply IH; simpl in *; lia.

Lemma parser_fuel (fuel : nat) : enough fuel.
Proof.
  induction fuel as [|fuel (IA & IG & IL & IB & IT & IC & IP)].
  { repeat split; intros; lia. }
  destruct (parser_consumes fuel) as (CA & CG & CL & CB & CT & CC & CP).
  repeat split.
  - (* ParseAtom *)
    intros toks Hf. cbn [ParseAtom].
    destruct toks as [|tok rest]; [discriminate|].
    simpl in Hf.
    destruct (type tok); try discriminate.
    + destruct (ParseToplevel fuel rest) as [e0 r0| |] eqn:E;
        cbn [bind]; [|discriminate|impossible E IP].
      destruct (expect TOK_RPAREN r0) as [u r1| |] eqn:E';
        cbn [bind]; try discriminate.
      exfalso. revert E'. apply expect_fuel.
    + destruct rest as [|paren rest']; [discriminate|].
      destruct (TokenType_eqb (type paren) TOK_LPAREN); [|discriminate].
      destruct (ParseArguments fuel rest') as [a0 r0| |] eqn:E;
        cbn [bind]; [discriminate|discriminate|impossible E IG].
    + destruct (ParseAtom fuel rest) as [e0 r0| |] eqn:E;
        cbn [bind]; [discriminate|discriminate|impossible E IA].
    + destruct (ParseAtom fuel rest) as [e0 r0| |] eqn:E;
        cbn [bind]; [discriminate|discriminate|impossible E IA].
  - (* ParseArguments *)
    intros toks Hf. cbn [ParseArguments].
    destruct (TokenType_eqb (type (Peek toks)) TOK_RPAREN); [discriminate|].
    destruct (ParseTernary fuel toks) as [e0 r0| |] eqn:E;
      cbn [bind]; [|discriminate|impossible E IT].
    apply CT in E.
    destruct (type (Peek r0)); try discriminate.
    destruct (TokenType_eqb (type (Peek (tl r0))) TOK_RPAREN);
      [discriminate|].
    destruct (ParseArguments fuel (tl r0)) as [a1 r1| |] eqn:E1;
      cbn [bind]; [discriminate|discriminate|].
    exfalso. revert E1. apply IG. destruct r0; simpl in *; lia.
  - (* ParseBinaryLoop *)
    intros p lhs toks Hf. cbn [ParseBinaryLoop].
    destruct (binary_operator (type (Peek toks))) as [[op level]|] eqn:Hop;
      [|discriminate].
    destruct (level <=? p)%nat; [|discriminate].
    assert (Hne : (size (tl toks) < size toks)%nat).
    { destruct toks; simpl in *; [discriminate | lia]. }
    destruct (ParseBinary fuel (level - 1) (tl toks)) as [e0 r0| |] eqn:E;
      cbn [bind]; [|discriminate|impossible E IB].
    apply CB in E. apply IL. lia.
  - (* ParseBinary *)
    intros p toks Hf. cbn [ParseBinary].
    destruct (ParseAtom fuel toks) as [e0 r0| |] eqn:E;
      cbn [bind]; [|discriminate|impossible E IA].
    apply CA in E. apply IL. lia.
  - (* ParseTernary *)
    intros toks Hf. cbn [ParseTernary].
    destruct (ParseBinary fuel lowest_binary toks) as [e0 r0| |] eqn:E;
      cbn [bind]; [|discriminate|impossible E IB].
    apply CB in E.
    destruct (TokenType_eqb (type (Peek r0)) TOK_QUESTION) eqn:Hq;
      [|discriminate].
    assert (Hne : (size (tl r0) < size r0)%nat)
      by (apply (Peek_nonempty _ _ Hq); discriminate).
    destruct (ParseTernary fuel (tl r0)) as [e1 r1| |] eqn:E1;
      cbn [bind]; [|discriminate|impossible E1 IT].
    apply CT in E1.
    destruct (expect TOK_COLON r1) as [u r2| |] eqn:E2; cbn [bind];
      [|discriminate|exfalso; revert E2; apply expect_fuel].
    apply expect_rest in E2.
    destruct (ParseTernary fuel r2) as [e3 r3| |] eqn:E3;
      cbn [bind]; [discriminate|discriminate|impossible E3 IT].
  - (* ParseCommaLoop *)
    intros lhs toks Hf. cbn [ParseCommaLoop].
    destruct (TokenType_eqb (type (Peek toks)) TOK_COMMA) eqn:Hc;
      [|discriminate].
    assert (Hne : (size (tl toks) < size toks)%nat)
      by (apply (Peek_nonempty _ _ Hc); discriminate).
    destruct (ParseTernary fuel (tl toks)) as [e0 r0| |] eqn:E;
      cbn [bind]; [|discriminate|impossible E IT].
    apply CT in E. apply IC. lia.
  - (* ParseToplevel *)
    intros toks Hf. cbn [ParseToplevel].
    destruct (ParseTernary fuel toks) as [e0 r0| |] eqn:E;
      cbn [bind]; [|discriminate|impossible E IT].
    apply CT in E. apply IC. lia.
Qed.

(** A result other than the successful one carries a token. *)
Lemma ParseTokens_token (tokens : list Token) :
  status (ParseTokens tokens) <> Successful ->
  token (ParseTokens tokens) <> None.
Proof.
  unfold ParseTokens.
  destruct (TokenType_eqb _ TOK_END_OF_STRING); [discriminate|].
  destruct (ParseToplevel _ _) as [e r|tok|]; try discriminate.
  destruct (TokenType_eqb _ TOK_END_OF_STRING); [|discriminate].
  intros H. now contradiction H.
Qed.

(** [ParseTokens] gives the parser enough fuel: its answer is never the
    one for an expression too deep. *)
Lemma ParseTokens_fuel (toks : list Token) :
  ParseToplevel (fuel_for (size toks)) toks <> OutOfFuel.
Proof. apply parser_fuel. unfold fuel_for. lia. Qed.

End ParserProperties.

(** ** The highlighter *)

Lemma set_type_fields (t : TokenType) (tok : Token) :
  type (set_type t tok) = t
  /\ string_position (set_type t tok) = string_position tok
  /\ string_length (set_type t tok) = string_length tok
  /\ value (set_type t tok) = value tok.
Proof. repeat split. Qed.

Lemma ParseStatus_eqb_eq (a b : ParseStatus) :
  ParseStatus_eqb a b = true <-> a = b.
Proof. destruct a, b; simpl; split; congruence. Qed.

Lemma ParseStatus_eqb_neq (a b : ParseStatus) :
  ParseStatus_eqb a b = false <-> a <> b.
Proof. destruct a, b; simpl; split; congruence. Qed.

Section HighlighterProperties.

Variable Tokenize : string -> list Token * ParseStatus.
Variable ParseTokens : list Token -> ParseResult.
Variable IsThemeDark : bool.

Local Abbreviation tokens_of := (highlight_tokens Tokenize ParseTokens).
Local Abbreviation formats_of := (Highlight Tokenize ParseTokens IsThemeDark).

(** When the lexer fails, the parser is not run and nothing is added. *)
Lemma highlight_tokens_tokenize_failure text tokens st :
  Tokenize (toLatin1 text) = (tokens, st) -> st <> Successful ->
  tokens_of text = Some tokens.
Proof.
  intros HT Hst. unfold highlight_tokens. rewrite HT.
  destruct st; try reflexivity. congruence.
Qed.

(** A token typed [TOK_INVALID] is painted with the invalid format. *)
Lemma invalid_token_format tok :
  get_token_char_format IsThemeDark (set_type TOK_INVALID tok)
  = Some (GetInvalidCharFormat IsThemeDark).
Proof. reflexivity. Qed.

(** The token vector of [Highlight]. When the lexer succeeds: if the
    parse succeeds, the tokens painted
    are the lexer's; if the parse does not succeed, they are the lexer's
    followed by exactly one more token, the parser's token retyped
    [TOK_INVALID] with its position, length and payload unchanged. The
    parser has seen the lexer's tokens only, and the extended vector goes
    to the block formats only, where the added token gets the invalid
    format. *)
Theorem highlight_marks_parse_failure (document : QTextDocument)
    (tokens : list Token) :
  Tokenize (toLatin1 (toPlainText document)) = (tokens, Successful) ->
  (status (ParseTokens tokens) = Successful ->
     tokens_of (toPlainText document) = Some tokens
     /\ formats_of document
        = Some (map (set_block_formats IsThemeDark tokens) (blocks document)))
  /\
  (forall tok,
     status (ParseTokens tokens) <> Successful ->
     token (ParseTokens tokens) = Some tok ->
     exists invalid,
       tokens_of (toPlainText document) = Some (tokens ++ [invalid])
       /\ List.length (tokens ++ [invalid]) = S (List.length tokens)
       /\ type invalid = TOK_INVALID
       /\ string_position invalid = string_position tok
       /\ string_length invalid = string_length tok
       /\ value invalid = value tok
       /\ get_token_char_format IsThemeDark invalid
          = Some (GetInvalidCharFormat IsThemeDark)
       /\ formats_of document
          = Some (map (set_block_formats IsThemeDark (tokens ++ [invalid]))
                    (blocks document))).
Proof.
  intros HT. split.
  - intros Hok.
    assert (E : tokens_of (toPlainText document) = Some tokens).
    { unfold highlight_tokens. rewrite HT, Hok. reflexivity. }
    split; [exact E|]. unfold Highlight. now rewrite E.
  - intros tok Hfail Htok. exists (set_type TOK_INVALID tok).
    assert (E : tokens_of (toPlainText document)
                = Some (tokens ++ [set_type TOK_INVALID tok])).
    { unfold highlight_tokens. rewrite HT, Htok.
      destruct (status (ParseTokens tokens)); [congruence | | |];
        reflexivity. }
    split; [exact E|].
    split; [rewrite length_app; simpl; lia|].
    repeat (split; [reflexivity|]).
    unfold Highlight. now rewrite E.
Qed.


(** The range a token is painted with in a block that holds its start. *)
Definition range_of (f : QTextCharFormat) (block_position : Z) (tok : Token)
    : FormatRange :=
  {| QTextLayout.start := to_int (string_position tok) - block_position;
     QTextLayout.length := to_int (string_length tok);
     QTextLayout.format := f |}.

(** A token with a format, alone in a block that holds its start. *)
Lemma block_format_ranges_single block_position block_length tok f :
  get_token_char_format IsThemeDark tok = Some f ->
  0 <= to_int (string_position tok) - block_position < block_length ->
  0 < to_int (string_length tok) ->
  block_format_ranges IsThemeDark block_position block_length [tok]
  = [range_of f block_position tok].
Proof.
  intros Hf Hs Hl. cbn [block_format_ranges].
  destruct (Z.ltb_spec (to_int (string_position tok) - block_position) 0);
    [lia|].
  destruct (Z.leb_spec (to_int (string_length tok)) 0); [lia|].
  assert (Hgo : (to_int (string_position tok) - block_position
                 >=? block_length) = false)
    by (rewrite Z.geb_leb; apply Z.leb_gt; lia).
  rewrite Hgo, Hf. reflexivity.
Qed.


(** *** The block loop *)

(** No token of the list makes the loop leave the block early. *)
Definition starts_before (block_position block_length : Z) (tok : Token)
    : Prop :=
  to_int (string_position tok) - block_position < block_length.

Lemma block_format_ranges_app block_position block_length tokens more :
  0 < block_length ->
  Forall (starts_before block_position block_length) tokens ->
  block_format_ranges IsThemeDark block_position block_length
    (tokens ++ more)
  = block_format_ranges IsThemeDark block_position block_length tokens
    ++ block_format_ranges IsThemeDark block_position block_length more.
Proof.
  intros Hbl HF. induction HF as [|tok tokens Htok _ IH]; [reflexivity|].
  unfold starts_before in Htok.
  cbn [block_format_ranges app].
  destruct (_ <=? 0); [exact IH|].
  assert (Hgo : ((if to_int (string_position tok) - block_position <? 0
                  then 0
                  else to_int (string_position tok) - block_position)
                 >=? block_length) = false).
  { rewrite Z.geb_leb. apply Z.leb_gt.
    destruct (Z.ltb_spec (to_int (string_position tok) - block_position) 0);
      lia. }
  rewrite Hgo.
  destruct (get_token_char_format IsThemeDark tok); rewrite IH; reflexivity.
Qed.

(** The ranges of a token vector extended by the marker, in a block the
    loop does not leave early. *)
Lemma block_format_ranges_marker block_position block_length tokens tok :
  Forall (starts_before block_position block_length) tokens ->
  0 <= to_int (string_position tok) - block_position < block_length ->
  0 < to_int (string_length tok) ->
  block_format_ranges IsThemeDark block_position block_length
    (tokens ++ [set_type TOK_INVALID tok])
  = block_format_ranges IsThemeDark block_position block_length tokens
    ++ [range_of (GetInvalidCharFormat IsThemeDark) block_position tok].
Proof.
  intros HF Hs Hl. rewrite block_format_ranges_app; [|lia|exact HF].
  f_equal.
  apply (block_format_ranges_single _ _ (set_type TOK_INVALID tok));
    [reflexivity | exact Hs | exact Hl].
Qed.

(** X1. In a block that holds the start of the offending token and that
    no lexer token makes the loop leave early (every block that is the
    whole document, for one), the marker is painted last, over exactly
    the characters of the offending token. *)
Theorem marker_painted_last (block : QTextBlock) tokens tok :
  let block_position := block_position_of block in
  let block_length := block_position + block_length_of block in
  Forall (starts_before block_position block_length) tokens ->
  0 <= to_int (string_position tok) - block_position < block_length ->
  0 < to_int (string_length tok) ->
  set_block_formats IsThemeDark (tokens ++ [set_type TOK_INVALID tok]) block
  = set_block_formats IsThemeDark tokens block
    ++ [range_of (GetInvalidCharFormat IsThemeDark) block_position tok].
Proof.
  cbv zeta. intros HF Hs Hl. unfold set_block_formats.
  now apply block_format_ranges_marker.
Qed.

End HighlighterProperties.

(** ** The range *)

(** [lo <= value / 100.0 <= hi], in [double] arithmetic. *)
Definition percent_within (lo hi : ControlState) (value : Z) : bool :=
  ((lo <=? Lexer.float_of_Z value / 100) &&
   (Lexer.float_of_Z value / 100 <=? hi))%float.

(** The integers from [- n] to [n]. *)
Definition symmetric_range (n : nat) : list Z :=
  map (fun i => Z.of_nat i - Z.of_nat n) (seq 0 (2 * n + 1)).

Lemma symmetric_range_In (n : nat) (v : Z) :
  - Z.of_nat n <= v <= Z.of_nat n -> In v (symmetric_range n).
Proof.
  intros Hv. unfold symmetric_range. apply in_map_iff.
  exists (Z.to_nat (v + Z.of_nat n)). split; [lia|].
  apply in_seq. lia.
Qed.

(** Every percentage a spin box of an input can hold gives a range
    within [-10, 10]; checked on each of the 2001 values. *)
Lemma input_percent_within (v : Z) :
  -1000 <= v <= 1000 -> percent_within (-10)%float 10%float v = true.
Proof.
  intros Hv.
  assert (H : forallb (percent_within (-10)%float 10%float)
                (symmetric_range 1000) = true)
    by (vm_compute; reflexivity).
  rewrite forallb_forall in H. apply H.
  apply (symmetric_range_In 1000). lia.
Qed.

(** Every percentage a spin box of an output can hold gives a range
    within [-1, 1]. *)
Lemma output_percent_within (v : Z) :
  -100 <= v <= 100 -> percent_within (-1)%float 1%float v = true.
Proof.
  intros Hv.
  assert (H : forallb (percent_within (-1)%float 1%float)
                (symmetric_range 100) = true)
    by (vm_compute; reflexivity).
  rewrite forallb_forall in H. apply H.
  apply (symmetric_range_In 100). lia.
Qed.

Lemma bound_value_within (box : QSpinBox) (v : Z) :
  minimum box <= maximum box ->
  minimum box <= bound_value box v <= maximum box.
Proof. unfold bound_value. lia. Qed.

Lemma bound_value_id (box : QSpinBox) (v : Z) :
  minimum box <= v <= maximum box -> bound_value box v = v.
Proof. unfold bound_value. lia. Qed.

(** *** One-block documents *)

Lemma to_int_small (z : Z) : 0 <= z < 2 ^ 31 -> to_int z = z.
Proof.
  intros Hz. unfold to_int.
  rewrite Z.mod_small; [lia|]. change (2 ^ 32) with (2 * 2 ^ 31). lia.
Qed.

(** The tokens of the lexer lie within the text, counted in QChars. *)
Lemma lexer_tokens_within_text (text : QString) :
  Forall (LexerProperties.within 0 (Z.of_nat (List.length text)))
    (fst (Lexer.Tokenize (toLatin1 text))).
Proof.
  rewrite <- toLatin1_length. apply LexerProperties.Tokenize_within.
Qed.

(** The document whose only block is the whole text; the length of the
    block counts the end of the paragraph. *)
Definition one_block_document (text : QString) : QTextDocument :=
  mkDocument text [mkBlock 0 (Z.of_nat (List.length text) + 1)].

(** In a one-block document lexed by the lexer of this file, a failed
    parse is marked over exactly the characters of the offending token:
    the block's ranges are those of the lexer's tokens followed by the
    range of the marker. *)
Lemma one_block_document_marked
    (ParseTokens : list Token -> ParseResult) (IsThemeDark : bool)
    (text : QString) (tokens : list Token) (tok : Token) :
  Z.of_nat (List.length text) + 1 < 2 ^ 31 ->
  Lexer.Tokenize (toLatin1 text) = (tokens, Successful) ->
  status (ParseTokens tokens) <> Successful ->
  token (ParseTokens tokens) = Some tok ->
  0 <= string_position tok ->
  0 < string_length tok ->
  string_position tok + string_length tok <= Z.of_nat (List.length text) ->
  Highlight Lexer.Tokenize ParseTokens IsThemeDark (one_block_document text)
  = Some [block_format_ranges IsThemeDark 0
            (Z.of_nat (List.length text) + 1) tokens
          ++ [{| QTextLayout.start := string_position tok;
                 QTextLayout.length := string_length tok;
                 QTextLayout.format := GetInvalidCharFormat IsThemeDark |}]].
Proof.
  intros Hlen HT Hfail Htok Hp Hl Hin.
  unfold Highlight, highlight_tokens, one_block_document.
  cbn [toPlainText blocks]. rewrite HT, Htok.
  assert (Hs : ParseStatus_eqb Successful (status (ParseTokens tokens))
               = false).
  { destruct (status (ParseTokens tokens)); [congruence | | |]; reflexivity. }
  rewrite Hs. cbn [negb map ParseStatus_eqb]. unfold set_block_formats.
  cbn [block_position_of block_length_of]. rewrite Z.add_0_l.
  rewrite block_format_ranges_marker.
  - unfold range_of. rewrite !to_int_small by lia. now rewrite Z.sub_0_r.
  - pose proof (lexer_tokens_within_text text) as HF. rewrite HT in HF.
    cbn [fst] in HF.
    apply (List.Forall_impl
             (P := LexerProperties.within 0 (Z.of_nat (List.length text))));
      [|exact HF].
    intros t (H0 & H1 & H2). unfold starts_before.
    rewrite to_int_small by lia. lia.
  - rewrite to_int_small by lia. lia.
  - rewrite to_int_small by lia. lia.
Qed.

(** With the lexer and the parser of this file [Highlight] never reads
    an absent token. *)
Lemma Highlight_defined (IsThemeDark : bool) (document : QTextDocument) :
  Highlight Lexer.Tokenize Parser.ParseTokens IsThemeDark document <> None.
Proof.
  unfold Highlight, highlight_tokens.
  destruct (Lexer.Tokenize _) as [tokens st].
  destruct (ParseStatus_eqb Successful st); [|discriminate].
  destruct (negb _) eqn:Hs; [|discriminate].
  destruct (token (Parser.ParseTokens tokens)) eqn:Ht; [discriminate|].
  exfalso. revert Ht. apply ParserProperties.ParseTokens_token.
  intros E. rewrite E in Hs. discriminate.
Qed.

(** In a document of two blocks the loop leaves the first block at the
    first token of the second one, before it reaches the marker appended
    behind it: for "1 * *" followed by "2" on the next line the marker
    (offset 4, length 1) is in the token vector and in no block's
    ranges. *)
Definition two_line_document : QTextDocument :=
  mkDocument (fromLatin1 (String "1" (String " " (String "*" (String " "
     (String "*" (String (ascii_of_N 10) (String "2" EmptyString))))))))
    [mkBlock 0 6; mkBlock 6 2].

Remark two_line_document_marker :
  option_map
    (fun toks => List.last toks (mkToken TOK_END_OF_STRING 0 0 NoValue))
    (highlight_tokens Lexer.Tokenize Parser.ParseTokens
       (toPlainText two_line_document))
  = Some (mkToken TOK_INVALID 4 1 NoValue)
  /\ Highlight Lexer.Tokenize Parser.ParseTokens false two_line_document
     = Some
         [[ {| QTextLayout.start := 0; QTextLayout.length := 1;
               QTextLayout.format := GetLiteralCharFormat false |};
            {| QTextLayout.start := 2; QTextLayout.length := 1;
               QTextLayout.format := GetSpecialCharFormat |};
            {| QTextLayout.start := 4; QTextLayout.length := 1;
               QTextLayout.format := GetSpecialCharFormat |} ];
          [ {| QTextLayout.start := 0; QTextLayout.length := 1;
               QTextLayout.format := GetLiteralCharFormat false |} ]].
Proof. split; vm_compute; reflexivity. Qed.

(** The same text on one line. *)
Definition one_line_document : QTextDocument :=
  mkDocument (fromLatin1 "1 * * 2") [mkBlock 0 8].

(** The ranges of a block that carry the wave underline of an invalid
    token. *)
Definition underlined (ranges : list FormatRange) : list FormatRange :=
  List.filter
    (fun r =>
       match waveUnderline (QTextLayout.format r) with
       | Some _ => true
       | None => false
       end)
    ranges.

(** C1. The text "1 * *", a line break, "2". The lexer succeeds and the
    parser stops at the second [*], offset 4, length 1. [Highlight]
    appends the copy of that token typed [TOK_INVALID] to the token
    vector, as specified; but no block gets a range with the invalid
    format: in the first block the loop over the tokens leaves at the
    literal of the second line, which stands before the appended token in
    the vector, and in the second block the appended token ends before
    the block. The offending [*] is painted as an operator only. With
    the same text on one line the range 4, length 1 is underlined. *)
Theorem parse_error_marker_lost_after_line_break :
  let text := toLatin1 (toPlainText two_line_document) in
  let tokens := fst (Lexer.Tokenize text) in
  snd (Lexer.Tokenize text) = Successful
  /\ status (Parser.ParseTokens tokens) = SyntaxError
  /\ token (Parser.ParseTokens tokens) = Some (mkToken TOK_MUL 4 1 NoValue)
  /\ highlight_tokens Lexer.Tokenize Parser.ParseTokens
       (toPlainText two_line_document)
     = Some (tokens ++ [mkToken TOK_INVALID 4 1 NoValue])
  /\ option_map (map underlined)
       (Highlight Lexer.Tokenize Parser.ParseTokens false two_line_document)
     = Some [[]; []]
  /\ option_map (map underlined)
       (Highlight Lexer.Tokenize Parser.ParseTokens false one_line_document)
     = Some [[ {| QTextLayout.start := 4; QTextLayout.length := 1;
                  QTextLayout.format := GetInvalidCharFormat false |} ]].
Proof. cbv zeta. repeat split; vm_compute; reflexivity. Qed.

(** ** The precedence of the parser *)

Module PrecedenceProperties.
Import Parser ParserProperties.

(** *** More fuel changes no answer *)

Lemma bind_agree {A B} (x y : Parsed A)
    (k k' : A -> list Token -> Parsed B) :
  bind x k <> OutOfFuel ->
  (x <> OutOfFuel -> y = x) ->
  (forall a r, x = Ok a r -> k a r <> OutOfFuel -> k' a r = k a r) ->
  bind y k' = bind x k.
Proof.
  intros H Hx Hk. destruct x as [a r|tok|].
  - rewrite Hx by discriminate. cbn [bind] in *. now apply Hk.
  - rewrite Hx by discriminate. reflexivity.
  - now contradiction H.
Qed.

(** With fuel [g] every step answers as with fuel [f], where it answers
    with fuel [f] at all. *)
Definition agree (f g : nat) : Prop :=
  (forall toks, ParseAtom f toks <> OutOfFuel ->
     ParseAtom g toks = ParseAtom f toks)
  /\ (forall toks, ParseArguments f toks <> OutOfFuel ->
        ParseArguments g toks = ParseArguments f toks)
  /\ (forall p lhs toks, ParseBinaryLoop f p lhs toks <> OutOfFuel ->
        ParseBinaryLoop g p lhs toks = ParseBinaryLoop f p lhs toks)
  /\ (forall p toks, ParseBinary f p toks <> OutOfFuel ->
        ParseBinary g p toks = ParseBinary f p toks)
  /\ (forall toks, ParseTernary f toks <> OutOfFuel ->
        ParseTernary g toks = ParseTernary f toks)
  /\ (forall lhs toks, ParseCommaLoop f lhs toks <> OutOfFuel ->
        ParseCommaLoop g lhs toks = ParseCommaLoop f lhs toks)
  /\ (forall toks, ParseToplevel f toks <> OutOfFuel ->
        ParseToplevel g toks = ParseToplevel f toks).

Lemma agree_step (f g : nat) : agree f g -> agree (S f) (S g).
Proof.
  intros (IA & IG & IL & IB & IT & IC & IP). repeat split.
  - (* ParseAtom *)
    intros toks H. cbn [ParseAtom] in *.
    destruct toks as [|tok rest]; [reflexivity|].
    destruct (type tok); try reflexivity.
    + apply bind_agree; [exact H | apply IP | reflexivity].
    + destruct rest as [|paren rest']; [reflexivity|].
      destruct (TokenType_eqb (type paren) TOK_LPAREN); [|reflexivity].
      apply bind_agree; [exact H | apply IG | reflexivity].
    + apply bind_agree; [exact H | apply IA | reflexivity].
    + apply bind_agree; [exact H | apply IA | reflexivity].
  - (* ParseArguments *)
    intros toks H. cbn [ParseArguments] in *.
    destruct (TokenType_eqb (type (Peek toks)) TOK_RPAREN); [reflexivity|].
    apply bind_agree; [exact H | apply IT |].
    intros a r _ Hk. destruct (type (Peek r)); try reflexivity.
    destruct (TokenType_eqb (type (Peek (tl r))) TOK_RPAREN);
      [reflexivity|].
    apply bind_agree; [exact Hk | apply IG | reflexivity].
  - (* ParseBinaryLoop *)
    intros p lhs toks H. cbn [ParseBinaryLoop] in *.
    destruct (binary_operator (type (Peek toks))) as [[op level]|];
      [|reflexivity].
    destruct (level <=? p)%nat; [|reflexivity].
    apply bind_agree; [exact H | apply IB |].
    intros a r _ Hk. now apply IL.
  - (* ParseBinary *)
    intros p toks H. cbn [ParseBinary] in *.
    apply bind_agree; [exact H | apply IA |].
    intros a r _ Hk. now apply IL.
  - (* ParseTernary *)
    intros toks H. cbn [ParseTernary] in *.
    apply bind_agree; [exact H | apply IB |].
    intros c r _ Hk.
    destruct (TokenType_eqb (type (Peek r)) TOK_QUESTION); [|reflexivity].
    apply bind_agree; [exact Hk | apply IT |].
    intros a r1 _ Hk1.
    apply bind_agree; [exact Hk1 | reflexivity |].
    intros u r2 _ Hk2.
    apply bind_agree; [exact Hk2 | apply IT | reflexivity].
  - (* ParseCommaLoop *)
    intros lhs toks H. cbn [ParseCommaLoop] in *.
    destruct (TokenType_eqb (type (Peek toks)) TOK_COMMA); [|reflexivity].
    apply bind_agree; [exact H | apply IT |].
    intros a r _ Hk. now apply IC.
  - (* ParseToplevel *)
    intros toks H. cbn [ParseToplevel] in *.
    apply bind_agree; [exact H | apply IT |].
    intros a r _ Hk. now apply IC.
Qed.

Lemma parser_agrees (f g : nat) : (f <= g)%nat -> agree f g.
Proof.
  revert g. induction f as [|f IH]; intros g Hle.
  - repeat split; intros; exfalso; cbn in *; congruence.
  - destruct g as [|g]; [lia|]. apply agree_step, IH. lia.
Qed.

(** *** Expressions written with the fewest parentheses *)

(** The precedence order of the specification, from the tightest: a
    call and the unary operators (0), [* / %] (1), [+ -] (2), [> <] (3),
    [& ^ |] (4), the ternary (5), the comma sequence (6). *)
Definition precedence_of (op : BinaryOperator) : nat :=
  match op with
  | OpMul | OpDiv | OpMod => 1
  | OpAdd | OpSub => 2
  | OpGthan | OpLthan => 3
  | OpAnd | OpXor | OpOr => 4
  end.

Definition level (e : Expression) : nat :=
  match e with
  | BinaryOp op _ _ => precedence_of op
  | Conditional _ _ _ => 5
  | CommaSequence _ _ => 6
  | _ => 0
  end.

Definition token_of (op : BinaryOperator) : TokenType :=
  match op with
  | OpMul => TOK_MUL | OpDiv => TOK_DIV | OpMod => TOK_MOD
  | OpAdd => TOK_ADD | OpSub => TOK_SUB
  | OpGthan => TOK_GTHAN | OpLthan => TOK_LTHAN
  | OpAnd => TOK_AND | OpXor => TOK_XOR | OpOr => TOK_OR
  end.

Definition unary_token (op : UnaryOperator) : TokenType :=
  match op with OpNot => TOK_NOT | OpNeg => TOK_SUB end.

(** A token of punctuation. *)
Definition sym (t : TokenType) : Token := mkToken t 0 1 NoValue.

(** [toks], the tokens of [e], as an operand where nothing looser than
    level [p] may stand: in parentheses exactly when [e] is looser. *)
Definition within (p : nat) (e : Expression) (toks : list Token)
    : list Token :=
  if (level e <=? p)%nat then toks
  else sym TOK_LPAREN :: toks ++ [sym TOK_RPAREN].

(** The tokens of an expression. The operands of a binary operator stand
    at its own level on the left and one level tighter on the right, so
    that equal levels group to the left; the operand of a unary operator
    at level 0; the condition of a ternary at the loosest binary level
    and its branches at the level of the ternary; the arguments of a call
    at the level of the ternary; the second part of a comma sequence at
    the level of the ternary. A call carries its node, the position of
    its name. *)
Fixpoint render (e : Expression) : list Token :=
  match e with
  | Literal x => [mkToken TOK_LITERAL 0 1 (Number x)]
  | ControlRef name => [mkToken TOK_CONTROL 0 1 (Text name)]
  | VariableRef name => [mkToken TOK_VARIABLE 0 1 (Text name)]
  | UnaryOp op a => sym (unary_token op) :: within 0 a (render a)
  | BinaryOp op a b =>
      within (precedence_of op) a (render a)
      ++ sym (token_of op) :: within (precedence_of op - 1) b (render b)
  | Conditional c a b =>
      within 4 c (render c)
      ++ sym TOK_QUESTION :: within 5 a (render a)
      ++ sym TOK_COLON :: within 5 b (render b)
  | FunctionCall node name args =>
      mkToken TOK_BAREWORD node 1 (Text name) :: sym TOK_LPAREN
      :: (fix render_args (l : list Expression) : list Token :=
            match l with
            | [] => [sym TOK_RPAREN]
            | a :: rest =>
                within 5 a (render a)
                ++ match rest with
                   | [] => [sym TOK_RPAREN]
                   | _ :: _ => sym TOK_COMMA :: render_args rest
                   end
            end) args
  | CommaSequence a b =>
      render a ++ sym TOK_COMMA :: within 5 b (render b)
  end.

Definition render_at (p : nat) (e : Expression) : list Token :=
  within p e (render e).

(** The arguments of a call and the closing parenthesis. *)
Fixpoint render_args (l : list Expression) : list Token :=
  match l with
  | [] => [sym TOK_RPAREN]
  | a :: rest =>
      render_at 5 a
      ++ match rest with
         | [] => [sym TOK_RPAREN]
         | _ :: _ => sym TOK_COMMA :: render_args rest
         end
  end.

Lemma render_FunctionCall node name args :
  render (FunctionCall node name args)
  = mkToken TOK_BAREWORD node 1 (Text name) :: sym TOK_LPAREN
    :: render_args args.
Proof.
  cbn [render]. apply (f_equal (cons _)), (f_equal (cons _)).
  induction args as [|a rest IH]; [reflexivity|].
  cbn [render_args]. unfold render_at. apply (f_equal (app _)).
  destruct rest; [reflexivity|]. now rewrite IH.
Qed.

(** Induction on expressions, with the arguments of a call. *)
Section ExpressionInduction.

Variable P : Expression -> Prop.

Hypothesis P_Literal : forall x, P (Literal x).
Hypothesis P_ControlRef : forall name, P (ControlRef name).
Hypothesis P_VariableRef : forall name, P (VariableRef name).
Hypothesis P_UnaryOp : forall op a, P a -> P (UnaryOp op a).
Hypothesis P_BinaryOp : forall op a b, P a -> P b -> P (BinaryOp op a b).
Hypothesis P_Conditional :
  forall c a b, P c -> P a -> P b -> P (Conditional c a b).
Hypothesis P_FunctionCall :
  forall node name args, List.Forall P args -> P (FunctionCall node name args).
Hypothesis P_CommaSequence :
  forall a b, P a -> P b -> P (CommaSequence a b).

Fixpoint Expression_induction (e : Expression) : P e :=
  match e with
  | Literal x => P_Literal x
  | ControlRef name => P_ControlRef name
  | VariableRef name => P_VariableRef name
  | UnaryOp op a => P_UnaryOp op a (Expression_induction a)
  | BinaryOp op a b =>
      P_BinaryOp op a b (Expression_induction a) (Expression_induction b)
  | Conditional c a b =>
      P_Conditional c a b (Expression_induction c) (Expression_induction a)
        (Expression_induction b)
  | FunctionCall node name args =>
      P_FunctionCall node name args
        ((fix all (l : list Expression) : List.Forall P l :=
            match l with
            | [] => @List.Forall_nil _ P
            | a :: rest =>
                @List.Forall_cons _ P a rest (Expression_induction a)
                  (all rest)
            end) args)
  | CommaSequence a b =>
      P_CommaSequence a b (Expression_induction a) (Expression_induction b)
  end.

End ExpressionInduction.

(** *** The steps of the parser, with some fuel *)

Definition atom (toks : list Token) (e : Expression) (r : list Token) :=
  exists f, ParseAtom f toks = Ok e r.
Definition arguments (toks : list Token) (l : list Expression)
    (r : list Token) :=
  exists f, ParseArguments f toks = Ok l r.
Definition binary_loop (p : nat) (lhs : Expression) (toks : list Token)
    (e : Expression) (r : list Token) :=
  exists f, ParseBinaryLoop f p lhs toks = Ok e r.
Definition binary (p : nat) (toks : list Token) (e : Expression)
    (r : list Token) :=
  exists f, ParseBinary f p toks = Ok e r.
Definition ternary (toks : list Token) (e : Expression) (r : list Token) :=
  exists f, ParseTernary f toks = Ok e r.
Definition comma_loop (lhs : Expression) (toks : list Token)
    (e : Expression) (r : list Token) :=
  exists f, ParseCommaLoop f lhs toks = Ok e r.
Definition toplevel (toks : list Token) (e : Expression) (r : list Token) :=
  exists f, ParseToplevel f toks = Ok e r.

(** An answer stays with more fuel. *)
Lemma raise (f g : nat) :
  (f <= g)%nat ->
  (forall toks e r, ParseAtom f toks = Ok e r -> ParseAtom g toks = Ok e r)
  /\ (forall toks l r,
        ParseArguments f toks = Ok l r -> ParseArguments g toks = Ok l r)
  /\ (forall p lhs toks e r,
        ParseBinaryLoop f p lhs toks = Ok e r ->
        ParseBinaryLoop g p lhs toks = Ok e r)
  /\ (forall p toks e r,
        ParseBinary f p toks = Ok e r -> ParseBinary g p toks = Ok e r)
  /\ (forall toks e r,
        ParseTernary f toks = Ok e r -> ParseTernary g toks = Ok e r)
  /\ (forall lhs toks e r,
        ParseCommaLoop f lhs toks = Ok e r ->
        ParseCommaLoop g lhs toks = Ok e r)
  /\ (forall toks e r,
        ParseToplevel f toks = Ok e r -> ParseToplevel g toks = Ok e r).
Proof.
  intros Hle.
  destruct (parser_agrees f g Hle) as (IA & IG & IL & IB & IT & IC & IP).
  repeat split; intros;
    [rewrite IA | rewrite IG | rewrite IL | rewrite IB | rewrite IT
    | rewrite IC | rewrite IP]; congruence.
Qed.

Lemma atom_leaf (tok : Token) (rest : list Token) (e : Expression) :
  match type tok with
  | TOK_LITERAL => e = Literal (number_of tok)
  | TOK_CONTROL => e = ControlRef (text_of tok)
  | TOK_VARIABLE => e = VariableRef (text_of tok)
  | _ => False
  end ->
  atom (tok :: rest) e rest.
Proof.
  intros H. exists 1%nat. cbn [ParseAtom].
  destruct (type tok); try contradiction; now subst.
Qed.

Lemma atom_unary (tok : Token) (rest : list Token) op e r :
  type tok = unary_token op ->
  atom rest e r -> atom (tok :: rest) (UnaryOp op e) r.
Proof.
  intros Ht [f Hf]. exists (S f). cbn [ParseAtom]. rewrite Ht.
  destruct op; cbn [unary_token]; now rewrite Hf.
Qed.

Lemma atom_parenthesis (tok close : Token) (rest r : list Token) e :
  type tok = TOK_LPAREN -> type close = TOK_RPAREN ->
  toplevel rest e (close :: r) -> atom (tok :: rest) e r.
Proof.
  intros Ht Hc [f Hf]. exists (S f). cbn [ParseAtom]. rewrite Ht, Hf.
  cbn [bind expect]. now rewrite Hc.
Qed.

Lemma atom_call (tok open : Token) (rest r : list Token) l :
  type tok = TOK_BAREWORD -> type open = TOK_LPAREN ->
  arguments rest l r ->
  atom (tok :: open :: rest)
    (FunctionCall (string_position tok) (text_of tok) l) r.
Proof.
  intros Ht Ho [f Hf]. exists (S f). cbn [ParseAtom].
  now rewrite Ht, Ho, Hf.
Qed.

Lemma arguments_none (toks : list Token) :
  type (Peek toks) = TOK_RPAREN -> arguments toks [] (tl toks).
Proof.
  intros H. exists 1%nat. cbn [ParseArguments]. now rewrite H.
Qed.

Lemma arguments_last (toks r : list Token) a :
  type (Peek toks) <> TOK_RPAREN ->
  ternary toks a r -> type (Peek r) = TOK_RPAREN ->
  arguments toks [a] (tl r).
Proof.
  intros Hn [f Hf] Hr. exists (S f). cbn [ParseArguments].
  destruct (TokenType_eqb (type (Peek toks)) TOK_RPAREN) eqn:E.
  { destruct (type (Peek toks)); try discriminate. now contradiction Hn. }
  rewrite Hf. cbn [bind]. now rewrite Hr.
Qed.

Lemma arguments_more (toks r r' : list Token) a l :
  type (Peek toks) <> TOK_RPAREN ->
  ternary toks a r -> type (Peek r) = TOK_COMMA ->
  type (Peek (tl r)) <> TOK_RPAREN ->
  arguments (tl r) l r' ->
  arguments toks (a :: l) r'.
Proof.
  intros Hn [f Hf] Hr Hn' [g Hg]. exists (S (Nat.max f g)).
  cbn [ParseArguments].
  destruct (TokenType_eqb (type (Peek toks)) TOK_RPAREN) eqn:E.
  { destruct (type (Peek toks)); try discriminate. now contradiction Hn. }
  destruct (raise f (Nat.max f g)) as (_ & _ & _ & _ & RT & _); [lia|].
  destruct (raise g (Nat.max f g)) as (_ & RG & _); [lia|].
  rewrite (RT _ _ _ Hf). cbn [bind]. rewrite Hr.
  destruct (TokenType_eqb (type (Peek (tl r))) TOK_RPAREN) eqn:E'.
  { destruct (type (Peek (tl r))); try discriminate. now contradiction Hn'. }
  now rewrite (RG _ _ _ Hg).
Qed.

(** Nothing follows that a binary loop of level [p] would take. *)
Definition stops_binary (p : nat) (rest : list Token) : Prop :=
  match binary_operator (type (Peek rest)) with
  | Some (_, l) => (p < l)%nat
  | None => True
  end.

Definition stops_ternary (rest : list Token) : Prop :=
  stops_binary 4 rest /\ type (Peek rest) <> TOK_QUESTION.

Definition stops_comma (rest : list Token) : Prop :=
  stops_ternary rest /\ type (Peek rest) <> TOK_COMMA.

Lemma binary_loop_stop (p : nat) lhs (toks : list Token) :
  stops_binary p toks -> binary_loop p lhs toks lhs toks.
Proof.
  intros H. exists 1%nat. cbn [ParseBinaryLoop]. unfold stops_binary in H.
  destruct (binary_operator (type (Peek toks))) as [[op l]|]; [|reflexivity].
  destruct (Nat.leb_spec l p); [lia | reflexivity].
Qed.

Lemma binary_loop_step (p : nat) lhs (toks r r' : list Token) op l rhs e :
  binary_operator (type (Peek toks)) = Some (op, l) -> (l <= p)%nat ->
  binary (l - 1) (tl toks) rhs r ->
  binary_loop p (BinaryOp op lhs rhs) r e r' ->
  binary_loop p lhs toks e r'.
Proof.
  intros Hop Hl [f Hf] [g Hg]. exists (S (Nat.max f g)).
  cbn [ParseBinaryLoop]. rewrite Hop.
  destruct (Nat.leb_spec l p); [|lia].
  destruct (raise f (Nat.max f g)) as (_ & _ & _ & RB & _); [lia|].
  destruct (raise g (Nat.max f g)) as (_ & _ & RL & _); [lia|].
  rewrite (RB _ _ _ _ Hf). cbn [bind]. now apply RL.
Qed.

Lemma binary_intro (p : nat) (toks r r' : list Token) lhs e :
  atom toks lhs r -> binary_loop p lhs r e r' -> binary p toks e r'.
Proof.
  intros [f Hf] [g Hg]. exists (S (Nat.max f g)). cbn [ParseBinary].
  destruct (raise f (Nat.max f g)) as (RA & _); [lia|].
  destruct (raise g (Nat.max f g)) as (_ & _ & RL & _); [lia|].
  rewrite (RA _ _ _ Hf). cbn [bind]. now apply RL.
Qed.

Lemma ternary_plain (toks r : list Token) c :
  binary lowest_binary toks c r -> type (Peek r) <> TOK_QUESTION ->
  ternary toks c r.
Proof.
  intros [f Hf] Hq. exists (S f). cbn [ParseTernary]. rewrite Hf.
  cbn [bind].
  destruct (TokenType_eqb (type (Peek r)) TOK_QUESTION) eqn:E;
    [|reflexivity].
  destruct (type (Peek r)); try discriminate. now contradiction Hq.
Qed.

Lemma ternary_conditional (toks r r1 r2 r3 : list Token) c a b :
  binary lowest_binary toks c r -> type (Peek r) = TOK_QUESTION ->
  ternary (tl r) a r1 -> expect TOK_COLON r1 = Ok tt r2 ->
  ternary r2 b r3 ->
  ternary toks (Conditional c a b) r3.
Proof.
  intros [f Hf] Hq [g Hg] Hc [h Hh].
  set (m := Nat.max f (Nat.max g h)).
  exists (S m). cbn [ParseTernary].
  destruct (raise f m) as (_ & _ & _ & RB & _); [lia|].
  destruct (raise g m) as (_ & _ & _ & _ & RT & _); [lia|].
  destruct (raise h m) as (_ & _ & _ & _ & RT' & _); [lia|].
  rewrite (RB _ _ _ _ Hf). cbn [bind]. rewrite Hq. cbn [TokenType_eqb].
  rewrite (RT _ _ _ Hg). cbn [bind]. rewrite Hc. cbn [bind].
  now rewrite (RT' _ _ _ Hh).
Qed.

Lemma comma_loop_stop lhs (toks : list Token) :
  type (Peek toks) <> TOK_COMMA -> comma_loop lhs toks lhs toks.
Proof.
  intros H. exists 1%nat. cbn [ParseCommaLoop].
  destruct (TokenType_eqb (type (Peek toks)) TOK_COMMA) eqn:E;
    [|reflexivity].
  destruct (type (Peek toks)); try discriminate. now contradiction H.
Qed.

Lemma comma_loop_step lhs (toks r r' : list Token) rhs e :
  type (Peek toks) = TOK_COMMA ->
  ternary (tl toks) rhs r ->
  comma_loop (CommaSequence lhs rhs) r e r' ->
  comma_loop lhs toks e r'.
Proof.
  intros Hc [f Hf] [g Hg]. exists (S (Nat.max f g)).
  cbn [ParseCommaLoop]. rewrite Hc. cbn [TokenType_eqb].
  destruct (raise f (Nat.max f g)) as (_ & _ & _ & _ & RT & _); [lia|].
  destruct (raise g (Nat.max f g)) as (_ & _ & _ & _ & _ & RC & _); [lia|].
  rewrite (RT _ _ _ Hf). cbn [bind]. now apply RC.
Qed.

Lemma toplevel_intro (toks r r' : list Token) lhs e :
  ternary toks lhs r -> comma_loop lhs r e r' -> toplevel toks e r'.
Proof.
  intros [f Hf] [g Hg]. exists (S (Nat.max f g)). cbn [ParseToplevel].
  destruct (raise f (Nat.max f g)) as (_ & _ & _ & _ & RT & _); [lia|].
  destruct (raise g (Nat.max f g)) as (_ & _ & _ & _ & _ & RC & _); [lia|].
  rewrite (RT _ _ _ Hf). cbn [bind]. now apply RC.
Qed.

(** *** The grammar of the precedence order *)

(** [written p e toks]: the tokens [toks] are the expression [e] as an
    operand where nothing looser than level [p] may stand. A literal, a
    control, a variable, a call, a unary operator with its operand and
    anything in parentheses stand everywhere (level 0); the operand of a
    unary operator is of level 0, which a call is; a binary operator
    takes its own level on the left and the next tighter one on the
    right; the ternary takes the binary operators as its condition and
    another ternary as either branch; the comma sequence takes a comma
    sequence on the left and a ternary on the right; an argument of a
    call is a ternary. *)
Inductive written : nat -> Expression -> list Token -> Prop :=
| written_literal tok :
    type tok = TOK_LITERAL ->
    written 0 (Literal (number_of tok)) [tok]
| written_control tok :
    type tok = TOK_CONTROL ->
    written 0 (ControlRef (text_of tok)) [tok]
| written_variable tok :
    type tok = TOK_VARIABLE ->
    written 0 (VariableRef (text_of tok)) [tok]
| written_call tok open l toks :
    type tok = TOK_BAREWORD -> type open = TOK_LPAREN ->
    written_arguments l toks ->
    written 0 (FunctionCall (string_position tok) (text_of tok) l)
      (tok :: open :: toks)
| written_unary tok op a toks :
    type tok = unary_token op ->
    written 0 a toks ->
    written 0 (UnaryOp op a) (tok :: toks)
| written_parenthesis open close p e toks :
    type open = TOK_LPAREN -> type close = TOK_RPAREN ->
    written p e toks ->
    written 0 e (open :: toks ++ [close])
| written_binary tok op a ta b tb :
    type tok = token_of op ->
    written (precedence_of op) a ta ->
    written (precedence_of op - 1) b tb ->
    written (precedence_of op) (BinaryOp op a b) (ta ++ tok :: tb)
| written_conditional question colon c tc a ta b tb :
    type question = TOK_QUESTION -> type colon = TOK_COLON ->
    written 4 c tc -> written 5 a ta -> written 5 b tb ->
    written 5 (Conditional c a b) (tc ++ question :: ta ++ colon :: tb)
| written_comma comma a ta b tb :
    type comma = TOK_COMMA ->
    written 6 a ta -> written 5 b tb ->
    written 6 (CommaSequence a b) (ta ++ comma :: tb)
| written_looser p q e toks :
    (p <= q)%nat -> written p e toks -> written q e toks

(** The arguments of a call and its closing parenthesis. *)
with written_arguments : list Expression -> list Token -> Prop :=
| written_no_argument close :
    type close = TOK_RPAREN ->
    written_arguments [] [close]
| written_last_argument close a ta :
    type close = TOK_RPAREN ->
    written 5 a ta ->
    written_arguments [a] (ta ++ [close])
| written_more_arguments comma a ta b l toks :
    type comma = TOK_COMMA ->
    written 5 a ta ->
    written_arguments (b :: l) toks ->
    written_arguments (a :: b :: l) (ta ++ comma :: toks).

Scheme written_mut := Minimality for written Sort Prop
  with written_arguments_mut := Minimality for written_arguments Sort Prop.

Combined Scheme written_mutind from written_mut, written_arguments_mut.

(** An expression begins with one of these. *)
Definition opens (toks : list Token) : Prop :=
  match type (Peek toks) with
  | TOK_LITERAL | TOK_CONTROL | TOK_VARIABLE | TOK_BAREWORD
  | TOK_NOT | TOK_SUB | TOK_LPAREN => True
  | _ => False
  end.

Lemma written_opens p e toks :
  written p e toks -> forall rest, opens (toks ++ rest).
Proof.
  induction 1 as [tok Ht|tok Ht|tok Ht|tok open l toks Ht _ _
                 |tok op a toks Ht _ _|open close p e toks Ho _ _ _
                 |tok op a ta b tb _ _ IHa _ _
                 |question colon c tc a ta b tb _ _ _ IHc _ _ _ _
                 |comma a ta b tb _ _ IHa _ _|p q e toks _ _ IH];
    intros rest; try (rewrite <- app_assoc; apply IHa);
    try (rewrite <- app_assoc; apply IHc); try apply IH;
    unfold opens; cbn [app Peek]; try rewrite Ht; try rewrite Ho;
    try exact I.
  destruct op; exact I.
Qed.

Lemma written_arguments_open a l toks :
  written_arguments (a :: l) toks -> forall rest, opens (toks ++ rest).
Proof.
  inversion 1; subst; intros rest; rewrite <- app_assoc;
    eapply written_opens; eassumption.
Qed.

Lemma opens_not_closing (toks : list Token) :
  opens toks ->
  type (Peek toks) <> TOK_RPAREN
  /\ TokenType_eqb (type (Peek toks)) TOK_END_OF_STRING = false.
Proof. unfold opens. destruct (type (Peek toks)); now intros []. Qed.

(** No comment is written. *)
Lemma written_without_comment :
  (forall p e toks, written p e toks ->
     Forall (fun tok => is_comment tok = false) toks)
  /\ (forall l toks, written_arguments l toks ->
        Forall (fun tok => is_comment tok = false) toks).
Proof.
  assert (K : forall (tok : Token) t,
             type tok = t -> t <> TOK_COMMENT -> is_comment tok = false).
  { intros tok t <-. unfold is_comment.
    destruct (type tok); trivial. now intros []. }
  apply written_mutind; intros;
    repeat match goal with
           | |- Forall _ (_ ++ _) => apply List.Forall_app; split
           | |- Forall _ (_ :: _) => apply List.Forall_cons
           | |- Forall _ [] => apply List.Forall_nil
           end;
    try assumption; try (eapply K; [eassumption|discriminate]).
  - eapply K; [eassumption|]. destruct op; discriminate.
  - eapply K; [eassumption|]. destruct op; discriminate.
Qed.

(** *** Every written expression is parsed as written *)

Lemma binary_operator_token_of (op : BinaryOperator) :
  binary_operator (token_of op) = Some (op, precedence_of op).
Proof. now destruct op. Qed.

Lemma precedence_of_bounds (op : BinaryOperator) :
  (1 <= precedence_of op <= 4)%nat.
Proof. destruct op; cbn; lia. Qed.

Lemma stops_binary_looser (p q : nat) (rest : list Token) :
  (p <= q)%nat -> stops_binary q rest -> stops_binary p rest.
Proof.
  unfold stops_binary.
  destruct (binary_operator _) as [[op l]|]; [lia | trivial].
Qed.

Lemma stops_binary_0 (rest : list Token) : stops_binary 0 rest.
Proof.
  unfold stops_binary. destruct (type (Peek rest)); cbn; lia || exact I.
Qed.

(** A token that ends an operand. *)
Definition closes (tok : Token) : Prop :=
  match type tok with
  | TOK_RPAREN | TOK_COMMA | TOK_COLON | TOK_END_OF_STRING => True
  | _ => False
  end.

Lemma closes_stops (tok : Token) (rest : list Token) :
  closes tok -> stops_ternary (tok :: rest) /\ stops_binary 4 (tok :: rest).
Proof.
  unfold closes, stops_ternary, stops_binary. cbn [Peek].
  destruct (type tok); intros []; cbn; repeat split; discriminate.
Qed.

Lemma question_stops (tok : Token) (rest : list Token) (p : nat) :
  type tok = TOK_QUESTION -> stops_binary p (tok :: rest).
Proof. unfold stops_binary. cbn [Peek]. now intros ->. Qed.

(** What the parser does with a written expression, by the level it is
    written at: an operand, the left end of a chain of binary operators,
    a ternary, the left end of a comma sequence. *)
Definition parses (p : nat) (e : Expression) (toks : list Token) : Prop :=
  (p = 0%nat -> forall rest, atom (toks ++ rest) e rest)
  /\ ((p <= 4)%nat ->
      forall q rest e' r',
        (p <= q)%nat -> stops_binary (p - 1) rest ->
        binary_loop q e rest e' r' -> binary q (toks ++ rest) e' r')
  /\ ((p <= 5)%nat ->
      forall rest, stops_ternary rest -> ternary (toks ++ rest) e rest)
  /\ (forall rest e' r',
        stops_ternary rest -> comma_loop e rest e' r' ->
        toplevel (toks ++ rest) e' r').

Lemma parses_ternary (p : nat) e (toks : list Token) :
  (5 <= p)%nat ->
  (forall rest, stops_ternary rest -> ternary (toks ++ rest) e rest) ->
  parses p e toks.
Proof.
  intros Hp HT. repeat split; try (intros; lia).
  - intros H rest Hs. now apply HT.
  - intros rest e' r' Hs Hc. eapply toplevel_intro; [|exact Hc].
    now apply HT.
Qed.

Lemma parses_binary (p : nat) e (toks : list Token) :
  (1 <= p <= 4)%nat ->
  (forall q rest e' r',
     (p <= q)%nat -> stops_binary (p - 1) rest ->
     binary_loop q e rest e' r' -> binary q (toks ++ rest) e' r') ->
  parses p e toks.
Proof.
  intros Hp HB.
  assert (HT : forall rest,
             stops_ternary rest -> ternary (toks ++ rest) e rest).
  { intros rest [Hs Hq]. apply ternary_plain; [|exact Hq].
    apply HB; [unfold lowest_binary; lia| |now apply binary_loop_stop].
    apply (stops_binary_looser _ 4); [lia | exact Hs]. }
  destruct (parses_ternary 5 e toks (Nat.le_refl 5) HT) as (_ & _ & T & U).
  repeat split; try (intros; lia); auto.
Qed.

Lemma parses_atom e (toks : list Token) :
  (forall rest, atom (toks ++ rest) e rest) -> parses 0 e toks.
Proof.
  intros HA.
  assert (HB : forall q rest e' r',
             binary_loop q e rest e' r' -> binary q (toks ++ rest) e' r').
  { intros q rest e' r' Hl. eapply binary_intro; [apply HA | exact Hl]. }
  assert (HT : forall rest,
             stops_ternary rest -> ternary (toks ++ rest) e rest).
  { intros rest [Hs Hq]. apply ternary_plain; [|exact Hq].
    apply HB. now apply binary_loop_stop. }
  destruct (parses_ternary 5 e toks (Nat.le_refl 5) HT) as (_ & _ & T & U).
  repeat split; auto.
Qed.

Lemma parses_looser (p q : nat) e (toks : list Token) :
  (p <= q)%nat -> parses p e toks -> parses q e toks.
Proof.
  intros Hpq (A & B & T & U). repeat split.
  - intros ->. apply A. lia.
  - intros Hq q' rest e' r' Hq' Hs. apply B; [lia | lia |].
    apply (stops_binary_looser _ (q - 1)); [lia | exact Hs].
  - intros Hq. apply T. lia.
  - exact U.
Qed.

(** The right operand of a binary operator of level [S p]. *)
Lemma parses_operand (p : nat) e (toks rest : list Token) :
  (p <= 4)%nat -> parses p e toks -> stops_binary p rest ->
  binary p (toks ++ rest) e rest.
Proof.
  intros Hp (_ & B & _) Hs. apply B; [lia | lia | |].
  - apply (stops_binary_looser _ p); [lia | exact Hs].
  - now apply binary_loop_stop.
Qed.

Theorem written_parses :
  (forall p e toks, written p e toks -> parses p e toks)
  /\ (forall l toks, written_arguments l toks ->
        forall rest, arguments (toks ++ rest) l rest).
Proof.
  apply written_mutind.
  - (* literal *)
    intros tok Ht. apply parses_atom. intros rest.
    apply atom_leaf. now rewrite Ht.
  - intros tok Ht. apply parses_atom. intros rest.
    apply atom_leaf. now rewrite Ht.
  - intros tok Ht. apply parses_atom. intros rest.
    apply atom_leaf. now rewrite Ht.
  - (* call *)
    intros tok open l toks Ht Ho _ IH. apply parses_atom. intros rest.
    cbn [app]. now apply atom_call.
  - (* unary *)
    intros tok op a toks Ht _ (A & _). apply parses_atom. intros rest.
    cbn [app]. apply atom_unary; [exact Ht|]. now apply A.
  - (* parentheses *)
    intros open close p e toks Ho Hc _ (_ & _ & _ & U).
    apply parses_atom. intros rest. cbn [app]. rewrite <- app_assoc.
    cbn [app]. apply (atom_parenthesis open close); [exact Ho | exact Hc |].
    apply U.
    + apply closes_stops. unfold closes. now rewrite Hc.
    + apply comma_loop_stop. cbn [Peek]. rewrite Hc. discriminate.
  - (* binary operator *)
    intros tok op a ta b tb Ht _ (_ & Ba & _) _ Hb.
    pose proof (precedence_of_bounds op) as Hop.
    apply parses_binary; [exact Hop|].
    intros q rest e' r' Hq Hs Hl. rewrite <- app_assoc. cbn [app].
    apply Ba; [lia | exact Hq | |].
    + unfold stops_binary. cbn [Peek].
      rewrite Ht, binary_operator_token_of. lia.
    + apply (binary_loop_step q a _ rest r' op (precedence_of op) b).
      * cbn [Peek]. now rewrite Ht, binary_operator_token_of.
      * exact Hq.
      * cbn [tl]. apply parses_operand; [lia | exact Hb | exact Hs].
      * exact Hl.
  - (* ternary *)
    intros question colon c tc a ta b tb Hq Hc _ Pc _ (_ & _ & Ta & _)
      _ (_ & _ & Tb & _).
    apply parses_ternary; [lia|]. intros rest Hs.
    rewrite <- app_assoc. cbn [app]. rewrite <- app_assoc. cbn [app].
    apply (ternary_conditional _ (question :: ta ++ colon :: tb ++ rest)
             (colon :: tb ++ rest) (tb ++ rest)).
    + apply (parses_operand 4); [lia | exact Pc |].
      now apply question_stops.
    + exact Hq.
    + cbn [tl]. apply Ta; [lia|]. apply closes_stops.
      unfold closes. now rewrite Hc.
    + cbn [expect]. now rewrite Hc.
    + now apply Tb.
  - (* comma *)
    intros comma a ta b tb Hc _ (_ & _ & _ & Ua) _ (_ & _ & Tb & _).
    repeat split; try (intros; lia).
    intros rest e' r' Hs Hl. rewrite <- app_assoc. cbn [app].
    apply Ua.
    + apply closes_stops. unfold closes. now rewrite Hc.
    + apply (comma_loop_step a _ rest r' b).
      * exact Hc.
      * cbn [tl]. now apply Tb.
      * exact Hl.
  - (* looser *)
    intros p q e toks Hpq _ IH. now apply (parses_looser p).
  - (* no argument *)
    intros close Hc rest. cbn [app].
    now apply (arguments_none (close :: rest)).
  - (* the last argument *)
    intros close a ta Hc Ha (_ & _ & T & _) rest.
    rewrite <- app_assoc. cbn [app].
    apply (arguments_last _ (close :: rest)).
    + now apply opens_not_closing, (written_opens 5 a).
    + apply T; [lia|]. apply closes_stops. unfold closes. now rewrite Hc.
    + exact Hc.
  - (* more arguments *)
    intros comma a ta b l toks Hc Ha (_ & _ & T & _) Hl IH rest.
    rewrite <- app_assoc. cbn [app].
    apply (arguments_more _ (comma :: toks ++ rest)).
    + now apply opens_not_closing, (written_opens 5 a).
    + apply T; [lia|]. apply closes_stops. unfold closes. now rewrite Hc.
    + exact Hc.
    + cbn [tl]. now apply opens_not_closing, (written_arguments_open b l).
    + cbn [tl]. apply IH.
Qed.

(** With the fuel [ParseTokens] gives. *)
Lemma toplevel_fuel (toks : list Token) e r :
  toplevel toks e r -> ParseToplevel (fuel_for (size toks)) toks = Ok e r.
Proof.
  intros [f Hf]. pose proof (ParseTokens_fuel toks) as HF.
  destruct (Nat.le_gt_cases f (fuel_for (size toks))) as [Hle|Hgt].
  - destruct (raise f _ Hle) as (_ & _ & _ & _ & _ & _ & RP). now apply RP.
  - destruct (parser_agrees (fuel_for (size toks)) f)
      as (_ & _ & _ & _ & _ & _ & IP); [lia|].
    rewrite <- Hf. symmetry. now apply IP.
Qed.

Lemma without_comment (toks : list Token) :
  Forall (fun tok => is_comment tok = false) toks ->
  filter (fun tok => negb (is_comment tok)) toks = toks.
Proof.
  induction 1 as [|tok toks Ht _ IH]; [reflexivity|].
  rewrite filter_cons_True; [now rewrite IH|]. now rewrite Ht.
Qed.

(** The tokens of a written expression, then the end of the string: the
    parser answers the expression. *)
Lemma written_ParseTokens (p : nat) e (toks : list Token) (tok : Token) :
  written p e toks -> type tok = TOK_END_OF_STRING ->
  ParseTokens (toks ++ [tok]) = MakeSuccessfulResult e.
Proof.
  intros Hw Ht. unfold ParseTokens.
  rewrite without_comment.
  2:{ apply List.Forall_app. split.
      - now apply (proj1 written_without_comment p e).
      - apply List.Forall_cons; [|apply List.Forall_nil].
        unfold is_comment. now rewrite Ht. }
  destruct (opens_not_closing _ (written_opens p e toks Hw [tok]))
    as [_ ->].
  destruct (proj1 written_parses p e toks Hw) as (_ & _ & _ & U).
  rewrite (toplevel_fuel (toks ++ [tok]) e [tok]).
  - cbn [Peek]. now rewrite Ht.
  - apply U.
    + apply closes_stops. unfold closes. now rewrite Ht.
    + apply comma_loop_stop. cbn [Peek]. rewrite Ht. discriminate.
Qed.

(** *** The fewest parentheses are enough *)

Lemma within_written (p : nat) e (toks : list Token) :
  written (level e) e toks -> written p e (within p e toks).
Proof.
  intros H. unfold within. destruct (Nat.leb_spec (level e) p) as [Hl|Hl].
  - now apply (written_looser (level e)).
  - apply (written_looser 0); [lia|].
    now apply (written_parenthesis _ _ (level e)).
Qed.

Lemma render_written (e : Expression) : written (level e) e (render e).
Proof.
  induction e as [x|name|name|op a IHa|op a b IHa IHb|c a b IHc IHa IHb
                 |node name l IH|a b IHa IHb] using Expression_induction.
  - exact (written_literal (mkToken TOK_LITERAL 0 1 (Number x)) eq_refl).
  - exact (written_control (mkToken TOK_CONTROL 0 1 (Text name)) eq_refl).
  - exact (written_variable (mkToken TOK_VARIABLE 0 1 (Text name)) eq_refl).
  - cbn [render level]. apply written_unary; [reflexivity|].
    now apply within_written.
  - cbn [render level]. apply written_binary; [reflexivity| |];
      now apply within_written.
  - cbn [render level]. apply written_conditional; try reflexivity;
      now apply within_written.
  - rewrite render_FunctionCall. cbn [level].
    apply (written_call (mkToken TOK_BAREWORD node 1 (Text name))
             (sym TOK_LPAREN)); try reflexivity.
    induction IH as [|a rest Ha _ IHrest].
    + now apply written_no_argument.
    + cbn [render_args]. destruct rest as [|b rest].
      * apply written_last_argument; [reflexivity|].
        now apply within_written.
      * apply written_more_arguments; [reflexivity| |exact IHrest].
        now apply within_written.
  - cbn [render level]. apply written_comma; [reflexivity| |].
    + apply (written_looser (level a)); [|exact IHa].
      destruct a; cbn [level]; try lia.
      pose proof (precedence_of_bounds op). lia.
    + now apply within_written.
Qed.

Lemma level_bound (e : Expression) : (level e <= 6)%nat.
Proof.
  destruct e; cbn [level]; try lia.
  pose proof (precedence_of_bounds op). lia.
Qed.

End PrecedenceProperties.

(** ** Parsing and evaluation *)

Module LanguageProperties.
Import Parser Evaluator.

Definition literal_token (x : ControlState) (pos : Z) : Token :=
  mkToken TOK_LITERAL pos 1 (Number x).

Definition operator_token (t : TokenType) (pos : Z) : Token :=
  mkToken t pos 1 NoValue.

Definition end_token (pos : Z) : Token :=
  mkToken TOK_END_OF_STRING pos 0 NoValue.

(** [x t1 y t2 z], as the lexer gives it. *)
Definition two_operators (x y z : ControlState) (t1 t2 : TokenType)
    : list Token :=
  [literal_token x 0; operator_token t1 2; literal_token y 4;
   operator_token t2 6; literal_token z 8; end_token 9].

(** How [x op1 y op2 z] groups: to the right when the second operator
    binds tighter, to the left otherwise. *)
Definition grouping (op1 op2 : BinaryOperator) (level1 level2 : nat)
    (x y z : ControlState) : Expression :=
  if (level2 <? level1)%nat
  then BinaryOp op1 (Literal x) (BinaryOp op2 (Literal y) (Literal z))
  else BinaryOp op2 (BinaryOp op1 (Literal x) (Literal y)) (Literal z).

Lemma binary_operator_tokens (t : TokenType) op level :
  binary_operator t = Some (op, level) ->
  In (t, op, level)
    [(TOK_MUL, OpMul, 1%nat); (TOK_DIV, OpDiv, 1%nat); (TOK_MOD, OpMod, 1%nat);
     (TOK_ADD, OpAdd, 2%nat); (TOK_SUB, OpSub, 2%nat);
     (TOK_GTHAN, OpGthan, 3%nat); (TOK_LTHAN, OpLthan, 3%nat);
     (TOK_AND, OpAnd, 4%nat); (TOK_XOR, OpXor, 4%nat); (TOK_OR, OpOr, 4%nat)].
Proof.
  destruct t; simpl; try discriminate; intros [= <- <-]; simpl; tauto.
Qed.

(** Two binary operators in a row are grouped by their levels, whatever
    the operators and the operands. *)
Lemma two_operators_grouping (x y z : ControlState) (t1 t2 : TokenType)
    op1 level1 op2 level2 :
  binary_operator t1 = Some (op1, level1) ->
  binary_operator t2 = Some (op2, level2) ->
  ParseTokens (two_operators x y z t1 t2)
  = MakeSuccessfulResult (grouping op1 op2 level1 level2 x y z).
Proof.
  intros H1 H2.
  apply binary_operator_tokens in H1. apply binary_operator_tokens in H2.
  simpl in H1, H2.
  repeat (destruct H1 as [H1 | H1]; [injection H1 as <- <- <-|]);
    [..|contradiction];
    repeat (destruct H2 as [H2 | H2]; [injection H2 as <- <- <-|]);
    try contradiction; reflexivity.
Qed.

Definition tree (text : string) : option Expression :=
  expr (ParseExpression text).

Definition num (z : Z) : Expression := Literal (Lexer.float_of_Z z).

Section WithFunctions.

Variable S : Type.
Variable table : string -> option (Function S).

Lemma evaluate_text_tree (text : string) e (env : Environment S) :
  tree text = Some e ->
  evaluate_text table text env = Some (GetState table e env).
Proof. unfold tree, evaluate_text. now intros ->. Qed.

(** The ternary evaluates the condition, then one branch. *)
Lemma GetState_Conditional c a b (env : Environment S) :
  GetState table (Conditional c a b) env
  = if is_true (fst (GetState table c env))
    then GetState table a (snd (GetState table c env))
    else GetState table b (snd (GetState table c env)).
Proof. simpl. destruct (GetState table c env). reflexivity. Qed.

End WithFunctions.

(** The trees of the texts used below. *)
Lemma tree_precedence :
  tree "1 + 2 * 3"
  = Some (BinaryOp OpAdd (Literal 1) (BinaryOp OpMul (Literal 2) (Literal 3)))
  /\ tree "(1 + 2) * 3"
     = Some (BinaryOp OpMul (BinaryOp OpAdd (Literal 1) (Literal 2))
               (Literal 3)).
Proof. split; vm_compute; reflexivity. Qed.

Lemma tree_short_circuit :
  tree "1 ? 5 : (1/0)"
  = Some (Conditional (Literal 1) (Literal 5)
            (BinaryOp OpDiv (Literal 1) (Literal 0))).
Proof. vm_compute; reflexivity. Qed.

(** C7. "1 + 2 * 3" evaluates to 7 and "(1 + 2) * 3" to 9, with any
    function table and in any environment. Of two binary operators in a
    row the one of the tighter level groups first, and equal levels group
    to the left, the levels being [* / %], then [+ -], then [> <], then
    [& ^ |]. A call binds tighter than a unary operator, a unary operator
    tighter than any binary one, every binary operator tighter than the
    ternary, the ternary tighter than the comma, and parentheses hold a
    whole comma sequence. In general: whatever tokens are an expression
    by the grammar of this order ([PrecedenceProperties.written]: call
    and unary operators, then [* / %], [+ -], [> <], [& ^ |], the
    ternary, the comma sequence, with anything in parentheses an
    operand), the parser answers that expression, from the tokens and
    from a text the lexer reads as these tokens; and every expression
    tree is so written with parentheses around exactly the operands
    looser than their place allows
    ([PrecedenceProperties.render]), and is parsed back from there. *)
Theorem parser_honors_precedence :
  (forall S (table : string -> option (Function S)) (env : Environment S),
     evaluate_text table "1 + 2 * 3" env = Some (7%float, env)
     /\ evaluate_text table "(1 + 2) * 3" env = Some (9%float, env))
  /\ (forall x y z t1 t2 op1 level1 op2 level2,
        binary_operator t1 = Some (op1, level1) ->
        binary_operator t2 = Some (op2, level2) ->
        expr (ParseTokens (two_operators x y z t1 t2))
        = Some (if (level2 <? level1)%nat
                then BinaryOp op1 (Literal x)
                       (BinaryOp op2 (Literal y) (Literal z))
                else BinaryOp op2
                       (BinaryOp op1 (Literal x) (Literal y)) (Literal z)))
  /\ map binary_operator
       [TOK_MUL; TOK_DIV; TOK_MOD; TOK_ADD; TOK_SUB; TOK_GTHAN; TOK_LTHAN;
        TOK_AND; TOK_XOR; TOK_OR]
     = [Some (OpMul, 1%nat); Some (OpDiv, 1%nat); Some (OpMod, 1%nat);
        Some (OpAdd, 2%nat); Some (OpSub, 2%nat);
        Some (OpGthan, 3%nat); Some (OpLthan, 3%nat);
        Some (OpAnd, 4%nat); Some (OpXor, 4%nat); Some (OpOr, 4%nat)]
  /\ tree "-f(1) * 2"
     = Some (BinaryOp OpMul
               (UnaryOp OpNeg (FunctionCall 1 "f" [Literal 1])) (Literal 2))
  /\ tree "!1 | 2"
     = Some (BinaryOp OpOr (UnaryOp OpNot (Literal 1)) (Literal 2))
  /\ tree "1 | 2 ? 3 : 4"
     = Some (Conditional (BinaryOp OpOr (Literal 1) (Literal 2))
               (Literal 3) (Literal 4))
  /\ tree "1 ? 2 : 3 | 4"
     = Some (Conditional (Literal 1) (Literal 2)
               (BinaryOp OpOr (Literal 3) (Literal 4)))
  /\ tree "1 ? 2 : 3, 4"
     = Some (CommaSequence
               (Conditional (Literal 1) (Literal 2) (Literal 3)) (Literal 4))
  /\ tree "1, 2 ? 3 : 4"
     = Some (CommaSequence (Literal 1)
               (Conditional (Literal 2) (Literal 3) (Literal 4)))
  /\ tree "(1, 2 ? 3 : 4) * 5"
     = Some (BinaryOp OpMul
               (CommaSequence (Literal 1)
                  (Conditional (Literal 2) (Literal 3) (Literal 4)))
               (Literal 5))
  /\ (forall p e toks tok,
        PrecedenceProperties.written p e toks ->
        type tok = TOK_END_OF_STRING ->
        ParseTokens (toks ++ [tok]) = MakeSuccessfulResult e)
  /\ (forall text p e toks tok,
        Lexer.Tokenize text = (toks ++ [tok], Successful) ->
        type tok = TOK_END_OF_STRING ->
        PrecedenceProperties.written p e toks ->
        tree text = Some e)
  /\ (forall e,
        PrecedenceProperties.written (PrecedenceProperties.level e) e
          (PrecedenceProperties.render e))
  /\ (forall e,
        ParseTokens
          (PrecedenceProperties.render e
           ++ [PrecedenceProperties.sym TOK_END_OF_STRING])
        = MakeSuccessfulResult e).
Proof.
  split.
  { intros S table env. destruct tree_precedence as [T1 T2].
    rewrite (evaluate_text_tree S table _ _ env T1).
    rewrite (evaluate_text_tree S table _ _ env T2).
    split; reflexivity. }
  split.
  { intros x y z t1 t2 op1 level1 op2 level2 H1 H2.
    rewrite (two_operators_grouping x y z t1 t2 _ _ _ _ H1 H2).
    reflexivity. }
  do 8 (split; [vm_compute; reflexivity|]).
  split.
  { intros p e toks tok Hw Ht.
    now apply (PrecedenceProperties.written_ParseTokens p). }
  split.
  { intros text p e toks tok Hl Ht Hw. unfold tree, ParseExpression.
    rewrite Hl.
    now rewrite (PrecedenceProperties.written_ParseTokens p e toks tok). }
  split.
  { apply PrecedenceProperties.render_written. }
  intros e.
  apply (PrecedenceProperties.written_ParseTokens
           (PrecedenceProperties.level e)); [|reflexivity].
  apply PrecedenceProperties.render_written.
Qed.

(** One evaluation of a text with the small function table, from the
    empty environment: the value and the node states left behind. *)
Definition run_text (text : string)
    : option (ControlState * list (Z * (bool * bool))) :=
  match evaluate_text basic_functions text empty_environment with
  | Some (x, env) => Some (x, map_to_list (node_states env))
  | None => None
  end.

(** C6. "1 ? 5 : (1/0)" evaluates to 5, with any function table and in
    any environment, which it leaves as it was. In general a ternary
    whose condition is true has the value and the effects of condition
    then first branch, whatever the other branch is, and likewise for a
    false condition; so a stateful call in the branch not selected does
    not run: [toggle] in the unselected branch leaves no node state, in
    the selected branch it does. *)
Theorem ternary_evaluates_selected_branch_only :
  (forall S (table : string -> option (Function S)) (env : Environment S),
     evaluate_text table "1 ? 5 : (1/0)" env = Some (5%float, env))
  /\ (forall S (table : string -> option (Function S)) c a b b'
        (env : Environment S),
        is_true (fst (GetState table c env)) = true ->
        GetState table (Conditional c a b) env
        = GetState table a (snd (GetState table c env))
        /\ GetState table (Conditional c a b) env
           = GetState table (Conditional c a b') env)
  /\ (forall S (table : string -> option (Function S)) c a a' b
        (env : Environment S),
        is_true (fst (GetState table c env)) = false ->
        GetState table (Conditional c a b) env
        = GetState table b (snd (GetState table c env))
        /\ GetState table (Conditional c a b) env
           = GetState table (Conditional c a' b) env)
  /\ run_text "1 ? 5 : toggle(1)" = Some (5%float, [])
  /\ run_text "0 ? 5 : toggle(1)" = Some (1%float, [(8, (true, true))]).
Proof.
  split.
  { intros S table env.
    rewrite (evaluate_text_tree S table _ _ env tree_short_circuit).
    reflexivity. }
  split.
  { intros S table c a b b' env Hc.
    rewrite !GetState_Conditional, Hc. split; reflexivity. }
  split.
  { intros S table c a a' b env Hc.
    rewrite !GetState_Conditional, Hc. split; reflexivity. }
  split; vm_compute; reflexivity.
Qed.

End LanguageProperties.

(** ** The input detector *)

Module InputDetectorProperties.
Import InputDetector.

(** [a] may stand right before [b] in the results. *)
Definition before (a b : Detection) : Prop := ranks_before a b = true.

(** Of two detections one ranks before the other. *)
Lemma ranks_before_total (a b : Detection) :
  ranks_before a b = false -> ranks_before b a = true.
Proof.
  unfold ranks_before.
  destruct (confidence b <? confidence a)%float; [discriminate|].
  destruct (confidence a <? confidence b)%float; [reflexivity|].
  intros H. apply Z.leb_gt in H. apply Z.leb_le. lia.
Qed.

(** What the order says: never a lower confidence first and, unless the
    confidence is higher, the earlier detection first. *)
Lemma ranks_before_meaning (a b : Detection) :
  ranks_before a b = true ->
  (confidence b <? confidence a)%float = true
  \/ ((confidence a <? confidence b)%float = false /\ time a <= time b).
Proof.
  unfold ranks_before.
  destruct (confidence b <? confidence a)%float; [now left|].
  destruct (confidence a <? confidence b)%float; [discriminate|].
  intros H. right. split; [reflexivity|]. now apply Z.leb_le.
Qed.

Lemma insert_ranked_perm (a : Detection) (l : list Detection) :
  Permutation (insert_ranked a l) (a :: l).
Proof.
  induction l as [|b l IH]; simpl; [reflexivity|].
  destruct (ranks_before a b); [reflexivity|].
  rewrite IH. apply perm_swap.
Qed.

Lemma rank_perm (l : list Detection) : Permutation (rank l) l.
Proof.
  induction l as [|a l IH]; simpl; [reflexivity|].
  rewrite insert_ranked_perm. now constructor.
Qed.

Lemma insert_ranked_HdRel (a c : Detection) (l : list Detection) :
  before c a -> HdRel before c l -> HdRel before c (insert_ranked a l).
Proof.
  intros Hca Hl. destruct l as [|b l]; simpl; [now constructor|].
  destruct (ranks_before a b); constructor; [exact Hca|].
  now inversion Hl.
Qed.

Lemma insert_ranked_sorted (a : Detection) (l : list Detection) :
  Sorted before l -> Sorted before (insert_ranked a l).
Proof.
  induction 1 as [|b l Hs IH Hb]; simpl.
  - repeat constructor.
  - destruct (ranks_before a b) eqn:E.
    + constructor; [now constructor|]. now constructor.
    + constructor; [exact IH|].
      apply insert_ranked_HdRel; [|exact Hb].
      now apply ranks_before_total.
Qed.

Lemma rank_sorted (l : list Detection) : Sorted before (rank l).
Proof.
  induction l as [|a l IH]; simpl; [constructor|].
  now apply insert_ranked_sorted.
Qed.

(** No [double] is less than itself. *)
Lemma ltb_irrefl (x : ControlState) : (x <? x)%float = false.
Proof.
  rewrite ltb_spec. unfold SFltb.
  destruct (Prim2SF x) as [s|s| |s m e]; simpl; try reflexivity.
  - destruct s; reflexivity.
  - rewrite Z.compare_refl, Pos.compare_cont_refl. destruct s; reflexivity.
Qed.

(** With one confidence the order is the order of detection. *)
Definition same_confidence (c : ControlState) (r : Detection) : Prop :=
  confidence r = c.

Definition no_later (a b : Detection) : Prop := time a <= time b.

Lemma ranks_before_same_confidence (c : ControlState) (a b : Detection) :
  same_confidence c a -> same_confidence c b ->
  ranks_before a b = (time a <=? time b).
Proof.
  unfold same_confidence, ranks_before. intros -> ->.
  now rewrite ltb_irrefl.
Qed.

Lemma insert_ranked_same_confidence c (a : Detection) (l : list Detection) :
  same_confidence c a -> Forall (same_confidence c) l ->
  Forall (same_confidence c) (insert_ranked a l).
Proof.
  intros Ha Hl. induction Hl as [|b l Hb Hl IH]; simpl.
  - constructor; [exact Ha | constructor].
  - destruct (ranks_before a b).
    + constructor; [exact Ha|]. constructor; assumption.
    + constructor; assumption.
Qed.

Lemma insert_ranked_no_later (a x : Detection) (l : list Detection) :
  no_later x a -> Forall (no_later x) l ->
  Forall (no_later x) (insert_ranked a l).
Proof.
  intros Hxa Hl. induction Hl as [|b l Hb Hl IH]; simpl.
  - constructor; [exact Hxa | constructor].
  - destruct (ranks_before a b).
    + constructor; [exact Hxa|]. constructor; assumption.
    + constructor; assumption.
Qed.

Lemma insert_ranked_by_time c (a : Detection) (l : list Detection) :
  same_confidence c a -> Forall (same_confidence c) l ->
  StronglySorted no_later l -> StronglySorted no_later (insert_ranked a l).
Proof.
  intros Ha Hc Hs. induction Hs as [|b l Hs IH Hb]; simpl.
  - constructor; constructor.
  - apply List.Forall_cons_iff in Hc. destruct Hc as [Hcb Hc].
    rewrite (ranks_before_same_confidence c a b Ha Hcb).
    destruct (Z.leb_spec (time a) (time b)) as [Hle|Hgt].
    + constructor; [now constructor|].
      constructor; [exact Hle|].
      apply (List.Forall_impl (P := no_later b)); [|exact Hb].
      unfold no_later. intros r. lia.
    + constructor; [now apply IH|].
      apply insert_ranked_no_later; [unfold no_later; lia | exact Hb].
Qed.

Lemma rank_by_time c (l : list Detection) :
  Forall (same_confidence c) l ->
  Forall (same_confidence c) (rank l) /\ StronglySorted no_later (rank l).
Proof.
  intros Hc. induction Hc as [|a l Ha Hc [IHc IHs]]; simpl.
  - split; constructor.
  - split.
    + now apply insert_ranked_same_confidence.
    + now apply (insert_ranked_by_time c).
Qed.

(** The detector has nothing left after [TakeResults]. *)
Lemma TakeResults_drains (d : t) :
  detections (snd (TakeResults d)) = []
  /\ fst (TakeResults (snd (TakeResults d))) = [].
Proof. split; reflexivity. Qed.

(** The scenario of the specification: baseline 0 for both controls,
    ctrl2 sampled at 1 at 100 ms, then ctrl1 sampled at 1 at 50 ms. *)
Definition scenario (threshold : ControlState) : t :=
  let d0 := Start 0 [("ctrl1"%string, 0%float); ("ctrl2"%string, 0%float)]
              create in
  let d1 := Update threshold INPUT_DETECT_TIME 100
              [("ctrl2"%string, 1%float)] d0 in
  let d2 := Update threshold INPUT_DETECT_TIME 50
              [("ctrl1"%string, 1%float)] d1 in
  Cancel d2.

End InputDetectorProperties.

(** ** The dialog *)

Section DialogProperties.

Context {R C : Type}.
Context {reference_ops : ControlReferenceOps R}.
Context {controller_ops : EmulatedControllerOps C R}.
Context {editor_ops : QPlainTextEditOps}.

(** The confidence threshold of the input detector. *)
Variable threshold : ControlState.

Implicit Types w : @IOWindow R C.

(** What the slot of [TestOutputComplete] leaves alone. *)
Lemma on_TestOutputComplete_frame w :
  let w' := on_TestOutputComplete w in
  m_reference w' = m_reference w
  /\ m_controller w' = m_controller w
  /\ m_original_expression w' = m_original_expression w
  /\ m_expression_text w' = m_expression_text w
  /\ m_parse_text w' = m_parse_text w
  /\ m_variables_combo w' = m_variables_combo w
  /\ m_scalar_spinbox w' = m_scalar_spinbox w
  /\ widgets_connected w' = widgets_connected w
  /\ signals_blocked w' = signals_blocked w
  /\ warnings w' = warnings w
  /\ result w' = result w.
Proof. repeat split. Qed.

Lemma emit_TestOutputComplete_frame w :
  let w' := emit_TestOutputComplete w in
  m_reference w' = m_reference w
  /\ m_controller w' = m_controller w
  /\ m_original_expression w' = m_original_expression w
  /\ m_expression_text w' = m_expression_text w
  /\ m_parse_text w' = m_parse_text w
  /\ m_variables_combo w' = m_variables_combo w
  /\ m_scalar_spinbox w' = m_scalar_spinbox w
  /\ widgets_connected w' = widgets_connected w
  /\ signals_blocked w' = signals_blocked w
  /\ warnings w' = warnings w
  /\ result w' = result w.
Proof.
  unfold emit_TestOutputComplete. destruct (delivers w); repeat split.
Qed.

Lemma emit_TestOutputComplete_reference w :
  m_reference (emit_TestOutputComplete w) = m_reference w.
Proof. apply emit_TestOutputComplete_frame. Qed.

(** After the signal is delivered the timer is stopped and 0 is the last
    value written. *)
Lemma emit_TestOutputComplete_stops w :
  delivers w = true ->
  m_output_test_timer (emit_TestOutputComplete w) = false
  /\ state_written (emit_TestOutputComplete w) = 0%float :: state_written w.
Proof.
  intros Hd. unfold emit_TestOutputComplete. rewrite Hd. split; reflexivity.
Qed.

(** The early return of [UpdateExpression]. *)
Lemma UpdateExpression_same_text w :
  UpdateExpression (GetExpression (m_reference w)) Normal w
  = emit_TestOutputComplete w.
Proof.
  unfold UpdateExpression.
  rewrite emit_TestOutputComplete_reference, String.eqb_refl.
  reflexivity.
Qed.

(** The other branch: the reference is recompiled and the status line
    rewritten from the outcome. *)
Lemma UpdateExpression_recompiles w (new_expression : string) mode :
  mode = Force \/ new_expression <> GetExpression (m_reference w) ->
  let outcome := SetExpression new_expression (m_reference w) in
  let w' := UpdateExpression new_expression mode w in
  m_reference w' = snd outcome
  /\ m_parse_text w'
     = parse_text_for (fst outcome) (GetParseStatus (snd outcome))
         (m_parse_text w).
Proof.
  intros Hmode. cbv zeta. unfold UpdateExpression.
  destruct (emit_TestOutputComplete_frame w)
    as (Hr & _ & _ & _ & Hp & _).
  rewrite Hr.
  assert (Hgo : negb match mode with Force => true | Normal => false end
                && String.eqb new_expression (GetExpression (m_reference w))
                = false).
  { destruct Hmode as [-> | Hne]; [reflexivity|].
    apply String.eqb_neq in Hne. rewrite Hne. apply andb_false_r. }
  rewrite Hgo.
  destruct (SetExpression new_expression (m_reference w)) as [error ref].
  simpl. now rewrite Hp.
Qed.

(** What [UpdateExpression] leaves alone on both branches. *)
Lemma UpdateExpression_frame w (new_expression : string) mode :
  let w' := UpdateExpression new_expression mode w in
  m_original_expression w' = m_original_expression w
  /\ m_expression_text w' = m_expression_text w
  /\ m_scalar_spinbox w' = m_scalar_spinbox w
  /\ widgets_connected w' = widgets_connected w
  /\ signals_blocked w' = signals_blocked w
  /\ warnings w' = warnings w
  /\ result w' = result w
  /\ m_output_test_timer w' = m_output_test_timer (emit_TestOutputComplete w)
  /\ state_written w' = state_written (emit_TestOutputComplete w).
Proof.
  cbv zeta. unfold UpdateExpression.
  destruct (emit_TestOutputComplete_frame w)
    as (_ & _ & Ho & Ht & _ & _ & Hs & Hw & Hb & Hwarn & Hres).
  destruct (negb _ && _).
  - repeat split; assumption.
  - destruct (SetExpression _ _) as [error ref]. simpl.
    repeat split; assumption.
Qed.

(** C10. Without [Force], when the new text is the reference's current
    expression, [UpdateExpression] is the emission of [TestOutputComplete]
    and nothing else: the reference (so its parse status, tree and error)
    is the same object state, the controller and the variable list are
    untouched and the status line is not rewritten. *)
Theorem UpdateExpression_same_text_returns_early w (new_expression : string) :
  new_expression = GetExpression (m_reference w) ->
  let w' := UpdateExpression new_expression Normal w in
  w' = emit_TestOutputComplete w
  /\ m_reference w' = m_reference w
  /\ GetParseStatus (m_reference w') = GetParseStatus (m_reference w)
  /\ m_controller w' = m_controller w
  /\ m_variables_combo w' = m_variables_combo w
  /\ m_parse_text w' = m_parse_text w.
Proof.
  intros ->. cbv zeta. rewrite UpdateExpression_same_text.
  destruct (emit_TestOutputComplete_frame w)
    as (Hr & Hc & _ & _ & Hp & Hv & _).
  rewrite Hr. repeat split; assumption.
Qed.

(** C2. When [UpdateExpression] recompiles, the status line is decided by
    the outcome alone: an error text is shown with the indicator off;
    otherwise the empty expression shows nothing with the indicator off;
    otherwise a status other than [Successful] shows "Invalid Expression."
    with the indicator off; and [Successful] shows nothing with the
    indicator painted. The indicator is painted in that last case only. *)
Theorem UpdateExpression_status_line w (new_expression : string) mode :
  mode = Force \/ new_expression <> GetExpression (m_reference w) ->
  let outcome := SetExpression new_expression (m_reference w) in
  let error := fst outcome in
  let status := GetParseStatus (snd outcome) in
  let w' := UpdateExpression new_expression mode w in
  let line := m_parse_text w' in
  m_reference w' = snd outcome
  /\ (forall message, error = Some message ->
        text line = message /\ paints_state_indicator line = false)
  /\ (error = None -> status = EmptyExpression ->
        text line = EmptyString /\ paints_state_indicator line = false)
  /\ (error = None -> status <> EmptyExpression -> status <> Successful ->
        text line = "Invalid Expression."%string
        /\ paints_state_indicator line = false)
  /\ (error = None -> status = Successful ->
        text line = EmptyString /\ paints_state_indicator line = true)
  /\ (paints_state_indicator line = true ->
        error = None /\ status = Successful).
Proof.
  intros Hmode. cbv zeta.
  destruct (UpdateExpression_recompiles w new_expression mode Hmode)
    as [Href Hline].
  split; [exact Href|]. rewrite Hline. clear Href Hline.
  destruct (SetExpression new_expression (m_reference w)) as [error ref].
  cbn [fst snd]. unfold parse_text_for, paints_state_indicator.
  split; [intros message ->; split; reflexivity|].
  split; [intros -> ->; split; reflexivity|].
  split.
  { intros -> H1 H2.
    destruct (GetParseStatus ref); try congruence; split; reflexivity. }
  split; [intros -> ->; split; reflexivity|].
  destruct error; [discriminate|].
  destruct (GetParseStatus ref); try discriminate.
  intros _; split; reflexivity.
Qed.

(** C8. A button other than Clear runs [UpdateExpression] on the editor
    text, which compiles it into the reference unless the reference
    holds that text already. If the reference's status is then
    [SyntaxError], a warning is shown, the dialog stays open and the
    original expression stays; for every other status the dialog is
    accepted without a warning and the original expression becomes the
    reference's expression. *)
Theorem OnDialogButtonPressed_blocks_syntax_errors_only w :
  let w1 := UpdateExpression (m_expression_text w) Normal w in
  let w' := OnDialogButtonPressed OkButton w in
  (m_expression_text w <> GetExpression (m_reference w) ->
     m_reference w1
     = snd (SetExpression (m_expression_text w) (m_reference w)))
  /\
  (m_expression_text w = GetExpression (m_reference w) ->
     m_reference w1 = m_reference w)
  /\
  (GetParseStatus (m_reference w1) = SyntaxError ->
     result w' = result w
     /\ warnings w'
        = warnings w ++ ["The expression contains a syntax error."%string]
     /\ m_original_expression w' = m_original_expression w
     /\ m_reference w' = m_reference w1)
  /\
  (GetParseStatus (m_reference w1) <> SyntaxError ->
     result w' = Some Accepted
     /\ warnings w' = warnings w
     /\ m_original_expression w' = GetExpression (m_reference w1)
     /\ m_reference w' = m_reference w1).
Proof.
  cbv zeta.
  split.
  { intros Hne.
    apply (UpdateExpression_recompiles w (m_expression_text w) Normal).
    now right. }
  split.
  { intros ->. rewrite UpdateExpression_same_text.
    apply emit_TestOutputComplete_reference. }
  unfold OnDialogButtonPressed.
  destruct (UpdateExpression_frame w (m_expression_text w) Normal)
    as (Ho & _ & _ & _ & _ & Hwarn & Hres & _).
  set (w1 := UpdateExpression (m_expression_text w) Normal w) in *.
  split.
  - intros ->. simpl. rewrite Hwarn, Hres, Ho. repeat split.
  - intros Hne.
    set (w2 := set_m_original_expression (GetExpression (m_reference w1)) w1).
    assert (E : done Accepted w2
                = (if delivers w2
                   then emit_TestOutputComplete (set_result (Some Accepted) w2)
                   else set_result (Some Accepted) w2)).
    { unfold done, on_finished.
      change (delivers (set_result (Some Accepted) w2)) with (delivers w2).
      destruct (delivers w2); [|reflexivity].
      apply (UpdateExpression_same_text (set_result (Some Accepted) w2)). }
    assert (F : result (done Accepted w2) = Some Accepted
                /\ warnings (done Accepted w2) = warnings w
                /\ m_original_expression (done Accepted w2)
                   = GetExpression (m_reference w1)
                /\ m_reference (done Accepted w2) = m_reference w1).
    { rewrite E. destruct (delivers w2).
      - destruct (emit_TestOutputComplete_frame
                    (set_result (Some Accepted) w2))
          as (Hr' & _ & Ho' & _ & _ & _ & _ & _ & _ & Hw' & Hres').
        rewrite Hr', Ho', Hw', Hres'. simpl. now rewrite Hwarn.
      - simpl. now rewrite Hwarn. }
    destruct (GetParseStatus (m_reference w1)); try exact F. congruence.
Qed.

(** X2. Closing the dialog without the OK button reverts the
    expression: when the dialog finishes rejected, the reference is
    compiled from the original expression, or left alone if it holds that
    expression already, and the original expression stays. *)
Theorem close_without_ok_reverts w :
  delivers w = true ->
  let w' := done Rejected w in
  result w' = Some Rejected
  /\ m_original_expression w' = m_original_expression w
  /\ (m_original_expression w <> GetExpression (m_reference w) ->
      m_reference w'
      = snd (SetExpression (m_original_expression w) (m_reference w)))
  /\ (m_original_expression w = GetExpression (m_reference w) ->
      m_reference w' = m_reference w).
Proof.
  intros Hd. cbv zeta. unfold done, on_finished.
  change (delivers (set_result (Some Rejected) w)) with (delivers w).
  rewrite Hd.
  set (w0 := set_result (Some Rejected) w).
  change (m_original_expression w) with (m_original_expression w0).
  change (m_reference w) with (m_reference w0).
  destruct (UpdateExpression_frame w0 (m_original_expression w0) Normal)
    as (Ho & _ & _ & _ & _ & _ & Hres & _).
  split; [exact Hres|]. split; [exact Ho|]. split.
  - intros Hne.
    apply (UpdateExpression_recompiles w0 (m_original_expression w0) Normal).
    now right.
  - intros E. rewrite E, UpdateExpression_same_text.
    apply emit_TestOutputComplete_reference.
Qed.

(** *** The output test *)

(** [settles w w']: going from [w] to [w'] leaves the output test as it
    was, or ends it with the timer stopped and 0 written last. *)
Definition settles w w' : Prop :=
  (m_output_test_timer w' = m_output_test_timer w
   /\ state_written w' = state_written w)
  \/ (m_output_test_timer w' = false
      /\ exists l, state_written w' = 0%float :: l).

(** Nothing is driven: the timer runs, or nothing was written yet, or 0
    was written last. *)
Definition released w : Prop :=
  m_output_test_timer w = false ->
  hd_error (state_written w) = None
  \/ hd_error (state_written w) = Some 0%float.

Lemma settles_refl w : settles w w.
Proof. left. split; reflexivity. Qed.

Lemma settles_trans w1 w2 w3 : settles w1 w2 -> settles w2 w3 -> settles w1 w3.
Proof.
  intros [[T1 S1] | [T1 S1]] [[T2 S2] | [T2 S2]].
  - left. split; congruence.
  - right. split; assumption.
  - right. split; [congruence|]. destruct S1 as [l Hl]. exists l. congruence.
  - right. split; assumption.
Qed.

Lemma settles_released w w' : settles w w' -> released w -> released w'.
Proof.
  unfold released. intros [[T S] | [T [l S]]] Hw Ht.
  - rewrite S. apply Hw. congruence.
  - right. rewrite S. reflexivity.
Qed.

Lemma settles_same w w' :
  m_output_test_timer w' = m_output_test_timer w ->
  state_written w' = state_written w -> settles w w'.
Proof. intros T S. left. split; assumption. Qed.

Lemma emit_TestOutputComplete_settles w :
  settles w (emit_TestOutputComplete w).
Proof.
  unfold emit_TestOutputComplete. destruct (delivers w).
  - right. split; [reflexivity|]. eexists. reflexivity.
  - apply settles_refl.
Qed.

Lemma emit_DetectInputComplete_settles w :
  settles w (emit_DetectInputComplete w).
Proof.
  unfold emit_DetectInputComplete.
  destruct (delivers w); apply settles_same; reflexivity.
Qed.

Lemma UpdateExpression_settles w (s : string) mode :
  settles w (UpdateExpression s mode w).
Proof.
  destruct (UpdateExpression_frame w s mode)
    as (_ & _ & _ & _ & _ & _ & _ & T & S).
  apply settles_trans with (emit_TestOutputComplete w).
  - apply emit_TestOutputComplete_settles.
  - apply settles_same; assumption.
Qed.

Lemma set_expression_text_settles w (s : string) :
  settles w (set_expression_text s w).
Proof.
  unfold set_expression_text, on_textChanged.
  destruct (widgets_connected _).
  - apply settles_trans with (set_m_expression_text s w).
    + apply settles_same; reflexivity.
    + apply UpdateExpression_settles.
  - apply settles_same; reflexivity.
Qed.

Lemma OnRangeChanged_settles w (v : Z) : settles w (OnRangeChanged v w).
Proof.
  unfold OnRangeChanged.
  eapply settles_trans; [|apply emit_TestOutputComplete_settles].
  apply settles_same; reflexivity.
Qed.

Lemma spinbox_setValue_settles w (v : Z) : settles w (spinbox_setValue v w).
Proof.
  unfold spinbox_setValue. destruct (_ =? _); [apply settles_refl|].
  destruct (widgets_connected _).
  - eapply settles_trans; [|apply OnRangeChanged_settles].
    apply settles_same; reflexivity.
  - apply settles_same; reflexivity.
Qed.

Lemma done_settles w code : settles w (done code w).
Proof.
  unfold done, on_finished. destruct (delivers _).
  - eapply settles_trans; [|apply UpdateExpression_settles].
    apply settles_same; reflexivity.
  - apply settles_same; reflexivity.
Qed.

Lemma OnDialogButtonPressed_settles w button :
  settles w (OnDialogButtonPressed button w).
Proof.
  destruct button; simpl.
  - apply set_expression_text_settles.
  - eapply settles_trans; [apply UpdateExpression_settles|].
    destruct (GetParseStatus _);
      try (eapply settles_trans; [|apply done_settles]);
      apply settles_same; reflexivity.
Qed.

Lemma ConfigChanged_settles w controls : settles w (ConfigChanged controls w).
Proof.
  unfold ConfigChanged.
  set (w1 := emit_DetectInputComplete w).
  set (w2 := emit_TestOutputComplete w1).
  set (w3 := set_signals_blocked true w2).
  set (w4 := UpdateExpression _ Force w3).
  set (w5 := set_expression_text _ w4).
  set (w6 := spinbox_setValue _ w5).
  apply settles_trans with w1; [apply emit_DetectInputComplete_settles|].
  apply settles_trans with w2; [apply emit_TestOutputComplete_settles|].
  apply settles_trans with w3; [apply settles_same; reflexivity|].
  apply settles_trans with w4; [apply UpdateExpression_settles|].
  apply settles_trans with w5; [apply set_expression_text_settles|].
  apply settles_trans with w6; [apply spinbox_setValue_settles|].
  apply settles_same; reflexivity.
Qed.

(** The two flags that decide whether the dialog's signals are
    delivered. *)
Definition same_flags w w' : Prop :=
  widgets_connected w' = widgets_connected w
  /\ signals_blocked w' = signals_blocked w.

Lemma same_flags_refl w : same_flags w w.
Proof. split; reflexivity. Qed.

Lemma same_flags_trans w1 w2 w3 :
  same_flags w1 w2 -> same_flags w2 w3 -> same_flags w1 w3.
Proof. intros [A B] [A' B']. split; congruence. Qed.

Lemma emit_TestOutputComplete_flags w :
  same_flags w (emit_TestOutputComplete w).
Proof.
  unfold emit_TestOutputComplete. destruct (delivers w); split; reflexivity.
Qed.

Lemma emit_DetectInputComplete_flags w :
  same_flags w (emit_DetectInputComplete w).
Proof.
  unfold emit_DetectInputComplete. destruct (delivers w); split; reflexivity.
Qed.

Lemma UpdateExpression_flags w (s : string) mode :
  same_flags w (UpdateExpression s mode w).
Proof.
  destruct (UpdateExpression_frame w s mode)
    as (_ & _ & _ & A & B & _). split; assumption.
Qed.

Lemma set_expression_text_flags w (s : string) :
  same_flags w (set_expression_text s w).
Proof.
  unfold set_expression_text, on_textChanged.
  destruct (widgets_connected _) eqn:E; [|split; reflexivity].
  eapply same_flags_trans; [|apply UpdateExpression_flags].
  split; reflexivity.
Qed.

Lemma OnRangeChanged_flags w (v : Z) : same_flags w (OnRangeChanged v w).
Proof.
  unfold OnRangeChanged.
  eapply same_flags_trans; [|apply emit_TestOutputComplete_flags].
  split; reflexivity.
Qed.

Lemma spinbox_setValue_flags w (v : Z) : same_flags w (spinbox_setValue v w).
Proof.
  unfold spinbox_setValue. destruct (_ =? _); [apply same_flags_refl|].
  destruct (widgets_connected _).
  - eapply same_flags_trans; [|apply OnRangeChanged_flags]. split; reflexivity.
  - split; reflexivity.
Qed.

Lemma done_flags w code : same_flags w (done code w).
Proof.
  unfold done, on_finished. destruct (delivers _).
  - eapply same_flags_trans; [|apply UpdateExpression_flags].
    split; reflexivity.
  - split; reflexivity.
Qed.

Lemma OnDialogButtonPressed_flags w button :
  same_flags w (OnDialogButtonPressed button w).
Proof.
  destruct button; simpl.
  - apply set_expression_text_flags.
  - eapply same_flags_trans; [apply UpdateExpression_flags|].
    destruct (GetParseStatus _);
      try (eapply same_flags_trans; [|apply done_flags]);
      split; reflexivity.
Qed.

Lemma ConfigChanged_flags w controls : same_flags w (ConfigChanged controls w).
Proof.
  unfold ConfigChanged.
  set (w1 := emit_TestOutputComplete (emit_DetectInputComplete w)).
  assert (H1 : same_flags w w1).
  { eapply same_flags_trans; [apply emit_DetectInputComplete_flags|].
    apply emit_TestOutputComplete_flags. }
  set (w2 := UpdateExpression _ Force (set_signals_blocked true w1)).
  set (w3 := set_expression_text _ w2).
  set (w4 := spinbox_setValue _ w3).
  assert (H4 : widgets_connected w4 = widgets_connected w1).
  { transitivity (widgets_connected w3);
      [apply (proj1 (spinbox_setValue_flags _ _))|].
    transitivity (widgets_connected w2);
      [apply (proj1 (set_expression_text_flags _ _))|].
    exact (proj1 (UpdateExpression_flags _ _ _)). }
  destruct H1 as [A B]. split; simpl; congruence.
Qed.

Lemma on_test_clicked_settles_or_starts w :
  same_flags w (on_test_clicked w)
  /\ (settles w (on_test_clicked w)
      \/ m_output_test_timer (on_test_clicked w) = true).
Proof.
  unfold on_test_clicked. destruct (m_output_test_timer w).
  - split; [apply emit_TestOutputComplete_flags|].
    left. apply emit_TestOutputComplete_settles.
  - split; [split; reflexivity|]. right. reflexivity.
Qed.

Lemma on_test_timeout_ends w :
  delivers w = true ->
  same_flags w (on_test_timeout w) /\ settles w (on_test_timeout w).
Proof.
  intros Hd. unfold on_test_timeout.
  destruct (m_output_test_timer w) eqn:Ht;
    [|split; [apply same_flags_refl | apply settles_refl]].
  split.
  - eapply same_flags_trans; [|apply emit_TestOutputComplete_flags].
    split; reflexivity.
  - right.
    apply (emit_TestOutputComplete_stops (set_m_output_test_timer false w))
      in Hd as [T S].
    split; [exact T|]. eexists. exact S.
Qed.

Lemma Update_keeps_test w now sample :
  same_flags w (Update threshold now sample w)
  /\ settles w (Update threshold now sample w).
Proof.
  unfold Update. destruct (m_input_detector w) as [d|];
    [|split; [apply same_flags_refl | apply settles_refl]].
  destruct (InputDetector.IsComplete d);
    [|split; [split | apply settles_same]; reflexivity].
  destruct (InputDetector.TakeResults d) as [results d'].
  set (w1 := set_m_input_detector (Some d') w).
  assert (F : same_flags w (emit_DetectInputComplete w1)).
  { eapply same_flags_trans; [|apply emit_DetectInputComplete_flags].
    split; reflexivity. }
  assert (S : settles w (emit_DetectInputComplete w1)).
  { eapply settles_trans; [|apply emit_DetectInputComplete_settles].
    apply settles_same; reflexivity. }
  destruct results as [|front ?]; [split; assumption|].
  destruct (findItems _ _); [split; assumption|].
  split.
  - eapply same_flags_trans; [exact F|]. split; reflexivity.
  - eapply settles_trans; [exact S|]. apply settles_same; reflexivity.
Qed.

(** The invariant of an open dialog between two events. *)
Definition test_invariant w : Prop :=
  widgets_connected w = true /\ signals_blocked w = false /\ released w.

Lemma test_invariant_step w w' :
  same_flags w w' -> settles w w' -> test_invariant w -> test_invariant w'.
Proof.
  intros [A B] S (Hc & Hb & Hr).
  split; [congruence|]. split; [congruence|].
  eapply settles_released; eassumption.
Qed.

Lemma handle_test_invariant w e :
  test_invariant w -> test_invariant (handle threshold e w).
Proof.
  intros Inv. destruct e; unfold handle.
  - eapply test_invariant_step; [| |exact Inv].
    + apply set_expression_text_flags.
    + apply set_expression_text_settles.
  - eapply test_invariant_step; [| |exact Inv].
    + apply OnDialogButtonPressed_flags.
    + apply OnDialogButtonPressed_settles.
  - eapply test_invariant_step; [| |exact Inv];
      [apply done_flags | apply done_settles].
  - eapply test_invariant_step; [| |exact Inv];
      [apply spinbox_setValue_flags | apply spinbox_setValue_settles].
  - destruct (on_test_clicked_settles_or_starts w) as [F [S | T]].
    + eapply test_invariant_step; eassumption.
    + destruct Inv as (Hc & Hb & _), F as [A B].
      split; [congruence|]. split; [congruence|].
      intros Hf. congruence.
  - destruct Inv as (Hc & Hb & Hr).
    destruct (on_test_timeout_ends w) as [F S].
    { unfold delivers. now rewrite Hc, Hb. }
    eapply test_invariant_step; [exact F | exact S |].
    split; [|split]; assumption.
  - eapply test_invariant_step; [| |exact Inv];
      [split | apply settles_same]; reflexivity.
  - unfold on_detect_start_timeout.
    destruct (input_detect_start_timer w); [|exact Inv].
    eapply test_invariant_step; [| |exact Inv];
      [split | apply settles_same]; reflexivity.
  - destruct (Update_keeps_test w now sample) as [F S].
    eapply test_invariant_step; eassumption.
  - eapply test_invariant_step; [| |exact Inv];
      [apply ConfigChanged_flags | apply ConfigChanged_settles].
  - eapply test_invariant_step; [| |exact Inv];
      [split | apply settles_same]; reflexivity.
Qed.

Lemma ConnectWidgets_test_invariant w :
  signals_blocked w = false -> released w -> test_invariant (ConnectWidgets w).
Proof.
  intros Hb Hr. split; [reflexivity|]. split; [exact Hb|]. exact Hr.
Qed.

Lemma CreateMainLayout_released (ref : R) (controller : C) type :
  released (CreateMainLayout ref controller type).
Proof. intros _. left. reflexivity. Qed.

Lemma construct_test_invariant (ref : R) (controller : C) type controls :
  test_invariant (construct ref controller type controls).
Proof.
  unfold construct. apply ConnectWidgets_test_invariant.
  - rewrite (proj2 (ConfigChanged_flags _ controls)). reflexivity.
  - eapply settles_released; [apply ConfigChanged_settles|].
    apply CreateMainLayout_released.
Qed.

Lemma run_test_invariant events w :
  test_invariant w -> test_invariant (run threshold events w).
Proof.
  unfold run. revert w.
  induction events as [|e events IH]; intros w Inv; simpl; [exact Inv|].
  apply IH, handle_test_invariant, Inv.
Qed.

(** *** What every dialog keeps *)

(** The kind of the dialog and the bounds of the spin box. *)
Definition same_layout w w' : Prop :=
  m_type w' = m_type w
  /\ minimum (m_scalar_spinbox w') = minimum (m_scalar_spinbox w)
  /\ maximum (m_scalar_spinbox w') = maximum (m_scalar_spinbox w).

Lemma same_layout_refl w : same_layout w w.
Proof. repeat split. Qed.

Lemma same_layout_trans w1 w2 w3 :
  same_layout w1 w2 -> same_layout w2 w3 -> same_layout w1 w3.
Proof. intros (A & B & D) (A' & B' & D'). repeat split; congruence. Qed.

(** Steps that neither touch the kind nor the spin box. *)
Lemma same_layout_same w w' :
  m_type w' = m_type w -> m_scalar_spinbox w' = m_scalar_spinbox w ->
  same_layout w w'.
Proof. intros A B. unfold same_layout. rewrite A, B. repeat split. Qed.

Lemma emit_TestOutputComplete_layout w :
  same_layout w (emit_TestOutputComplete w).
Proof.
  unfold emit_TestOutputComplete.
  destruct (delivers w); apply same_layout_same; reflexivity.
Qed.

Lemma emit_DetectInputComplete_layout w :
  same_layout w (emit_DetectInputComplete w).
Proof.
  unfold emit_DetectInputComplete.
  destruct (delivers w); apply same_layout_same; reflexivity.
Qed.

Lemma UpdateExpression_layout w (s : string) mode :
  same_layout w (UpdateExpression s mode w).
Proof.
  unfold UpdateExpression.
  pose proof (emit_TestOutputComplete_layout w) as H.
  destruct (negb _ && _); [exact H|].
  destruct (SetExpression _ _) as [error ref].
  eapply same_layout_trans; [exact H|].
  apply same_layout_same; reflexivity.
Qed.

Lemma set_expression_text_layout w (s : string) :
  same_layout w (set_expression_text s w).
Proof.
  unfold set_expression_text, on_textChanged.
  destruct (widgets_connected _); [|apply same_layout_same; reflexivity].
  eapply same_layout_trans; [|apply UpdateExpression_layout].
  apply same_layout_same; reflexivity.
Qed.

Lemma OnRangeChanged_layout w (v : Z) : same_layout w (OnRangeChanged v w).
Proof.
  unfold OnRangeChanged.
  eapply same_layout_trans; [|apply emit_TestOutputComplete_layout].
  apply same_layout_same; reflexivity.
Qed.

Lemma spinbox_setValue_layout w (v : Z) :
  same_layout w (spinbox_setValue v w).
Proof.
  unfold spinbox_setValue. destruct (_ =? _); [apply same_layout_refl|].
  destruct (widgets_connected _).
  - eapply same_layout_trans; [|apply OnRangeChanged_layout].
    repeat split.
  - repeat split.
Qed.

Lemma done_layout w code : same_layout w (done code w).
Proof.
  unfold done, on_finished. destruct (delivers _).
  - eapply same_layout_trans; [|apply UpdateExpression_layout].
    apply same_layout_same; reflexivity.
  - apply same_layout_same; reflexivity.
Qed.

Lemma OnDialogButtonPressed_layout w button :
  same_layout w (OnDialogButtonPressed button w).
Proof.
  destruct button; simpl.
  - apply set_expression_text_layout.
  - eapply same_layout_trans; [apply UpdateExpression_layout|].
    destruct (GetParseStatus _);
      try (eapply same_layout_trans; [|apply done_layout]);
      apply same_layout_same; reflexivity.
Qed.

Lemma ConfigChanged_layout w controls :
  same_layout w (ConfigChanged controls w).
Proof.
  unfold ConfigChanged.
  set (w1 := emit_DetectInputComplete w).
  set (w2 := emit_TestOutputComplete w1).
  set (w3 := set_signals_blocked true w2).
  set (w4 := UpdateExpression _ Force w3).
  set (w5 := set_expression_text _ w4).
  set (w6 := spinbox_setValue _ w5).
  apply same_layout_trans with w1; [apply emit_DetectInputComplete_layout|].
  apply same_layout_trans with w2; [apply emit_TestOutputComplete_layout|].
  apply same_layout_trans with w3; [apply same_layout_same; reflexivity|].
  apply same_layout_trans with w4; [apply UpdateExpression_layout|].
  apply same_layout_trans with w5; [apply set_expression_text_layout|].
  apply same_layout_trans with w6; [apply spinbox_setValue_layout|].
  apply same_layout_same; reflexivity.
Qed.

Lemma handle_layout w e : same_layout w (handle threshold e w).
Proof.
  destruct e; unfold handle.
  - apply set_expression_text_layout.
  - apply OnDialogButtonPressed_layout.
  - apply done_layout.
  - apply spinbox_setValue_layout.
  - unfold on_test_clicked. destruct (m_output_test_timer w);
      [apply emit_TestOutputComplete_layout
      |apply same_layout_same; reflexivity].
  - unfold on_test_timeout. destruct (m_output_test_timer w);
      [|apply same_layout_refl].
    eapply same_layout_trans; [|apply emit_TestOutputComplete_layout].
    apply same_layout_same; reflexivity.
  - apply same_layout_same; reflexivity.
  - unfold on_detect_start_timeout.
    destruct (input_detect_start_timer w);
      [apply same_layout_same; reflexivity | apply same_layout_refl].
  - unfold Update. destruct (m_input_detector w) as [d|];
      [|apply same_layout_refl].
    destruct (InputDetector.IsComplete d);
      [|apply same_layout_same; reflexivity].
    destruct (InputDetector.TakeResults d) as [results d'].
    assert (H : same_layout w
                  (emit_DetectInputComplete
                     (set_m_input_detector (Some d') w))).
    { eapply same_layout_trans; [|apply emit_DetectInputComplete_layout].
      apply same_layout_same; reflexivity. }
    destruct results as [|front ?]; [exact H|].
    destruct (findItems _ _); [exact H|].
    eapply same_layout_trans; [exact H|].
    apply same_layout_same; reflexivity.
  - apply ConfigChanged_layout.
  - apply same_layout_same; reflexivity.
Qed.

Lemma run_same_layout events w : same_layout w (run threshold events w).
Proof.
  unfold run. revert w.
  induction events as [|e events IH]; intros w; simpl;
    [apply same_layout_refl|].
  eapply same_layout_trans; [apply handle_layout | apply IH].
Qed.

Lemma ConnectWidgets_layout w : same_layout w (ConnectWidgets w).
Proof. apply same_layout_same; reflexivity. Qed.

Lemma CreateMainLayout_layout (ref : R) (controller : C) type :
  m_type (CreateMainLayout ref controller type) = type
  /\ minimum (m_scalar_spinbox (CreateMainLayout ref controller type))
     = - scalar_min_max type
  /\ maximum (m_scalar_spinbox (CreateMainLayout ref controller type))
     = scalar_min_max type.
Proof. repeat split. Qed.

(** In every dialog reached from the constructor the dialog's signals
    are delivered and the spin box has the bounds of its kind. *)
Lemma run_layout (ref : R) (controller : C) type controls events :
  let w := run threshold events (construct ref controller type controls) in
  delivers w = true
  /\ m_type w = type
  /\ minimum (m_scalar_spinbox w) = - scalar_min_max type
  /\ maximum (m_scalar_spinbox w) = scalar_min_max type.
Proof.
  cbv zeta.
  set (w0 := CreateMainLayout ref controller type).
  set (w1 := construct ref controller type controls).
  assert (H : same_layout w0 (run threshold events w1)).
  { apply same_layout_trans with w1; [|apply run_same_layout].
    apply same_layout_trans with (ConfigChanged controls w0);
      [apply ConfigChanged_layout | apply ConnectWidgets_layout]. }
  destruct H as (Ht & Hmin & Hmax).
  destruct (CreateMainLayout_layout ref controller type)
    as (Ht0 & Hmin0 & Hmax0).
  fold w0 in Ht0, Hmin0, Hmax0.
  pose proof (run_test_invariant events w1
                (construct_test_invariant ref controller type controls))
    as (Hc & Hb & _).
  split.
  { unfold delivers. rewrite Hc, Hb. reflexivity. }
  split; [congruence|]. split; congruence.
Qed.

(** C9. In an open dialog with a test running, each way of ending or
    interrupting it (the timer expiring, the test button, a range change,
    an expression update, the dialog finishing) stops the timer and
    leaves 0.0 as the value last written to the reference; and after any
    sequence of events since the dialog was constructed, whenever the
    timer is not running the value last written, if any, is 0.0. *)
Theorem output_test_always_released :
  (forall w,
     delivers w = true -> m_output_test_timer w = true ->
     forall w',
       w' = on_test_timeout w
       \/ w' = on_test_clicked w
       \/ (exists v, w' = OnRangeChanged v w)
       \/ (exists s mode, w' = UpdateExpression s mode w)
       \/ (exists code, w' = done code w) ->
       m_output_test_timer w' = false
       /\ hd_error (state_written w') = Some 0%float)
  /\
  (forall (ref : R) (controller : C) type controls events,
     let w := run threshold events (construct ref controller type controls) in
     m_output_test_timer w = false ->
     hd_error (state_written w) = None
     \/ hd_error (state_written w) = Some 0%float).
Proof.
  split.
  - intros w Hd Ht w' Hpath.
    assert (Hemit : forall w0,
              delivers w0 = true ->
              m_output_test_timer (emit_TestOutputComplete w0) = false
              /\ hd_error (state_written (emit_TestOutputComplete w0))
                 = Some 0%float).
    { intros w0 H0. destruct (emit_TestOutputComplete_stops w0 H0) as [T S].
      split; [exact T|]. now rewrite S. }
    destruct Hpath as [-> | [-> | [[v ->] | [(s & mode & ->) | [code ->]]]]].
    + unfold on_test_timeout. rewrite Ht. apply Hemit. exact Hd.
    + unfold on_test_clicked. rewrite Ht. apply Hemit. exact Hd.
    + unfold OnRangeChanged. apply Hemit. exact Hd.
    + destruct (UpdateExpression_frame w s mode)
        as (_ & _ & _ & _ & _ & _ & _ & T & S).
      rewrite T, S. apply Hemit. exact Hd.
    + unfold done, on_finished.
      change (delivers (set_result (Some code) w)) with (delivers w).
      rewrite Hd.
      destruct (UpdateExpression_frame (set_result (Some code) w)
                  (m_original_expression (set_result (Some code) w)) Normal)
        as (_ & _ & _ & _ & _ & _ & _ & T & S).
      rewrite T, S. apply Hemit. exact Hd.
  - intros ref controller type controls events w.
    apply (run_test_invariant events), construct_test_invariant.
Qed.

(** *** The range spin box *)

Lemma OnRangeChanged_range w (value : Z) :
  range (m_reference (OnRangeChanged value w))
  = (Lexer.float_of_Z value / 100)%float.
Proof.
  unfold OnRangeChanged. rewrite emit_TestOutputComplete_reference.
  apply range_set_range.
Qed.

(** The limits of the range for each kind of reference. *)
Definition range_limit (type : IOType) : ControlState :=
  match type with Input => 10%float | Output => 1%float end.

(** C5. With the bounds [CreateMainLayout] gives the spin box (plus and
    minus 1000 percent for an input, 100 for an output), a value set on
    the spin box is kept within the bounds, a value within the bounds,
    negative ones included, is kept as it is, and when the value changes
    the reference's range becomes that value divided by 100.0, which
    lies within [-10, 10] for an input and [-1, 1] for an output. *)
Theorem range_is_bounded_spinbox_percentage w (u : Z) :
  widgets_connected w = true ->
  minimum (m_scalar_spinbox w) = - scalar_min_max (m_type w) ->
  maximum (m_scalar_spinbox w) = scalar_min_max (m_type w) ->
  let limit := scalar_min_max (m_type w) in
  let v := bound_value (m_scalar_spinbox w) u in
  let w' := spinbox_setValue u w in
  spin_value (m_scalar_spinbox w') = v
  /\ - limit <= v <= limit
  /\ (- limit <= u <= limit -> v = u)
  /\ (v <> spin_value (m_scalar_spinbox w) ->
      w' = OnRangeChanged v
             (set_m_scalar_spinbox
                (mkSpinBox (minimum (m_scalar_spinbox w))
                   (maximum (m_scalar_spinbox w)) v) w)
      /\ range (m_reference w') = (Lexer.float_of_Z v / 100)%float
      /\ (- range_limit (m_type w) <=? range (m_reference w'))%float = true
      /\ (range (m_reference w') <=? range_limit (m_type w))%float = true).
Proof.
  intros Hc Hmin Hmax. cbv zeta.
  assert (Hpos : 0 <= scalar_min_max (m_type w))
    by (destruct (m_type w); simpl; lia).
  assert (Hin : - scalar_min_max (m_type w)
                <= bound_value (m_scalar_spinbox w) u
                <= scalar_min_max (m_type w)).
  { rewrite <- Hmin, <- Hmax. apply bound_value_within. lia. }
  assert (Hset : spinbox_setValue u w
                 = if bound_value (m_scalar_spinbox w) u
                      =? spin_value (m_scalar_spinbox w)
                   then w
                   else OnRangeChanged (bound_value (m_scalar_spinbox w) u)
                          (set_m_scalar_spinbox
                             (mkSpinBox (minimum (m_scalar_spinbox w))
                                (maximum (m_scalar_spinbox w))
                                (bound_value (m_scalar_spinbox w) u)) w)).
  { unfold spinbox_setValue. destruct (_ =? _); [reflexivity|].
    change (widgets_connected (set_m_scalar_spinbox _ w))
      with (widgets_connected w).
    now rewrite Hc. }
  rewrite Hset. clear Hset.
  split.
  { destruct (Z.eqb_spec (bound_value (m_scalar_spinbox w) u)
                (spin_value (m_scalar_spinbox w))) as [E|_];
      [now rewrite E|].
    unfold OnRangeChanged.
    destruct (emit_TestOutputComplete_frame
                (set_m_reference
                   (set_range
                      (Lexer.float_of_Z (bound_value (m_scalar_spinbox w) u)
                       / 100)%float
                      (m_reference
                         (set_m_scalar_spinbox
                            (mkSpinBox (minimum (m_scalar_spinbox w))
                               (maximum (m_scalar_spinbox w))
                               (bound_value (m_scalar_spinbox w) u)) w)))
                   (set_m_scalar_spinbox
                      (mkSpinBox (minimum (m_scalar_spinbox w))
                         (maximum (m_scalar_spinbox w))
                         (bound_value (m_scalar_spinbox w) u)) w)))
      as (_ & _ & _ & _ & _ & _ & Hs & _).
    rewrite Hs. reflexivity. }
  split; [exact Hin|].
  split.
  { intros Hu. apply bound_value_id. rewrite Hmin, Hmax. exact Hu. }
  intros Hne.
  destruct (Z.eqb_spec (bound_value (m_scalar_spinbox w) u)
              (spin_value (m_scalar_spinbox w))) as [E|_];
    [contradiction|].
  split; [reflexivity|].
  rewrite OnRangeChanged_range. split; [reflexivity|].
  destruct (m_type w); simpl in Hin; simpl range_limit.
  - pose proof (input_percent_within _ Hin) as H.
    unfold percent_within in H. apply andb_prop in H. exact H.
  - pose proof (output_percent_within _ Hin) as H.
    unfold percent_within in H. apply andb_prop in H. exact H.
Qed.

(** *** Input detection *)

(** The item [Update] selects for the first result. *)
Definition selected_for (results : list InputDetector.Detection) w
    : option string :=
  match results with
  | [] => current_item w
  | front :: _ =>
      match findItems (InputDetector.input front) (m_option_list w) with
      | [] => current_item w
      | item :: _ => Some item
      end
  end.

(** C3. [TakeResults] returns all the detections, no more and no fewer,
    in ranking order (adjacent results: never the lower confidence first,
    and the earlier detection first unless the confidence is higher; with
    one confidence for all, every result detected no later than all the
    results behind it), and leaves the detector empty, so that a second
    call returns nothing. In
    the scenario of the specification the result is ctrl1 then ctrl2. On
    a complete detector [Update] takes the results, once, and the
    detector is gone afterwards. *)
Theorem TakeResults_ranked_and_drained :
  (forall d : InputDetector.t,
     let results := fst (InputDetector.TakeResults d) in
     Permutation results (InputDetector.detections d)
     /\ Sorted InputDetectorProperties.before results
     /\ (forall a b,
           InputDetectorProperties.before a b ->
           (InputDetector.confidence b <? InputDetector.confidence a)%float
           = true
           \/ ((InputDetector.confidence a <? InputDetector.confidence b)%float
               = false
               /\ InputDetector.time a <= InputDetector.time b))
     /\ (forall c,
           Forall (InputDetectorProperties.same_confidence c)
             (InputDetector.detections d) ->
           StronglySorted InputDetectorProperties.no_later results)
     /\ fst (InputDetector.TakeResults (snd (InputDetector.TakeResults d)))
        = [])
  /\
  (let d := InputDetectorProperties.scenario 0.5%float in
   InputDetector.IsComplete d = true
   /\ map InputDetector.input (fst (InputDetector.TakeResults d))
      = ["ctrl1"%string; "ctrl2"%string]
   /\ fst (InputDetector.TakeResults (snd (InputDetector.TakeResults d)))
      = [])
  /\
  (forall w d now sample,
     m_input_detector w = Some d ->
     InputDetector.IsComplete d = true ->
     delivers w = true ->
     let w' := Update threshold now sample w in
     m_input_detector w' = None
     /\ current_item w' = selected_for (fst (InputDetector.TakeResults d)) w
     /\ m_option_list w' = m_option_list w).
Proof.
  split; [|split].
  - intros d. cbv zeta. split; [apply InputDetectorProperties.rank_perm|].
    split; [apply InputDetectorProperties.rank_sorted|].
    split; [apply InputDetectorProperties.ranks_before_meaning|].
    split; [|reflexivity].
    intros c Hc. now apply (InputDetectorProperties.rank_by_time c).
  - vm_compute. repeat split.
  - intros w d now sample Hd Hc Hdel. cbv zeta.
    unfold Update. rewrite Hd, Hc.
    destruct (InputDetector.TakeResults d) as [results d'] eqn:E.
    cbn [fst].
    unfold emit_DetectInputComplete.
    change (delivers (set_m_input_detector (Some d') w)) with (delivers w).
    rewrite Hdel. unfold selected_for.
    destruct results as [|front rest]; [repeat split|].
    change (m_option_list
              (on_DetectInputComplete (set_m_input_detector (Some d') w)))
      with (m_option_list w).
    destruct (findItems _ _); repeat split.
Qed.

End DialogProperties.

(** ** The block loop of the highlighter, token by token *)

Section BlockLoop.

Variable IsThemeDark : bool.

(** The range the loop builds for a token: a start before the block is
    moved to the block's first character and the length shortened by as
    much. *)
Definition clipped (f : QTextCharFormat) (block_position : Z) (tok : Token)
    : FormatRange :=
  let token_start := to_int (string_position tok) - block_position in
  {| QTextLayout.start := Z.max 0 token_start;
     QTextLayout.length := to_int (string_length tok) + Z.min 0 token_start;
     QTextLayout.format := f |}.

(** A range of the block comes from a token of the vector. *)
Definition painted_from (block_position block_length : Z)
    (tokens : list Token) (r : FormatRange) : Prop :=
  exists tok f,
    In tok tokens
    /\ get_token_char_format IsThemeDark tok = Some f
    /\ r = clipped f block_position tok
    /\ 0 <= QTextLayout.start r < block_length
    /\ 0 < QTextLayout.length r.

Lemma painted_from_cons block_position block_length tok tokens r :
  painted_from block_position block_length tokens r ->
  painted_from block_position block_length (tok :: tokens) r.
Proof.
  intros (t & f & Hin & H). exists t, f. split; [now right | exact H].
Qed.

Lemma block_format_ranges_sound block_position block_length tokens :
  Forall (painted_from block_position block_length tokens)
    (block_format_ranges IsThemeDark block_position block_length tokens).
Proof.
  induction tokens as [|tok tokens IH]; [constructor|].
  assert (IH' : Forall (painted_from block_position block_length
                          (tok :: tokens))
                  (block_format_ranges IsThemeDark block_position
                     block_length tokens)).
  { revert IH. apply List.Forall_impl. intros r.
    apply painted_from_cons. }
  cbn [block_format_ranges].
  set (rel := to_int (string_position tok) - block_position).
  destruct (Z.leb_spec (if rel <? 0 then to_int (string_length tok) + rel
                        else to_int (string_length tok)) 0) as [Hl | Hl];
    [exact IH'|].
  destruct ((if rel <? 0 then 0 else rel) >=? block_length) eqn:Hs;
    [constructor|].
  rewrite Z.geb_leb in Hs. apply Z.leb_gt in Hs.
  destruct (get_token_char_format IsThemeDark tok) as [f|] eqn:Hf;
    [|exact IH'].
  constructor; [|exact IH'].
  exists tok, f. split; [now left|]. split; [exact Hf|].
  unfold clipped. fold rel. cbn [QTextLayout.start QTextLayout.length].
  destruct (Z.ltb_spec rel 0) as [Hr | Hr].
  - rewrite Z.max_l, Z.min_r by lia. repeat split; lia.
  - rewrite Z.max_r, Z.min_l, Z.add_0_r by lia. repeat split; lia.
Qed.

Lemma block_format_ranges_length block_position block_length tokens :
  (List.length (block_format_ranges IsThemeDark block_position block_length
                  tokens)
   <= List.length tokens)%nat.
Proof.
  induction tokens as [|tok tokens IH]; [reflexivity|].
  cbn [block_format_ranges List.length].
  destruct (_ <=? 0); [lia|].
  destruct (_ >=? _); [cbn [List.length]; lia|].
  destruct (get_token_char_format _ _); cbn [List.length]; lia.
Qed.

(** X3. Whatever the token vector, each format range set on a block is
    the range of one of the tokens, clipped at the block's first
    character and carrying that token's format; it starts at 0 or later
    and before the block's end position, and its length is positive. A
    block gets at most one range for each token. *)
Theorem block_ranges_come_from_tokens (tokens : list Token)
    (block : QTextBlock) :
  let ranges := set_block_formats IsThemeDark tokens block in
  (List.length ranges <= List.length tokens)%nat
  /\ Forall
       (fun r =>
          exists tok f,
            In tok tokens
            /\ get_token_char_format IsThemeDark tok = Some f
            /\ r = clipped f (block_position_of block) tok
            /\ 0 <= QTextLayout.start r
                 < block_position_of block + block_length_of block
            /\ 0 < QTextLayout.length r)
       ranges.
Proof.
  cbv zeta. unfold set_block_formats. split.
  - apply block_format_ranges_length.
  - apply block_format_ranges_sound.
Qed.

(** Tokens in the order of their positions, as the lexer emits them. *)
Definition in_position_order (tokens : list Token) : Prop :=
  StronglySorted
    (fun a b => to_int (string_position a) <= to_int (string_position b))
    tokens.

Lemma block_format_ranges_complete block_position block_length tokens :
  in_position_order tokens ->
  forall tok f,
    In tok tokens ->
    get_token_char_format IsThemeDark tok = Some f ->
    Z.max 0 (to_int (string_position tok) - block_position) < block_length ->
    0 < to_int (string_length tok)
        + Z.min 0 (to_int (string_position tok) - block_position) ->
    In (clipped f block_position tok)
      (block_format_ranges IsThemeDark block_position block_length tokens).
Proof.
  intros Hs. induction Hs as [|t1 tokens Hs IH Hle];
    intros tok f Hin Hf Hstart Hlen; [contradiction|].
  cbn [block_format_ranges].
  set (rel := to_int (string_position t1) - block_position).
  assert (Hrel : rel <= to_int (string_position tok) - block_position).
  { destruct Hin as [<- | Hin]; [unfold rel; lia|].
    rewrite List.Forall_forall in Hle. specialize (Hle tok Hin).
    unfold rel. lia. }
  assert (Hgo : ((if rel <? 0 then 0 else rel) >=? block_length) = false).
  { rewrite Z.geb_leb. apply Z.leb_gt.
    destruct (Z.ltb_spec rel 0); lia. }
  destruct Hin as [<- | Hin].
  - fold rel in Hstart, Hlen.
    assert (Hl : ((if rel <? 0 then to_int (string_length t1) + rel
                   else to_int (string_length t1)) <=? 0) = false).
    { apply Z.leb_gt. destruct (Z.ltb_spec rel 0); lia. }
    rewrite Hl, Hgo, Hf. left.
    unfold clipped. fold rel.
    destruct (Z.ltb_spec rel 0).
    + now rewrite Z.max_l, Z.min_r by lia.
    + now rewrite Z.max_r, Z.min_l, Z.add_0_r by lia.
  - specialize (IH tok f Hin Hf Hstart Hlen).
    destruct (_ <=? 0); [exact IH|].
    rewrite Hgo.
    destruct (get_token_char_format IsThemeDark t1); [now right | exact IH].
Qed.

(** X4. With the tokens in the order of their positions, the early exit
    of the loop loses nothing: every token that has a format, is not
    empty and shares a character with the block is painted in it, from
    its own start, or from the block's first character when it began in
    an earlier block, up to its own end. *)
Theorem ordered_tokens_painted_in_their_blocks (tokens : list Token)
    (block : QTextBlock) (tok : Token) (f : QTextCharFormat) :
  in_position_order tokens ->
  0 <= block_position_of block ->
  0 <= string_position tok < 2 ^ 31 ->
  0 < string_length tok < 2 ^ 31 ->
  In tok tokens ->
  get_token_char_format IsThemeDark tok = Some f ->
  string_position tok < block_position_of block + block_length_of block ->
  block_position_of block < string_position tok + string_length tok ->
  In {| QTextLayout.start :=
          Z.max 0 (string_position tok - block_position_of block);
        QTextLayout.length :=
          Z.min (string_length tok)
            (string_position tok + string_length tok
             - block_position_of block);
        QTextLayout.format := f |}
    (set_block_formats IsThemeDark tokens block).
Proof.
  intros Hs Hbp Hpos Hlen Hin Hf Hbefore Hafter.
  unfold set_block_formats.
  pose proof (block_format_ranges_complete (block_position_of block)
                (block_position_of block + block_length_of block)
                tokens Hs tok f Hin Hf) as H.
  unfold clipped in H. rewrite !to_int_small in H by lia.
  replace (Z.min (string_length tok)
             (string_position tok + string_length tok
              - block_position_of block))
    with (string_length tok
          + Z.min 0 (string_position tok - block_position_of block))
    by lia.
  apply H; lia.
Qed.

End BlockLoop.

(** *** The theme *)

(** A character format without its colours: the weight, and whether a
    foreground and a wave underline are set. *)
Definition uncoloured (f : QTextCharFormat) : bool * bool * bool :=
  (fontWeightBold f,
   match foreground f with Some _ => true | None => false end,
   match waveUnderline f with Some _ => true | None => false end).

(** A format range without its colours. *)
Definition outline (r : FormatRange) : Z * Z * (bool * bool * bool) :=
  (QTextLayout.start r, QTextLayout.length r,
   uncoloured (QTextLayout.format r)).

Lemma get_token_char_format_theme (tok : Token) :
  option_map uncoloured (get_token_char_format true tok)
  = option_map uncoloured (get_token_char_format false tok).
Proof.
  unfold get_token_char_format.
  destruct (type tok); try reflexivity;
    destruct (IsBinaryOperator tok); reflexivity.
Qed.

Lemma block_format_ranges_theme block_position block_length tokens :
  map outline (block_format_ranges true block_position block_length tokens)
  = map outline
      (block_format_ranges false block_position block_length tokens).
Proof.
  induction tokens as [|tok tokens IH]; [reflexivity|].
  cbn [block_format_ranges].
  destruct (_ <=? 0); [exact IH|].
  destruct (_ >=? _); [reflexivity|].
  pose proof (get_token_char_format_theme tok) as H.
  destruct (get_token_char_format true tok) as [f|],
    (get_token_char_format false tok) as [g|];
    cbn [option_map] in H; try discriminate; [|exact IH].
  cbn [map]. unfold outline at 1 3.
  cbn [QTextLayout.start QTextLayout.length QTextLayout.format].
  assert (H' : uncoloured f = uncoloured g) by congruence.
  rewrite H', IH. reflexivity.
Qed.

(** X18. The theme changes colours and nothing else: in the dark and in
    the light theme every block gets format ranges at the same starts
    with the same lengths, in the same order, each bold in one theme
    exactly when in the other, and with a foreground colour or a wave
    underline set in one exactly when in the other. *)
Theorem theme_changes_colours_only (tokens : list Token)
    (block : QTextBlock) :
  map outline (set_block_formats true tokens block)
  = map outline (set_block_formats false tokens block).
Proof.
  unfold set_block_formats. apply block_format_ranges_theme.
Qed.

(** ** The dialog between two events *)

Section DialogInvariants.

Context {R C : Type}.
Context {reference_ops : ControlReferenceOps R}.
Context {controller_ops : EmulatedControllerOps C R}.
Context {editor_ops : QPlainTextEditOps}.

Variable threshold : ControlState.

Implicit Types w : @IOWindow R C.

(** The second branch of [UpdateExpression], after the signal. *)
Definition recompiled (error : option string) (ref : R) w
    : @IOWindow R C :=
  let controller := UpdateSingleControlReference ref (m_controller w) in
  set_m_parse_text
    (parse_text_for error (GetParseStatus ref) (m_parse_text w))
    (set_m_variables_combo
       (firstn 4 (m_variables_combo w)
        ++ map (fun v => Item (fst v)) (GetExpressionVariables controller))
       (set_m_controller controller (set_m_reference ref w))).

Lemma UpdateExpression_cases w (s : string) mode :
  (mode = Normal /\ s = GetExpression (m_reference w)
   /\ UpdateExpression s mode w = emit_TestOutputComplete w)
  \/ (exists error ref,
        SetExpression s (m_reference w) = (error, ref)
        /\ UpdateExpression s mode w
           = recompiled error ref (emit_TestOutputComplete w)).
Proof.
  unfold UpdateExpression.
  rewrite emit_TestOutputComplete_reference.
  destruct mode; cbn [negb andb].
  - destruct (String.eqb_spec s (GetExpression (m_reference w))) as [E | E].
    + left. repeat split. exact E.
    + right. destruct (SetExpression s (m_reference w)) as [error ref].
      exists error, ref. split; reflexivity.
  - right. destruct (SetExpression s (m_reference w)) as [error ref].
    exists error, ref. split; reflexivity.
Qed.

(** Two states that differ at most in the editor text, the spin box, the
    option list and its selection, the blocker, the warnings shown and
    the dialog's result. *)
Definition silent w w' : Prop :=
  m_reference w' = m_reference w
  /\ m_controller w' = m_controller w
  /\ m_original_expression w' = m_original_expression w
  /\ m_type w' = m_type w
  /\ m_parse_text w' = m_parse_text w
  /\ m_variables_combo w' = m_variables_combo w
  /\ m_output_test_timer w' = m_output_test_timer w
  /\ m_test_button w' = m_test_button w
  /\ m_detect_button w' = m_detect_button w
  /\ input_detect_start_timer w' = input_detect_start_timer w
  /\ m_input_detector w' = m_input_detector w
  /\ widgets_connected w' = widgets_connected w
  /\ state_written w' = state_written w.

(** A preorder on states that holds across the signals, the recompiling
    of the reference, a new range and the silent assignments holds across
    the slots composed of them. *)
Section Closure.

Variable rel : @IOWindow R C -> @IOWindow R C -> Prop.

Hypothesis rel_refl : forall w, rel w w.
Hypothesis rel_trans : forall w1 w2 w3, rel w1 w2 -> rel w2 w3 -> rel w1 w3.
Hypothesis rel_silent : forall w w', silent w w' -> rel w w'.
Hypothesis rel_TestOutputComplete :
  forall w, rel w (emit_TestOutputComplete w).
Hypothesis rel_DetectInputComplete :
  forall w, rel w (emit_DetectInputComplete w).
Hypothesis rel_UpdateExpression :
  forall w s mode, rel w (UpdateExpression s mode w).
Hypothesis rel_set_range :
  forall w x, rel w (set_m_reference (set_range x (m_reference w)) w).

Local Ltac silently := apply rel_silent; repeat split.

Lemma closed_set_expression_text w (s : string) :
  rel w (set_expression_text s w).
Proof.
  unfold set_expression_text, on_textChanged.
  destruct (widgets_connected _); [|silently].
  apply rel_trans with (set_m_expression_text s w); [silently|].
  apply rel_UpdateExpression.
Qed.

Lemma closed_OnRangeChanged w (v : Z) : rel w (OnRangeChanged v w).
Proof.
  unfold OnRangeChanged.
  eapply rel_trans; [apply rel_set_range | apply rel_TestOutputComplete].
Qed.

Lemma closed_spinbox_setValue w (v : Z) : rel w (spinbox_setValue v w).
Proof.
  unfold spinbox_setValue. destruct (_ =? _); [apply rel_refl|].
  destruct (widgets_connected _); [|silently].
  eapply rel_trans; [|apply closed_OnRangeChanged]. silently.
Qed.

Lemma closed_done w code : rel w (done code w).
Proof.
  unfold done, on_finished. destruct (delivers _); [|silently].
  eapply rel_trans; [|apply rel_UpdateExpression]. silently.
Qed.

Lemma closed_ConfigChanged w controls : rel w (ConfigChanged controls w).
Proof.
  unfold ConfigChanged.
  set (w1 := emit_DetectInputComplete w).
  set (w2 := emit_TestOutputComplete w1).
  set (w3 := set_signals_blocked true w2).
  set (w4 := UpdateExpression _ Force w3).
  set (w5 := set_expression_text _ w4).
  set (w6 := spinbox_setValue _ w5).
  apply rel_trans with w1; [apply rel_DetectInputComplete|].
  apply rel_trans with w2; [apply rel_TestOutputComplete|].
  apply rel_trans with w3; [silently|].
  apply rel_trans with w4; [apply rel_UpdateExpression|].
  apply rel_trans with w5; [apply closed_set_expression_text|].
  apply rel_trans with w6; [apply closed_spinbox_setValue|].
  silently.
Qed.

Lemma closed_OnDialogButtonPressed w button :
  (forall w s, rel w (set_m_original_expression s w)) ->
  rel w (OnDialogButtonPressed button w).
Proof.
  intros rel_original. destruct button; cbn [OnDialogButtonPressed].
  - apply closed_set_expression_text.
  - eapply rel_trans; [apply rel_UpdateExpression|].
    destruct (GetParseStatus _);
      try (eapply rel_trans; [apply rel_original | apply closed_done]).
    silently.
Qed.

End Closure.

(** *** Labels, indicator, variable list and written values *)

(** The four items [CreateMainLayout] puts in the variables box. *)
Definition header : list ComboItem :=
  [Item "User Variables"; Separator; Item "Reset Values"; Separator].

Definition test_label (running : bool) : string :=
  if running then "[ ... ]" else initial_test_text.

Definition detect_label (waiting detecting : bool) : string :=
  if waiting then "[ ... ]"
  else if detecting then "[ Press Now ]" else initial_detect_text.

(** A detector exists. *)
Definition detecting w : bool :=
  match m_input_detector w with Some _ => true | None => false end.

Definition coherent w : Prop :=
  (paints_state_indicator (m_parse_text w) = true ->
   GetParseStatus (m_reference w) = Successful
   /\ text (m_parse_text w) = EmptyString)
  /\ (exists names, m_variables_combo w = header ++ map Item names)
  /\ m_test_button w = test_label (m_output_test_timer w)
  /\ m_detect_button w
     = detect_label (input_detect_start_timer w) (detecting w)
  /\ Forall (fun x => x = 0%float \/ x = 1%float) (state_written w)
  /\ (m_output_test_timer w = true ->
      hd_error (state_written w) = Some 1%float).

Definition keeps w w' : Prop := coherent w -> coherent w'.

Lemma keeps_refl w : keeps w w.
Proof. intros H. exact H. Qed.

Lemma keeps_trans w1 w2 w3 : keeps w1 w2 -> keeps w2 w3 -> keeps w1 w3.
Proof. intros A B H. apply B, A, H. Qed.

Lemma keeps_silent w w' : silent w w' -> keeps w w'.
Proof.
  intros (Hr & _ & _ & _ & Hp & Hv & Ht & Hb & Hdb & Hdt & Hd & _ & Hs) Hc.
  unfold coherent, detecting in *.
  rewrite Hr, Hp, Hv, Ht, Hb, Hdb, Hdt, Hd, Hs. exact Hc.
Qed.

Lemma keeps_TestOutputComplete w : keeps w (emit_TestOutputComplete w).
Proof.
  unfold emit_TestOutputComplete.
  destruct (delivers w); [|apply keeps_refl].
  intros (Hi & Hv & _ & Hd & Hw & _).
  unfold coherent, detecting, on_TestOutputComplete, State. cbn.
  split; [exact Hi|]. split; [exact Hv|]. split; [reflexivity|].
  split; [exact Hd|]. split; [|discriminate].
  constructor; [now left | exact Hw].
Qed.

Lemma keeps_DetectInputComplete w : keeps w (emit_DetectInputComplete w).
Proof.
  unfold emit_DetectInputComplete.
  destruct (delivers w); [|apply keeps_refl].
  intros (Hi & Hv & Ht & _ & Hw & Hl).
  unfold coherent, detecting, on_DetectInputComplete. cbn.
  repeat (split; [assumption || reflexivity|]). exact Hl.
Qed.

Lemma parse_text_for_paints (error : option string) (status : ParseStatus)
    (e : InputStateLineEdit) :
  paints_state_indicator (parse_text_for error status e) = true ->
  status = Successful /\ text (parse_text_for error status e) = EmptyString.
Proof. destruct error, status; cbn; intros H; try discriminate; now split. Qed.

Lemma keeps_recompiled w (error : option string) (ref : R) :
  keeps w (recompiled error ref w).
Proof.
  intros (_ & [names Hv] & Ht & Hd & Hw & Hl).
  unfold coherent, detecting, recompiled. cbn.
  split; [apply parse_text_for_paints|].
  split.
  { rewrite Hv.
    exists (map fst
              (GetExpressionVariables
                 (UpdateSingleControlReference ref (m_controller w)))).
    cbn. now rewrite List.map_map. }
  repeat (split; [assumption|]). exact Hl.
Qed.

Lemma keeps_UpdateExpression w (s : string) mode :
  keeps w (UpdateExpression s mode w).
Proof.
  destruct (UpdateExpression_cases w s mode)
    as [(_ & _ & ->) | (error & ref & _ & ->)].
  - apply keeps_TestOutputComplete.
  - eapply keeps_trans;
      [apply keeps_TestOutputComplete | apply keeps_recompiled].
Qed.

Lemma keeps_set_range w (x : ControlState) :
  keeps w (set_m_reference (set_range x (m_reference w)) w).
Proof.
  intros (Hi & H). split; [|exact H].
  cbn. rewrite GetParseStatus_set_range. exact Hi.
Qed.

Lemma keeps_ConfigChanged w controls : keeps w (ConfigChanged controls w).
Proof.
  apply (closed_ConfigChanged keeps);
    auto using keeps_refl, keeps_silent, keeps_TestOutputComplete,
      keeps_DetectInputComplete, keeps_UpdateExpression, keeps_set_range.
  exact keeps_trans.
Qed.

Lemma handle_coherent w e :
  delivers w = true -> keeps w (handle threshold e w).
Proof.
  intros Hdel. destruct e; unfold handle.
  - apply (closed_set_expression_text keeps);
      auto using keeps_silent, keeps_UpdateExpression.
    exact keeps_trans.
  - apply (closed_OnDialogButtonPressed keeps);
      auto using keeps_refl, keeps_silent, keeps_UpdateExpression.
    + exact keeps_trans.
    + intros w0 s H. exact H.
  - apply (closed_done keeps);
      auto using keeps_silent, keeps_UpdateExpression.
    exact keeps_trans.
  - apply (closed_spinbox_setValue keeps);
      auto using keeps_refl, keeps_silent, keeps_TestOutputComplete,
        keeps_set_range.
    exact keeps_trans.
  - unfold on_test_clicked.
    destruct (m_output_test_timer w) eqn:Ht;
      [apply keeps_TestOutputComplete|].
    intros (Hi & Hv & _ & Hd & Hw & _).
    unfold coherent, detecting, State. cbn.
    split; [exact Hi|]. split; [exact Hv|]. split; [reflexivity|].
    split; [exact Hd|]. split; [|reflexivity].
    constructor; [now right | exact Hw].
  - unfold on_test_timeout.
    destruct (m_output_test_timer w) eqn:Ht; [|apply keeps_refl].
    unfold emit_TestOutputComplete.
    change (delivers (set_m_output_test_timer false w)) with (delivers w).
    rewrite Hdel.
    intros (Hi & Hv & _ & Hd & Hw & _).
    unfold coherent, detecting, on_TestOutputComplete, State. cbn.
    split; [exact Hi|]. split; [exact Hv|]. split; [reflexivity|].
    split; [exact Hd|]. split; [|discriminate].
    constructor; [now left | exact Hw].
  - intros (Hi & Hv & Ht & _ & Hw & Hl).
    unfold coherent, detecting, on_detect_clicked. cbn.
    repeat (split; [assumption || reflexivity|]). exact Hl.
  - unfold on_detect_start_timeout.
    destruct (input_detect_start_timer w); [|apply keeps_refl].
    intros (Hi & Hv & Ht & _ & Hw & Hl).
    unfold coherent, detecting. cbn.
    repeat (split; [assumption || reflexivity|]). exact Hl.
  - unfold Update. destruct (m_input_detector w) as [d|] eqn:Hd;
      [|apply keeps_refl].
    assert (Hset : forall d', keeps w (set_m_input_detector (Some d') w)).
    { intros d' (Hi & Hv & Ht & Hb & Hw & Hl).
      unfold coherent, detecting in *. rewrite Hd in Hb. cbn.
      repeat (split; [assumption|]). exact Hl. }
    destruct (InputDetector.IsComplete d); [|apply Hset].
    destruct (InputDetector.TakeResults d) as [results d'].
    assert (Hemit : keeps w (emit_DetectInputComplete
                               (set_m_input_detector (Some d') w))).
    { eapply keeps_trans; [apply Hset | apply keeps_DetectInputComplete]. }
    destruct results as [|front ?]; [exact Hemit|].
    destruct (findItems _ _); [exact Hemit|].
    eapply keeps_trans; [exact Hemit|].
    apply keeps_silent. repeat split.
  - apply keeps_ConfigChanged.
  - intros H. exact H.
Qed.

Lemma CreateMainLayout_coherent (ref : R) (controller : C) type :
  coherent (CreateMainLayout ref controller type).
Proof.
  unfold coherent, detecting. cbn.
  split; [discriminate|]. split; [now exists []|].
  repeat (split; [reflexivity|]). split; [constructor | discriminate].
Qed.

Lemma keeps_ConnectWidgets w : keeps w (ConnectWidgets w).
Proof. intros H. exact H. Qed.

Lemma construct_coherent (ref : R) (controller : C) type controls :
  coherent (construct ref controller type controls).
Proof.
  unfold construct.
  apply keeps_ConnectWidgets, keeps_ConfigChanged, CreateMainLayout_coherent.
Qed.

(** Every state of an open dialog is coherent, its signals are delivered
    and no output is left driven. *)
Lemma run_coherent events w :
  test_invariant w -> coherent w ->
  test_invariant (run threshold events w)
  /\ coherent (run threshold events w).
Proof.
  unfold run. revert w.
  induction events as [|e events IH]; intros w Inv Hc; cbn [fold_left];
    [split; assumption|].
  apply IH.
  - apply handle_test_invariant, Inv.
  - apply handle_coherent; [|exact Hc].
    destruct Inv as (Hw & Hb & _). unfold delivers. now rewrite Hw, Hb.
Qed.

Lemma reachable_coherent (ref : R) (controller : C) type controls events :
  let w := run threshold events (construct ref controller type controls) in
  test_invariant w /\ coherent w.
Proof.
  apply run_coherent;
    [apply construct_test_invariant | apply construct_coherent].
Qed.

(** X5. In every state an open dialog can reach, the state indicator is
    painted on the status line only over a reference whose expression
    compiled successfully, and the line then shows no text. *)
Theorem state_indicator_only_over_successful_parse (ref : R)
    (controller : C) type controls events :
  let w := run threshold events (construct ref controller type controls) in
  paints_state_indicator (m_parse_text w) = true ->
  GetParseStatus (m_reference w) = Successful
  /\ text (m_parse_text w) = EmptyString.
Proof.
  intros w.
  destruct (reachable_coherent ref controller type controls events)
    as (_ & H & _).
  exact H.
Qed.

(** *** The variables the box lists *)























Lemma zero_is_not_one : 0%float <> 1%float.
Proof.
  intros E.
  pose proof (f_equal (fun x => PrimFloat.eqb x 0) E) as H.
  vm_compute in H. discriminate.
Qed.

(** X7. In every state an open dialog can reach, the label of the test
    button tells whether the output is driven: it reads [[ ... ]] while
    the test timer runs and [Test Output] otherwise, the timer runs
    exactly when 1 is the value written last, and nothing but 0 and 1 is
    ever written to the reference. *)
Theorem test_button_label_tells_output_state (ref : R) (controller : C)
    type controls events :
  let w := run threshold events (construct ref controller type controls) in
  m_test_button w
  = (if m_output_test_timer w then "[ ... ]" else "Test Output")%string
  /\ (m_output_test_timer w = true
      <-> hd_error (state_written w) = Some 1%float)
  /\ Forall (fun x => x = 0%float \/ x = 1%float) (state_written w).
Proof.
  intros w.
  destruct (reachable_coherent ref controller type controls events)
    as ((_ & _ & Hr) & _ & _ & Hb & _ & Hw & Hl).
  fold w in Hr, Hb, Hw, Hl.
  split; [exact Hb|]. split; [|exact Hw].
  split; [exact Hl|].
  intros H1. destruct (m_output_test_timer w) eqn:Ht; [reflexivity|].
  destruct (Hr Ht) as [E | E]; rewrite E in H1; [discriminate|].
  apply (f_equal (fun o => match o with Some x => x | None => 0%float end))
    in H1.
  destruct (zero_is_not_one H1).
Qed.

(** X8. In every state an open dialog can reach, the label of the detect
    button tells where input detection stands: [[ ... ]] while the start
    timer is pending, [[ Press Now ]] while a detector exists, and
    [Detect Input] when neither is the case. *)
Theorem detect_button_label_tells_detection_state (ref : R)
    (controller : C) type controls events :
  let w := run threshold events (construct ref controller type controls) in
  m_detect_button w
  = (if input_detect_start_timer w then "[ ... ]"
     else match m_input_detector w with
          | Some _ => "[ Press Now ]"
          | None => "Detect Input"
          end)%string.
Proof.
  intros w.
  destruct (reachable_coherent ref controller type controls events)
    as (_ & _ & _ & _ & Hd & _).
  fold w in Hd. rewrite Hd. unfold detect_label, detecting.
  destruct (input_detect_start_timer w); [reflexivity|].
  destruct (m_input_detector w); reflexivity.
Qed.

(** *** A configuration change *)

(** The detector and the start timer are as they were. *)
Definition same_detection w w' : Prop :=
  m_input_detector w' = m_input_detector w
  /\ input_detect_start_timer w' = input_detect_start_timer w.

Lemma same_detection_refl w : same_detection w w.
Proof. split; reflexivity. Qed.

Lemma same_detection_trans w1 w2 w3 :
  same_detection w1 w2 -> same_detection w2 w3 -> same_detection w1 w3.
Proof. intros [A B] [A' B']. split; congruence. Qed.

Lemma same_detection_silent w w' : silent w w' -> same_detection w w'.
Proof.
  intros (_ & _ & _ & _ & _ & _ & _ & _ & _ & Ht & Hd & _).
  split; assumption.
Qed.

Lemma same_detection_TestOutputComplete w :
  same_detection w (emit_TestOutputComplete w).
Proof.
  unfold emit_TestOutputComplete. destruct (delivers w); split; reflexivity.
Qed.

Lemma same_detection_UpdateExpression w (s : string) mode :
  same_detection w (UpdateExpression s mode w).
Proof.
  destruct (UpdateExpression_cases w s mode)
    as [(_ & _ & ->) | (error & ref & _ & ->)].
  - apply same_detection_TestOutputComplete.
  - eapply same_detection_trans; [apply same_detection_TestOutputComplete|].
    split; reflexivity.
Qed.

Lemma same_detection_set_range w (x : ControlState) :
  same_detection w (set_m_reference (set_range x (m_reference w)) w).
Proof. split; reflexivity. Qed.

Lemma ConfigChanged_cancels w controls :
  delivers w = true -> coherent w ->
  let w' := ConfigChanged controls w in
  m_input_detector w' = None
  /\ input_detect_start_timer w' = false
  /\ m_output_test_timer w' = false
  /\ m_detect_button w' = initial_detect_text
  /\ m_test_button w' = initial_test_text
  /\ m_option_list w' = controls
  /\ current_item w' = None.
Proof.
  intros Hdel Hc w'.
  assert (Hc' : coherent w') by (apply keeps_ConfigChanged, Hc).
  destruct Hc' as (_ & _ & Hb & Hd & _).
  unfold detecting in Hd.
  assert (H : m_input_detector w' = None
              /\ input_detect_start_timer w' = false
              /\ m_output_test_timer w' = false
              /\ m_option_list w' = controls
              /\ current_item w' = None).
  { clear Hb Hd. subst w'. unfold ConfigChanged.
    set (w1 := emit_DetectInputComplete w).
    set (w2 := emit_TestOutputComplete w1).
    set (w3 := set_signals_blocked true w2).
    set (w4 := UpdateExpression _ Force w3).
    set (w5 := set_expression_text _ w4).
    set (w6 := spinbox_setValue _ w5).
    assert (D1 : m_input_detector w1 = None
                 /\ input_detect_start_timer w1 = false).
    { unfold w1, emit_DetectInputComplete. rewrite Hdel.
      split; reflexivity. }
    assert (Hdel1 : delivers w1 = true).
    { destruct (emit_DetectInputComplete_flags w) as [A B].
      unfold delivers in *. fold w1 in A, B. now rewrite A, B. }
    assert (T2 : m_output_test_timer w2 = false)
      by apply (emit_TestOutputComplete_stops w1 Hdel1).
    assert (D6 : same_detection w1 w6).
    { apply same_detection_trans with w2;
        [apply same_detection_TestOutputComplete|].
      apply same_detection_trans with w3; [split; reflexivity|].
      apply same_detection_trans with w4;
        [apply same_detection_UpdateExpression|].
      apply same_detection_trans with w5.
      - apply (closed_set_expression_text same_detection);
          auto using same_detection_silent, same_detection_UpdateExpression.
        exact same_detection_trans.
      - apply (closed_spinbox_setValue same_detection);
          auto using same_detection_refl, same_detection_silent,
            same_detection_TestOutputComplete, same_detection_set_range.
        exact same_detection_trans. }
    assert (T6 : m_output_test_timer w6 = false).
    { assert (S : settles w2 w6).
      { apply settles_trans with w3; [apply settles_same; reflexivity|].
        apply settles_trans with w4; [apply UpdateExpression_settles|].
        apply settles_trans with w5; [apply set_expression_text_settles|].
        apply spinbox_setValue_settles. }
      destruct S as [[T _] | [T _]]; congruence. }
    clearbody w6. destruct D6 as [A B], D1 as [A1 B1].
    cbn. repeat split; congruence. }
  destruct H as (Hdet & Hst & Ht & Ho & Hcur).
  rewrite Hdet, Hst in Hd. rewrite Ht in Hb.
  repeat split; assumption.
Qed.

(** X9. A configuration change in an open dialog ends whatever session
    is under way: afterwards no detector exists and the start timer is
    not pending, the output test timer does not run, both buttons carry
    their resting labels, and the option list holds the controls of the
    new configuration with no row selected. *)
Theorem ConfigChanged_cancels_detection_and_test (ref : R) (controller : C)
    type controls events (new_controls : list string) :
  let w := run threshold events (construct ref controller type controls) in
  let w' := ConfigChanged new_controls w in
  m_input_detector w' = None
  /\ input_detect_start_timer w' = false
  /\ m_output_test_timer w' = false
  /\ m_detect_button w' = "Detect Input"%string
  /\ m_test_button w' = "Test Output"%string
  /\ m_option_list w' = new_controls
  /\ current_item w' = None.
Proof.
  intros w.
  destruct (reachable_coherent ref controller type controls events)
    as ((Hw & Hb & _) & Hc).
  apply ConfigChanged_cancels; [|exact Hc].
  unfold delivers. fold w in Hw, Hb. now rewrite Hw, Hb.
Qed.

(** *** What ends an output test *)

(** The timer is stopped and 0 is the value written last. *)
Definition stopped w : Prop :=
  m_output_test_timer w = false
  /\ hd_error (state_written w) = Some 0%float.

Lemma settles_stopped w w' : settles w w' -> stopped w -> stopped w'.
Proof.
  intros [[T S] | [T [l S]]] [Ht Hs]; split; try congruence.
  now rewrite S.
Qed.

Lemma emit_TestOutputComplete_stopped w :
  delivers w = true -> stopped (emit_TestOutputComplete w).
Proof.
  intros Hd. destruct (emit_TestOutputComplete_stops w Hd) as [T S].
  split; [exact T | now rewrite S].
Qed.

Lemma UpdateExpression_stopped w (s : string) mode :
  delivers w = true -> stopped (UpdateExpression s mode w).
Proof.
  intros Hd.
  destruct (UpdateExpression_frame w s mode)
    as (_ & _ & _ & _ & _ & _ & _ & T & S).
  destruct (emit_TestOutputComplete_stopped w Hd) as [T' S'].
  split; congruence.
Qed.

Lemma set_expression_text_stopped w (s : string) :
  delivers w = true -> stopped (set_expression_text s w).
Proof.
  intros Hd. unfold set_expression_text, on_textChanged.
  change (widgets_connected (set_m_expression_text s w))
    with (widgets_connected w).
  assert (Hw : widgets_connected w = true)
    by (unfold delivers in Hd; now apply andb_prop in Hd).
  rewrite Hw. now apply UpdateExpression_stopped.
Qed.

Lemma done_stopped w code : delivers w = true -> stopped (done code w).
Proof.
  intros Hd. unfold done, on_finished.
  change (delivers (set_result (Some code) w)) with (delivers w).
  rewrite Hd. now apply UpdateExpression_stopped.
Qed.

Lemma OnDialogButtonPressed_stopped w button :
  delivers w = true -> stopped (OnDialogButtonPressed button w).
Proof.
  intros Hd. destruct button; cbn [OnDialogButtonPressed].
  - now apply set_expression_text_stopped.
  - set (w1 := UpdateExpression (m_expression_text w) Normal w).
    assert (H1 : stopped w1) by now apply UpdateExpression_stopped.
    clearbody w1.
    destruct (GetParseStatus (m_reference w1));
      try (eapply settles_stopped; [|exact H1];
           eapply settles_trans; [|apply done_settles];
           apply settles_same; reflexivity).
    exact H1.
Qed.

Lemma ConfigChanged_stopped w controls :
  delivers w = true -> stopped (ConfigChanged controls w).
Proof.
  intros Hd. unfold ConfigChanged.
  set (w1 := emit_DetectInputComplete w).
  set (w2 := emit_TestOutputComplete w1).
  set (w3 := set_signals_blocked true w2).
  set (w4 := UpdateExpression _ Force w3).
  set (w5 := set_expression_text _ w4).
  set (w6 := spinbox_setValue _ w5).
  assert (Hd1 : delivers w1 = true).
  { destruct (emit_DetectInputComplete_flags w) as [A B].
    unfold delivers in *. fold w1 in A, B. now rewrite A, B. }
  assert (H2 : stopped w2) by now apply emit_TestOutputComplete_stopped.
  assert (H6 : stopped w6).
  { eapply settles_stopped; [|exact H2].
    apply settles_trans with w3; [apply settles_same; reflexivity|].
    apply settles_trans with w4; [apply UpdateExpression_settles|].
    apply settles_trans with w5; [apply set_expression_text_settles|].
    apply spinbox_setValue_settles. }
  clearbody w6. exact H6.
Qed.

Lemma spinbox_setValue_stopped w (v : Z) :
  delivers w = true ->
  bound_value (m_scalar_spinbox w) v <> spin_value (m_scalar_spinbox w) ->
  stopped (spinbox_setValue v w).
Proof.
  intros Hd Hv. unfold spinbox_setValue.
  apply Z.eqb_neq in Hv. rewrite Hv.
  assert (Hw : widgets_connected w = true)
    by (unfold delivers in Hd; now apply andb_prop in Hd).
  cbn [widgets_connected set_m_scalar_spinbox]. rewrite Hw.
  unfold OnRangeChanged. apply emit_TestOutputComplete_stopped. exact Hd.
Qed.

(** The events of input detection, the update tick and the reset of the
    variables. *)
Definition leaves_test_alone (e : Event) : bool :=
  match e with
  | DetectClicked | DetectStartTimeout _ _ | WindowUpdate _ _
  | ResetVariables => true
  | _ => false
  end.

Lemma leaves_test_alone_frame w e :
  leaves_test_alone e = true ->
  m_output_test_timer (handle threshold e w) = m_output_test_timer w
  /\ state_written (handle threshold e w) = state_written w.
Proof.
  destruct e; try discriminate; intros _; unfold handle.
  - split; reflexivity.
  - unfold on_detect_start_timeout.
    destruct (input_detect_start_timer w); split; reflexivity.
  - unfold Update. destruct (m_input_detector w) as [d|];
      [|split; reflexivity].
    destruct (InputDetector.IsComplete d); [|split; reflexivity].
    destruct (InputDetector.TakeResults d) as [results d'].
    unfold emit_DetectInputComplete.
    destruct (delivers _); destruct results as [|front ?];
      try (split; reflexivity);
      destruct (findItems _ _); split; reflexivity.
  - split; reflexivity.
Qed.

(** X16. What ends a running output test, event by event. In a dialog
    whose signals are delivered, after an edit of the text, a press of
    Clear or OK, the closing of the dialog, a configuration change, or an
    edit of the spin box that changes its value, the test timer is
    stopped and 0 is the value written last to the reference; the same
    holds after a second click on the test button and after the timer has
    run out. An edit of the spin box that leaves its value (one beyond
    the bounds, with the box at that bound) changes nothing at all, and
    the events of input detection, the update tick and the reset of the
    variables leave the timer and the values written as they are. *)
Theorem changes_end_the_output_test w :
  delivers w = true ->
  let ended w' :=
    m_output_test_timer w' = false
    /\ hd_error (state_written w') = Some 0%float in
  (forall s, ended (handle threshold (TextEdited s) w))
  /\ (forall button, ended (handle threshold (ButtonPressed button) w))
  /\ ended (handle threshold DialogClosed w)
  /\ (forall controls, ended (handle threshold (ConfigChange controls) w))
  /\ (forall v,
        bound_value (m_scalar_spinbox w) v <> spin_value (m_scalar_spinbox w) ->
        ended (handle threshold (RangeEdited v) w))
  /\ (forall v,
        bound_value (m_scalar_spinbox w) v = spin_value (m_scalar_spinbox w) ->
        handle threshold (RangeEdited v) w = w)
  /\ (m_output_test_timer w = true ->
      ended (handle threshold TestClicked w)
      /\ ended (handle threshold TestTimeout w))
  /\ (forall e,
        leaves_test_alone e = true ->
        m_output_test_timer (handle threshold e w) = m_output_test_timer w
        /\ state_written (handle threshold e w) = state_written w).
Proof.
  intros Hd ended.
  split; [intros s; now apply set_expression_text_stopped|].
  split; [intros button; now apply OnDialogButtonPressed_stopped|].
  split; [now apply done_stopped|].
  split; [intros controls; now apply ConfigChanged_stopped|].
  split; [intros v; now apply spinbox_setValue_stopped|].
  split.
  { intros v Hv. unfold handle, spinbox_setValue.
    apply Z.eqb_eq in Hv. now rewrite Hv. }
  split; [|intros e; apply leaves_test_alone_frame].
  intros Ht. unfold handle, on_test_clicked, on_test_timeout. rewrite Ht.
  split; [now apply emit_TestOutputComplete_stopped|].
  apply (emit_TestOutputComplete_stopped (set_m_output_test_timer false w)).
  exact Hd.
Qed.

(** *** The variables box after a compilation *)

Lemma recompiled_variables w (error : option string) (ref : R) :
  coherent w ->
  let w' := recompiled error ref w in
  m_controller w' = UpdateSingleControlReference ref (m_controller w)
  /\ m_variables_combo w'
     = header
       ++ map (fun v => Item (fst v)) (GetExpressionVariables (m_controller w')).
Proof.
  intros (_ & [names Hv] & _). cbv zeta. unfold recompiled. cbn.
  split; [reflexivity|]. now rewrite Hv.
Qed.

(** X17. Each time [UpdateExpression] compiles (the mode is [Force] or
    the text differs from the reference's expression), in any state an
    open dialog can reach, the controller is told of the new reference
    and the variables box is rebuilt from it: the four fixed items, then
    one item for each expression variable the controller has after the
    update, in the controller's order. *)
Theorem variables_box_lists_controller_variables (ref : R) (controller : C)
    type controls events (s : string) mode :
  let w := run threshold events (construct ref controller type controls) in
  mode = Force \/ s <> GetExpression (m_reference w) ->
  let w' := UpdateExpression s mode w in
  m_controller w'
  = UpdateSingleControlReference (m_reference w') (m_controller w)
  /\ m_variables_combo w'
     = [Item "User Variables"; Separator; Item "Reset Values"; Separator]
       ++ map (fun v => Item (fst v))
            (GetExpressionVariables (m_controller w')).
Proof.
  intros w Hmode w'.
  destruct (reachable_coherent ref controller type controls events)
    as (_ & Hc).
  fold w in Hc. unfold w'. clearbody w.
  destruct (UpdateExpression_cases w s mode)
    as [(Hm & Hs & _) | (error & ref' & _ & ->)].
  - destruct Hmode as [-> | Hne]; [discriminate | contradiction].
  - apply keeps_TestOutputComplete in Hc.
    destruct (recompiled_variables (emit_TestOutputComplete w) error ref' Hc)
      as [A B].
    split; [|exact B].
    rewrite A.
    now rewrite (proj1 (proj2 (emit_TestOutputComplete_frame w))).
Qed.

(** X21. The item numbers wired into the slot of the variables box
    agree with what the box holds in every state an open dialog can
    reach. Whichever item that is not a separator is activated: the slot
    does nothing only for the title; it resets the variables only for the
    item that reads [Reset Values]; and otherwise the item is one of the
    variables listed after the four fixed items, and what is inserted is
    [$] followed by that variable's name, never the title or the reset
    item behind a [$]. *)
Theorem variables_box_slot_matches_its_items (ref : R) (controller : C)
    type controls events (index : Z) (label : string) :
  let w := run threshold events (construct ref controller type controls) in
  0 <= index ->
  nth_error (m_variables_combo w) (Z.to_nat index) = Some (Item label) ->
  match variables_combo_activated index (m_variables_combo w) with
  | NoAction => index = 0 /\ label = "User Variables"%string
  | ResetValues => index = 2 /\ label = "Reset Values"%string
  | InsertPlainText s => 4 <= index /\ s = ("$" ++ label)%string
  end.
Proof.
  intros w Hi Hn.
  destruct (reachable_coherent ref controller type controls events)
    as (_ & _ & [names Hv] & _).
  fold w in Hv. rewrite Hv in *. clearbody w.
  unfold variables_combo_activated, itemText, header in *.
  destruct (Z.eqb_spec index 0) as [-> | H0].
  { change (Z.to_nat 0) with 0%nat in Hn. cbn in Hn.
    split; [reflexivity | congruence]. }
  destruct (Z.eqb_spec index 2) as [-> | H2].
  { change (Z.to_nat 2) with 2%nat in Hn. cbn in Hn.
    split; [reflexivity | congruence]. }
  destruct (Z.ltb_spec index 0); [lia|].
  rewrite Hn.
  assert (H1 : index <> 1).
  { intros ->. change (Z.to_nat 1) with 1%nat in Hn. discriminate Hn. }
  assert (H3 : index <> 3).
  { intros ->. change (Z.to_nat 3) with 3%nat in Hn. discriminate Hn. }
  split; [lia | reflexivity].
Qed.

(** *** The editor, the reference and the original expression *)

(** The original expression is as it was. *)
Definition same_original w w' : Prop :=
  m_original_expression w' = m_original_expression w.

Lemma same_original_trans w1 w2 w3 :
  same_original w1 w2 -> same_original w2 w3 -> same_original w1 w3.
Proof. unfold same_original. congruence. Qed.

Lemma same_original_silent w w' : silent w w' -> same_original w w'.
Proof. intros (_ & _ & H & _). exact H. Qed.

Lemma same_original_TestOutputComplete w :
  same_original w (emit_TestOutputComplete w).
Proof. apply emit_TestOutputComplete_frame. Qed.

Lemma same_original_DetectInputComplete w :
  same_original w (emit_DetectInputComplete w).
Proof.
  unfold emit_DetectInputComplete. destruct (delivers w); reflexivity.
Qed.

Lemma same_original_UpdateExpression w (s : string) mode :
  same_original w (UpdateExpression s mode w).
Proof. apply UpdateExpression_frame. Qed.

(** Only an accepted OK moves the original expression. *)
Lemma handle_same_original w e :
  e <> ButtonPressed OkButton -> same_original w (handle threshold e w).
Proof.
  intros He. destruct e as [s | [|] | | v | | | | now0 cs | now0 sample | cs |];
    unfold handle.
  - apply (closed_set_expression_text same_original);
      auto using same_original_silent, same_original_UpdateExpression.
    exact same_original_trans.
  - apply (closed_set_expression_text same_original);
      auto using same_original_silent, same_original_UpdateExpression.
    exact same_original_trans.
  - contradiction.
  - apply (closed_done same_original);
      auto using same_original_silent, same_original_UpdateExpression.
    exact same_original_trans.
  - apply (closed_spinbox_setValue same_original);
      auto using same_original_silent, same_original_TestOutputComplete.
    + reflexivity.
    + exact same_original_trans.
    + reflexivity.
  - unfold on_test_clicked. destruct (m_output_test_timer w);
      [apply same_original_TestOutputComplete | reflexivity].
  - unfold on_test_timeout. destruct (m_output_test_timer w);
      [|reflexivity].
    apply (same_original_TestOutputComplete (set_m_output_test_timer false w)).
  - reflexivity.
  - unfold on_detect_start_timeout.
    destruct (input_detect_start_timer w); reflexivity.
  - unfold Update. destruct (m_input_detector w) as [d|]; [|reflexivity].
    destruct (InputDetector.IsComplete d); [|reflexivity].
    destruct (InputDetector.TakeResults d) as [results d'].
    assert (H : same_original w
                  (emit_DetectInputComplete
                     (set_m_input_detector (Some d') w)))
      by apply (same_original_DetectInputComplete
                  (set_m_input_detector (Some d') w)).
    destruct results as [|front ?]; [exact H|].
    destruct (findItems _ _); exact H.
  - apply (closed_ConfigChanged same_original);
      auto using same_original_silent, same_original_TestOutputComplete,
        same_original_DetectInputComplete, same_original_UpdateExpression.
    + reflexivity.
    + exact same_original_trans.
    + reflexivity.
  - reflexivity.
Qed.

Lemma ConnectWidgets_original w :
  m_original_expression (ConnectWidgets w) = m_original_expression w.
Proof. reflexivity. Qed.

Lemma construct_original (ref : R) (controller : C) type controls :
  m_original_expression (construct ref controller type controls)
  = GetExpression ref.
Proof.
  unfold construct. rewrite ConnectWidgets_original.
  apply (closed_ConfigChanged same_original);
    auto using same_original_silent, same_original_TestOutputComplete,
      same_original_DetectInputComplete, same_original_UpdateExpression.
  - reflexivity.
  - exact same_original_trans.
  - reflexivity.
Qed.

Lemma run_same_original events w :
  ~ In (ButtonPressed OkButton) events ->
  same_original w (run threshold events w).
Proof.
  unfold run. revert w.
  induction events as [|e events IH]; intros w Hno; cbn [fold_left];
    [reflexivity|].
  eapply same_original_trans.
  - apply (handle_same_original w e). intros ->. apply Hno. now left.
  - apply IH. intros Hin. apply Hno. now right.
Qed.

Section Stored.

(** The reference keeps the text it is given as its expression, whether
    or not the text compiles. *)
Hypothesis stores :
  forall (s : string) (r : R), GetExpression (snd (SetExpression s r)) = s.

Lemma UpdateExpression_expression w (s : string) mode :
  GetExpression (m_reference (UpdateExpression s mode w)) = s.
Proof.
  destruct (UpdateExpression_cases w s mode)
    as [(_ & E & ->) | (error & ref & E & ->)].
  - now rewrite emit_TestOutputComplete_reference.
  - change (m_reference (recompiled error ref (emit_TestOutputComplete w)))
      with ref.
    replace ref with (snd (SetExpression s (m_reference w)))
      by now rewrite E.
    apply stores.
Qed.

Lemma UpdateExpression_text w (s : string) mode :
  m_expression_text (UpdateExpression s mode w) = m_expression_text w.
Proof. apply UpdateExpression_frame. Qed.

(** The editor shows the expression of the reference. *)
Definition synced w : Prop :=
  m_expression_text w = GetExpression (m_reference w).

Definition same_sync w w' : Prop :=
  m_expression_text w' = m_expression_text w
  /\ GetExpression (m_reference w') = GetExpression (m_reference w).

Lemma same_sync_refl w : same_sync w w.
Proof. split; reflexivity. Qed.

Lemma same_sync_trans w1 w2 w3 :
  same_sync w1 w2 -> same_sync w2 w3 -> same_sync w1 w3.
Proof. intros [A B] [A' B']. split; congruence. Qed.

Lemma same_sync_synced w w' : same_sync w w' -> synced w -> synced w'.
Proof. unfold synced. intros [A B] H. congruence. Qed.

Lemma same_sync_TestOutputComplete w :
  same_sync w (emit_TestOutputComplete w).
Proof.
  destruct (emit_TestOutputComplete_frame w) as (A & _ & _ & B & _).
  split; [exact B | now rewrite A].
Qed.

Lemma same_sync_DetectInputComplete w :
  same_sync w (emit_DetectInputComplete w).
Proof.
  unfold emit_DetectInputComplete. destruct (delivers w); split; reflexivity.
Qed.

Lemma same_sync_OnRangeChanged w (v : Z) : same_sync w (OnRangeChanged v w).
Proof.
  unfold OnRangeChanged.
  eapply same_sync_trans; [|apply same_sync_TestOutputComplete].
  split; [reflexivity|]. cbn. apply GetExpression_set_range.
Qed.

Lemma same_sync_spinbox_setValue w (v : Z) :
  same_sync w (spinbox_setValue v w).
Proof.
  unfold spinbox_setValue. destruct (_ =? _); [apply same_sync_refl|].
  destruct (widgets_connected _); [|split; reflexivity].
  eapply same_sync_trans; [|apply same_sync_OnRangeChanged].
  split; reflexivity.
Qed.

Lemma UpdateExpression_synced w (s : string) mode :
  m_expression_text w = s -> synced (UpdateExpression s mode w).
Proof.
  intros E. unfold synced.
  now rewrite UpdateExpression_text, UpdateExpression_expression.
Qed.

Lemma set_expression_text_synced w (s : string) :
  widgets_connected w = true \/ s = GetExpression (m_reference w) ->
  synced (set_expression_text s w).
Proof.
  intros H. unfold set_expression_text, on_textChanged.
  change (widgets_connected (set_m_expression_text s w))
    with (widgets_connected w).
  destruct (widgets_connected w).
  - now apply UpdateExpression_synced.
  - destruct H as [H | ->]; [discriminate | reflexivity].
Qed.

Lemma done_Accepted_synced w :
  synced w -> m_original_expression w = m_expression_text w ->
  synced (done Accepted w).
Proof.
  intros Hs Ho. unfold done, on_finished.
  destruct (delivers _); [|exact Hs].
  apply UpdateExpression_synced. cbn. now rewrite Ho.
Qed.

Lemma OnDialogButtonPressed_synced w button :
  widgets_connected w = true -> synced (OnDialogButtonPressed button w).
Proof.
  intros Hw. destruct button; cbn [OnDialogButtonPressed].
  - apply set_expression_text_synced. now left.
  - set (w1 := UpdateExpression (m_expression_text w) Normal w).
    assert (H1 : synced w1) by now apply UpdateExpression_synced.
    clearbody w1.
    destruct (GetParseStatus (m_reference w1)); try exact H1;
      (apply done_Accepted_synced; [exact H1 | cbn; symmetry; exact H1]).
Qed.

(** Up to the forced compilation, a configuration change leaves the
    expression of the reference and the connections. *)
Lemma ConfigChanged_compiles_same w :
  let w3 :=
    set_signals_blocked true
      (emit_TestOutputComplete (emit_DetectInputComplete w)) in
  let w4 := UpdateExpression (GetExpression (m_reference w3)) Force w3 in
  GetExpression (m_reference w4) = GetExpression (m_reference w)
  /\ widgets_connected w4 = widgets_connected w.
Proof.
  cbv zeta.
  set (w1 := emit_DetectInputComplete w).
  set (w2 := emit_TestOutputComplete w1).
  set (w3 := set_signals_blocked true w2).
  assert (E3 : GetExpression (m_reference w3) = GetExpression (m_reference w)).
  { destruct (same_sync_TestOutputComplete w1) as [_ E2].
    destruct (same_sync_DetectInputComplete w) as [_ E1].
    fold w1 in E1. fold w2 in E2.
    change (m_reference w3) with (m_reference w2). congruence. }
  split.
  - now rewrite UpdateExpression_expression.
  - rewrite (proj1 (UpdateExpression_flags w3 _ Force)).
    change (widgets_connected w3) with (widgets_connected w2).
    unfold w2. rewrite (proj1 (emit_TestOutputComplete_flags w1)).
    unfold w1. apply (proj1 (emit_DetectInputComplete_flags w)).
Qed.

Lemma ConfigChanged_synced w controls :
  widgets_connected w = true
  \/ plain_text (GetExpression (m_reference w)) = GetExpression (m_reference w) ->
  synced (ConfigChanged controls w).
Proof.
  intros H. unfold ConfigChanged.
  destruct (ConfigChanged_compiles_same w) as [E4 C4]. cbv zeta in E4, C4.
  set (w4 := UpdateExpression _ Force _) in *.
  set (w5 := set_expression_text _ w4).
  set (w6 := spinbox_setValue _ w5).
  assert (H5 : synced w5).
  { apply set_expression_text_synced. rewrite C4, E4.
    destruct H as [H | H]; [now left | now right]. }
  assert (H6 : synced w6)
    by (eapply same_sync_synced;
        [apply same_sync_spinbox_setValue | exact H5]).
  clearbody w6. exact H6.
Qed.

Lemma handle_synced w e :
  widgets_connected w = true -> e <> DialogClosed ->
  synced w -> synced (handle threshold e w).
Proof.
  intros Hw He Hs. destruct e; unfold handle.
  - apply set_expression_text_synced. now left.
  - now apply OnDialogButtonPressed_synced.
  - contradiction.
  - eapply same_sync_synced; [apply same_sync_spinbox_setValue | exact Hs].
  - unfold on_test_clicked. destruct (m_output_test_timer w).
    + eapply same_sync_synced;
        [apply same_sync_TestOutputComplete | exact Hs].
    + exact Hs.
  - unfold on_test_timeout. destruct (m_output_test_timer w); [|exact Hs].
    eapply same_sync_synced;
      [apply (same_sync_TestOutputComplete
                (set_m_output_test_timer false w)) | exact Hs].
  - exact Hs.
  - unfold on_detect_start_timeout.
    destruct (input_detect_start_timer w); exact Hs.
  - unfold Update. destruct (m_input_detector w) as [d|]; [|exact Hs].
    destruct (InputDetector.IsComplete d); [|exact Hs].
    destruct (InputDetector.TakeResults d) as [results d'].
    assert (H : synced (emit_DetectInputComplete
                          (set_m_input_detector (Some d') w))).
    { eapply same_sync_synced;
        [apply (same_sync_DetectInputComplete
                  (set_m_input_detector (Some d') w)) | exact Hs]. }
    destruct results as [|front ?]; [exact H|].
    destruct (findItems _ _); exact H.
  - apply ConfigChanged_synced. now left.
  - exact Hs.
Qed.

Lemma construct_synced (ref : R) (controller : C) type controls :
  plain_text (GetExpression ref) = GetExpression ref ->
  synced (construct ref controller type controls).
Proof.
  intros Hsame. unfold construct.
  assert (H : forall w, synced w -> synced (ConnectWidgets w))
    by (intros w H; exact H).
  apply H, ConfigChanged_synced. right. exact Hsame.
Qed.

Lemma run_synced events w :
  ~ In DialogClosed events -> test_invariant w -> synced w ->
  synced (run threshold events w).
Proof.
  unfold run. revert w.
  induction events as [|e events IH]; intros w Hno Inv Hs; cbn [fold_left];
    [exact Hs|].
  apply IH.
  - intros Hin. apply Hno. now right.
  - apply handle_test_invariant, Inv.
  - apply handle_synced; [apply Inv | | exact Hs].
    intros ->. apply Hno. now left.
Qed.

(** X10. For a reference that keeps the text it is given, in a dialog
    opened on an expression that the editor gives back as it was put in
    (one that passes unchanged through [QString] and [toPlainText]): as
    long as the dialog has not been closed, the text read from the editor
    is exactly the expression the reference holds, after every edit,
    button, timer, update tick and configuration change; so when OK is
    pressed its call of [UpdateExpression] finds nothing to compile and
    leaves the reference as the last edit made it. After the dialog is
    open this needs nothing of later expressions: a configuration change
    in a connected dialog compiles the reference from the text the editor
    gives back. *)
Theorem editor_shows_the_reference_expression (ref : R) (controller : C)
    type controls events :
  plain_text (GetExpression ref) = GetExpression ref ->
  ~ In DialogClosed events ->
  let w := run threshold events (construct ref controller type controls) in
  m_expression_text w = GetExpression (m_reference w)
  /\ m_reference (UpdateExpression (m_expression_text w) Normal w)
     = m_reference w.
Proof.
  intros Hsame Hno w.
  assert (Hs : synced w).
  { apply run_synced;
      [exact Hno | apply construct_test_invariant
       | apply construct_synced, Hsame]. }
  split; [exact Hs|].
  rewrite Hs, UpdateExpression_same_text.
  apply emit_TestOutputComplete_reference.
Qed.

Lemma done_Rejected_expression w :
  delivers w = true ->
  GetExpression (m_reference (done Rejected w)) = m_original_expression w.
Proof.
  intros Hd. unfold done, on_finished.
  change (delivers (set_result (Some Rejected) w)) with (delivers w).
  rewrite Hd. apply UpdateExpression_expression.
Qed.

(** X11. For a reference that keeps the text it is given: whatever was
    typed, cleared, tested or detected in the dialog, closing it without
    OK leaves the reference with the original expression; and as long as
    OK was never pressed the original expression is the one the reference
    had when the dialog was opened. Edits are provisional until OK. *)
Theorem edits_are_provisional_until_ok (ref : R) (controller : C) type
    controls events :
  let w := run threshold events (construct ref controller type controls) in
  GetExpression (m_reference (done Rejected w)) = m_original_expression w
  /\ (~ In (ButtonPressed OkButton) events ->
      m_original_expression w = GetExpression ref).
Proof.
  intros w. split.
  - apply done_Rejected_expression.
    destruct (run_test_invariant threshold events
                (construct ref controller type controls)
                (construct_test_invariant ref controller type controls))
      as (Hw & Hb & _).
    unfold delivers. fold w in Hw, Hb. now rewrite Hw, Hb.
  - intros Hno. unfold w.
    rewrite (run_same_original events _ Hno).
    apply construct_original.
Qed.

(** *** What a configuration change presents *)

Section Presented.

(** Compiling a new expression leaves the range of the reference. *)
Hypothesis keeps_range :
  forall (s : string) (r : R), range (snd (SetExpression s r)) = range r.

(** The reference's range, the spin box and the connections are as they
    were. *)
Definition presents w w' : Prop :=
  range (m_reference w') = range (m_reference w)
  /\ m_scalar_spinbox w' = m_scalar_spinbox w
  /\ widgets_connected w' = widgets_connected w.

Lemma presents_trans w1 w2 w3 :
  presents w1 w2 -> presents w2 w3 -> presents w1 w3.
Proof.
  intros (B & D & E) (B' & D' & E'). repeat split; congruence.
Qed.

Lemma presents_TestOutputComplete w : presents w (emit_TestOutputComplete w).
Proof.
  destruct (emit_TestOutputComplete_frame w)
    as (A & _ & _ & _ & _ & _ & B & D & _).
  repeat split; try assumption; now rewrite A.
Qed.

Lemma presents_DetectInputComplete w :
  presents w (emit_DetectInputComplete w).
Proof.
  unfold emit_DetectInputComplete. destruct (delivers w); repeat split.
Qed.

Lemma presents_UpdateExpression w (s : string) mode :
  presents w (UpdateExpression s mode w).
Proof.
  destruct (UpdateExpression_frame w s mode) as (_ & _ & B & D & _).
  split; [|split; assumption].
  destruct (UpdateExpression_cases w s mode)
    as [(_ & _ & ->) | (error & ref & E & ->)].
  - now rewrite emit_TestOutputComplete_reference.
  - change (m_reference (recompiled error ref (emit_TestOutputComplete w)))
      with ref.
    replace ref with (snd (SetExpression s (m_reference w)))
      by now rewrite E.
    apply keeps_range.
Qed.

Lemma presents_set_expression_text w (s : string) :
  presents w (set_expression_text s w).
Proof.
  unfold set_expression_text, on_textChanged.
  destruct (widgets_connected _); [|repeat split].
  apply (presents_UpdateExpression (set_m_expression_text s w) s Normal).
Qed.

(** The editor after its text was replaced, and the reference's
    expression: the new text when the slot of [textChanged] is
    connected. *)
Lemma set_expression_text_effect w (s : string) :
  m_expression_text (set_expression_text s w) = s
  /\ GetExpression (m_reference (set_expression_text s w))
     = (if widgets_connected w then s else GetExpression (m_reference w)).
Proof.
  unfold set_expression_text, on_textChanged.
  change (widgets_connected (set_m_expression_text s w))
    with (widgets_connected w).
  destruct (widgets_connected w); [|split; reflexivity].
  split; [now rewrite UpdateExpression_text|].
  apply UpdateExpression_expression.
Qed.

(** What [setValue] does to the spin box and to the range. *)
Lemma spinbox_setValue_effect w (v : Z) :
  let box := m_scalar_spinbox w in
  let w' := spinbox_setValue v w in
  spin_value (m_scalar_spinbox w') = bound_value box v
  /\ minimum (m_scalar_spinbox w') = minimum box
  /\ maximum (m_scalar_spinbox w') = maximum box
  /\ range (m_reference w')
     = (if widgets_connected w && negb (bound_value box v =? spin_value box)
        then (Lexer.float_of_Z (bound_value box v) / 100)%float
        else range (m_reference w)).
Proof.
  cbv zeta. unfold spinbox_setValue.
  destruct (Z.eqb_spec (bound_value (m_scalar_spinbox w) v)
              (spin_value (m_scalar_spinbox w))) as [E | E].
  - rewrite andb_false_r. repeat split. now rewrite E.
  - cbn [widgets_connected set_m_scalar_spinbox].
    destruct (widgets_connected w) eqn:Hw; cbn [andb negb].
    + unfold OnRangeChanged at 1 2 3.
      rewrite (proj1 (proj2 (proj2 (proj2 (proj2 (proj2 (proj2
                 (emit_TestOutputComplete_frame _)))))))).
      repeat split. apply OnRangeChanged_range.
    + repeat split.
Qed.

(** Where the conversion to [int] is defined it gives the integer
    part. *)
Lemma int_of_double_fits (x : ControlState) (a : Z) :
  truncate x = Some a -> INT_MIN <= a <= INT_MAX -> int_of_double x = a.
Proof.
  intros E H. unfold int_of_double. rewrite E.
  destruct (Z.leb_spec INT_MIN a); [|lia].
  destruct (Z.leb_spec a INT_MAX); [reflexivity | lia].
Qed.

Lemma ConfigChanged_presents w controls :
  let w' := ConfigChanged controls w in
  let shown :=
    bound_value (m_scalar_spinbox w)
      (int_of_double (range (m_reference w) * 100)%float) in
  m_expression_text w' = plain_text (GetExpression (m_reference w))
  /\ GetExpression (m_reference w')
     = (if widgets_connected w
        then plain_text (GetExpression (m_reference w))
        else GetExpression (m_reference w))
  /\ spin_value (m_scalar_spinbox w') = shown
  /\ minimum (m_scalar_spinbox w') = minimum (m_scalar_spinbox w)
  /\ maximum (m_scalar_spinbox w') = maximum (m_scalar_spinbox w)
  /\ range (m_reference w')
     = (if widgets_connected w
           && negb (shown =? spin_value (m_scalar_spinbox w))
        then (Lexer.float_of_Z shown / 100)%float
        else range (m_reference w))
  /\ m_option_list w' = controls.
Proof.
  cbv zeta. unfold ConfigChanged.
  destruct (ConfigChanged_compiles_same w) as [E4 C4]. cbv zeta in E4, C4.
  set (w1 := emit_DetectInputComplete w) in *.
  set (w2 := emit_TestOutputComplete w1) in *.
  set (w3 := set_signals_blocked true w2) in *.
  set (w4 := UpdateExpression (GetExpression (m_reference w3)) Force w3) in *.
  set (w5 := set_expression_text
               (plain_text (GetExpression (m_reference w4))) w4).
  set (v := int_of_double (range (m_reference w5) * 100)%float).
  set (w6 := spinbox_setValue v w5).
  assert (P5 : presents w w5).
  { apply presents_trans with w1; [apply presents_DetectInputComplete|].
    apply presents_trans with w2; [apply presents_TestOutputComplete|].
    apply presents_trans with w3; [repeat split|].
    apply presents_trans with w4; [apply presents_UpdateExpression|].
    apply presents_set_expression_text. }
  destruct (set_expression_text_effect w4
              (plain_text (GetExpression (m_reference w4)))) as [T5 X5].
  fold w5 in T5, X5. rewrite E4 in T5, X5. rewrite C4 in X5.
  assert (S6 : same_sync w5 w6) by apply same_sync_spinbox_setValue.
  destruct (spinbox_setValue_effect w5 v) as (Hs & Hmin & Hmax & Hr).
  fold w6 in Hs, Hmin, Hmax, Hr.
  destruct P5 as (R5 & B5 & C5), S6 as [T6 E6].
  assert (Hv : v = int_of_double (range (m_reference w) * 100)%float)
    by (unfold v; now rewrite R5).
  clearbody w6 w5. rewrite Hv, B5 in *. cbn.
  split; [congruence|]. split; [congruence|].
  split; [exact Hs|]. split; [exact Hmin|]. split; [exact Hmax|].
  split; [|reflexivity].
  rewrite C5, R5 in Hr. exact Hr.
Qed.

(** X19. For a reference that keeps the text it is given and whose range
    does not depend on its expression, with a range whose hundredfold
    has an integer part [a] that is an [int]: a configuration change puts
    the reference's expression in the editor, which shows it as
    [plain_text] gives it back; in a connected dialog the reference's
    expression becomes that text, otherwise it stays. The spin box is set
    to [a] kept within its bounds. The range itself is left as it was,
    unless the dialog's widgets are connected and the value of the spin
    box changes by this: then the range becomes exactly the value shown,
    over 100. *)
Theorem ConfigChanged_presents_the_reference w controls (a : Z) :
  truncate (range (m_reference w) * 100)%float = Some a ->
  INT_MIN <= a <= INT_MAX ->
  let w' := ConfigChanged controls w in
  let shown := bound_value (m_scalar_spinbox w) a in
  m_expression_text w' = plain_text (GetExpression (m_reference w))
  /\ GetExpression (m_reference w')
     = (if widgets_connected w
        then plain_text (GetExpression (m_reference w))
        else GetExpression (m_reference w))
  /\ spin_value (m_scalar_spinbox w') = shown
  /\ range (m_reference w')
     = (if widgets_connected w
           && negb (shown =? spin_value (m_scalar_spinbox w))
        then (Lexer.float_of_Z shown / 100)%float
        else range (m_reference w))
  /\ m_option_list w' = controls.
Proof.
  intros Ha Hfit.
  destruct (ConfigChanged_presents w controls)
    as (A & B & D & _ & _ & E & F).
  cbv zeta in *. rewrite (int_of_double_fits _ a Ha Hfit) in D, E.
  repeat split; assumption.
Qed.

Lemma ConnectWidgets_frame w :
  m_reference (ConnectWidgets w) = m_reference w
  /\ m_expression_text (ConnectWidgets w) = m_expression_text w
  /\ m_scalar_spinbox (ConnectWidgets w) = m_scalar_spinbox w
  /\ m_option_list (ConnectWidgets w) = m_option_list w.
Proof. repeat split. Qed.

(** X20. For such a reference and range, opening the dialog changes
    neither the reference's expression nor its range: no slot is
    connected yet when the constructor presents them. The new dialog
    shows in the editor the expression as [plain_text] gives it back, and
    in the spin box [a], the integer part of the range in percent, kept
    within plus and minus 1000 for an input and 100 for an output; it
    lists the controls it was given and remembers the reference's own
    expression as the original one. *)
Theorem construct_presents_the_reference (ref : R) (controller : C) type
    controls (a : Z) :
  truncate (range ref * 100)%float = Some a ->
  INT_MIN <= a <= INT_MAX ->
  let w := construct ref controller type controls in
  GetExpression (m_reference w) = GetExpression ref
  /\ range (m_reference w) = range ref
  /\ m_expression_text w = plain_text (GetExpression ref)
  /\ m_original_expression w = GetExpression ref
  /\ spin_value (m_scalar_spinbox w)
     = Z.max (- scalar_min_max type) (Z.min (scalar_min_max type) a)
  /\ m_option_list w = controls.
Proof.
  intros Ha Hfit w.
  assert (Ho : m_original_expression w = GetExpression ref)
    by apply construct_original.
  unfold w, construct in *.
  destruct (ConnectWidgets_frame
              (ConfigChanged controls (CreateMainLayout ref controller type)))
    as (-> & -> & -> & ->).
  destruct (ConfigChanged_presents (CreateMainLayout ref controller type)
              controls) as (A & B & D & _ & _ & E & F).
  cbv zeta in D.
  change (range (m_reference (CreateMainLayout ref controller type)))
    with (range ref) in D.
  rewrite (int_of_double_fits _ a Ha Hfit) in D.
  split; [exact B|]. split; [exact E|].
  split; [exact A|]. split; [exact Ho|]. split; [exact D | exact F].
Qed.

End Presented.

End Stored.

End DialogInvariants.

(** ** The devices box *)

Module DeviceListProperties.
Import QComboBox.




















End DeviceListProperties.

(** ** The option list *)

Module OptionListProperties.
Import QTableWidget.






End OptionListProperties.

(* ===================================================================== *)
(** * Instances                                                           *)
(* ===================================================================== *)

(** The properties above at concrete texts and dialogs, with the lexer,
    the parser and the control reference of this file. *)

Module Instances.
Import LanguageProperties.

(** The texts put in the editor below are of printable ASCII characters,
    which pass through [QString] and the editor unchanged: for them the
    editor gives back what it was given. *)
#[export] Instance printable_editor : QPlainTextEditOps :=
  {| plain_text := fun s => s |}.

Definition failing_document : QTextDocument :=
  mkDocument (fromLatin1 "A & & B") [mkBlock 0 8].

Definition valid_document : QTextDocument :=
  mkDocument (fromLatin1 "1 + 2") [mkBlock 0 6].

Abbreviation tokens_of := (highlight_tokens Lexer.Tokenize Parser.ParseTokens).

(** "A & & B" is marked at the second [&], offset 4; "1 + 2" gets no
    marker. *)
Lemma highlight_marks_parse_failure_witness :
  (exists invalid,
     tokens_of (toPlainText failing_document)
     = Some (fst (Lexer.Tokenize "A & & B") ++ [invalid])
     /\ type invalid = TOK_INVALID
     /\ string_position invalid = 4
     /\ string_length invalid = 1)
  /\ tokens_of (toPlainText valid_document)
     = Some (fst (Lexer.Tokenize "1 + 2")).
Proof.
  split.
  - destruct (highlight_marks_parse_failure Lexer.Tokenize Parser.ParseTokens
                true failing_document (fst (Lexer.Tokenize "A & & B")))
      as [_ H]; [vm_compute; reflexivity|].
    destruct (H (mkToken TOK_AND 4 1 NoValue))
      as (invalid & E & _ & Ht & Hp & Hl & _);
      [vm_compute; discriminate | vm_compute; reflexivity |].
    exists invalid. repeat split; assumption.
  - destruct (highlight_marks_parse_failure Lexer.Tokenize Parser.ParseTokens
                true valid_document (fst (Lexer.Tokenize "1 + 2")))
      as [H _]; [vm_compute; reflexivity|].
    destruct H as [E _]; [vm_compute; reflexivity|]. exact E.
Defined.

(** The marker of "A & & B" in its one block. *)
Lemma marker_painted_last_witness :
  set_block_formats false
    (fst (Lexer.Tokenize "A & & B") ++ [mkToken TOK_INVALID 4 1 NoValue])
    (mkBlock 0 8)
  = set_block_formats false (fst (Lexer.Tokenize "A & & B")) (mkBlock 0 8)
    ++ [{| QTextLayout.start := 4; QTextLayout.length := 1;
           QTextLayout.format := GetInvalidCharFormat false |}].
Proof.
  apply (marker_painted_last false (mkBlock 0 8)
           (fst (Lexer.Tokenize "A & & B")) (mkToken TOK_AND 4 1 NoValue)).
  - apply List.Forall_forall. intros t Ht. vm_compute in Ht.
    repeat (destruct Ht as [<- | Ht]; [reflexivity|]). contradiction.
  - split; [discriminate | reflexivity].
  - reflexivity.
Defined.


(** Dialogs on a fresh reference. *)
Definition input_window : IOWindow :=
  construct (ControlReference.create true) (∅ : ControlReference.Controller)
    Input ["ctrl1"%string; "ctrl2"%string].

Definition output_window : IOWindow :=
  construct (ControlReference.create false) (∅ : ControlReference.Controller)
    Output ["Motor"%string].

Definition threshold : ControlState := 0.5%float.

(** "1 +" shows the parser's error without the indicator; "1 + 2" shows
    the indicator. *)
Lemma UpdateExpression_status_line_witness :
  m_parse_text (UpdateExpression "1 +" Normal input_window)
  = mkLineEdit "Unexpected token." false
  /\ m_parse_text (UpdateExpression "1 + 2" Normal input_window)
     = mkLineEdit EmptyString true.
Proof.
  split.
  - destruct (UpdateExpression_status_line input_window "1 +" Normal)
      as (_ & H & _); [right; vm_compute; discriminate|].
    destruct (H "Unexpected token."%string) as [Ht Hp];
      [vm_compute; reflexivity|].
    unfold paints_state_indicator in Hp.
    destruct (m_parse_text _) as [t p]. simpl in Ht, Hp. now subst.
  - destruct (UpdateExpression_status_line input_window "1 + 2" Normal)
      as (_ & _ & _ & _ & H & _); [right; vm_compute; discriminate|].
    destruct H as [Ht Hp]; [vm_compute; reflexivity ..|].
    unfold paints_state_indicator in Hp.
    destruct (m_parse_text _) as [t p]. simpl in Ht, Hp. now subst.
Defined.

(** An unrecognized character is accepted without a warning; a syntax
    error is not. *)
Lemma OnDialogButtonPressed_blocks_syntax_errors_only_witness :
  (let w := handle threshold (TextEdited "1 # 2") input_window in
   GetParseStatus (m_reference w) = TokenizeError
   /\ result (OnDialogButtonPressed OkButton w) = Some Accepted
   /\ warnings (OnDialogButtonPressed OkButton w) = []
   /\ m_original_expression (OnDialogButtonPressed OkButton w)
      = "1 # 2"%string)
  /\
  (let w := handle threshold (TextEdited "1 +") input_window in
   result (OnDialogButtonPressed OkButton w) = None
   /\ warnings (OnDialogButtonPressed OkButton w)
      = ["The expression contains a syntax error."%string]
   /\ m_original_expression (OnDialogButtonPressed OkButton w)
      = EmptyString).
Proof.
  split; cbv zeta.
  - destruct (OnDialogButtonPressed_blocks_syntax_errors_only
                (handle threshold (TextEdited "1 # 2") input_window))
      as (_ & _ & _ & H).
    destruct H as (Hr & Hw & Ho & _); [vm_compute; discriminate|].
    split; [vm_compute; reflexivity|].
    rewrite Hr, Hw, Ho. repeat split; vm_compute; reflexivity.
  - destruct (OnDialogButtonPressed_blocks_syntax_errors_only
                (handle threshold (TextEdited "1 +") input_window))
      as (_ & _ & H & _).
    destruct H as (Hr & Hw & Ho & _); [vm_compute; reflexivity|].
    rewrite Hr, Hw, Ho. repeat split; vm_compute; reflexivity.
Defined.

(** An edit that is not committed is undone when the dialog closes. *)
Lemma close_without_ok_reverts_witness :
  let w := handle threshold (TextEdited "1 + 2") input_window in
  GetExpression (m_reference w) = "1 + 2"%string
  /\ GetExpression (m_reference (done Rejected w)) = EmptyString
  /\ result (done Rejected w) = Some Rejected.
Proof.
  cbv zeta. split; [vm_compute; reflexivity|].
  destruct (close_without_ok_reverts
              (handle threshold (TextEdited "1 + 2") input_window))
    as (Hres & _ & Hrev & _); [vm_compute; reflexivity|].
  split; [|exact Hres].
  rewrite Hrev; [vm_compute; reflexivity | vm_compute; discriminate].
Defined.

(** Setting the same text again changes nothing of the compile. *)
Lemma UpdateExpression_same_text_returns_early_witness :
  let w := handle threshold (TextEdited "1 + 2") input_window in
  m_reference (UpdateExpression "1 + 2" Normal w) = m_reference w
  /\ m_parse_text (UpdateExpression "1 + 2" Normal w)
     = mkLineEdit EmptyString true
  /\ m_variables_combo (UpdateExpression "1 + 2" Normal w)
     = [Item "User Variables"; Separator; Item "Reset Values"; Separator].
Proof.
  cbv zeta.
  destruct (UpdateExpression_same_text_returns_early
              (handle threshold (TextEdited "1 + 2") input_window) "1 + 2")
    as (_ & Hr & _ & _ & Hv & Hp); [vm_compute; reflexivity|].
  rewrite Hr, Hv, Hp. repeat split; vm_compute; reflexivity.
Defined.

(** A running output test ended by its timer. *)
Lemma output_test_always_released_witness :
  let w := handle threshold TestClicked output_window in
  m_output_test_timer w = true
  /\ hd_error (state_written w) = Some 1%float
  /\ m_output_test_timer (on_test_timeout w) = false
  /\ hd_error (state_written (on_test_timeout w)) = Some 0%float.
Proof.
  cbv zeta.
  split; [vm_compute; reflexivity|]. split; [vm_compute; reflexivity|].
  destruct (@output_test_always_released _ _ ControlReference.ops
              ControlReference.controller_ops printable_editor threshold)
    as [H _].
  apply (H (handle threshold TestClicked output_window));
    [vm_compute; reflexivity | vm_compute; reflexivity |].
  left. reflexivity.
Defined.

(** Minus 100 percent on an output: the range becomes -1. *)
Lemma range_is_bounded_spinbox_percentage_witness :
  spin_value (m_scalar_spinbox (spinbox_setValue (-100) output_window)) = -100
  /\ range (m_reference (spinbox_setValue (-100) output_window))
     = (-1)%float.
Proof.
  destruct (range_is_bounded_spinbox_percentage output_window (-100))
    as (Hs & _ & _ & Hch);
    [vm_compute; reflexivity | vm_compute; reflexivity
    | vm_compute; reflexivity |].
  split; [rewrite Hs; vm_compute; reflexivity|].
  destruct Hch as (_ & Hr & _); [vm_compute; discriminate|].
  rewrite Hr. vm_compute. reflexivity.
Defined.

(** A detection session that found ctrl2 and then ctrl1 with an earlier
    time stamp: the dialog selects ctrl1 and drops the detector. *)
Definition detecting_window : IOWindow :=
  run threshold
    [DetectClicked;
     DetectStartTimeout 0
       [("ctrl1"%string, 0%float); ("ctrl2"%string, 0%float)];
     WindowUpdate 100 [("ctrl2"%string, 1%float)];
     WindowUpdate 50 [("ctrl1"%string, 1%float)];
     WindowUpdate 2000 []]
    input_window.

Definition detector_of
    (w : @IOWindow ControlReference.t ControlReference.Controller)
    : InputDetector.t :=
  match m_input_detector w with
  | Some d => d
  | None => InputDetector.create
  end.

Lemma TakeResults_ranked_and_drained_witness :
  map InputDetector.input
    (fst (InputDetector.TakeResults (detector_of detecting_window)))
  = ["ctrl1"%string; "ctrl2"%string]
  /\ m_input_detector (Update threshold 2016 [] detecting_window) = None
  /\ current_item (Update threshold 2016 [] detecting_window)
     = Some "ctrl1"%string.
Proof.
  split; [vm_compute; reflexivity|].
  destruct (@TakeResults_ranked_and_drained ControlReference.t
              ControlReference.Controller threshold) as (_ & _ & H).
  destruct (H detecting_window (detector_of detecting_window) 2016 [])
    as (Hd & Hc & _);
    [vm_compute; reflexivity | vm_compute; reflexivity
    | vm_compute; reflexivity |].
  split; [exact Hd|]. rewrite Hc. vm_compute. reflexivity.
Defined.

(** Addition followed by multiplication groups to the right; the
    negation in "!1 * 2" takes the literal only, by the grammar: a
    unary operator with its operand is the left operand of [*]. *)
Lemma parser_honors_precedence_witness :
  expr (Parser.ParseTokens
          (two_operators 1%float 2%float 3%float TOK_ADD TOK_MUL))
  = Some (BinaryOp OpAdd (Literal 1) (BinaryOp OpMul (Literal 2) (Literal 3)))
  /\ tree "!1 * 2"
     = Some (BinaryOp OpMul (UnaryOp OpNot (Literal 1)) (Literal 2)).
Proof.
  destruct parser_honors_precedence
    as (_ & H & _ & _ & _ & _ & _ & _ & _ & _ & _ & T & _).
  split.
  - apply (H 1%float 2%float 3%float TOK_ADD TOK_MUL OpAdd 2%nat OpMul 1%nat);
      reflexivity.
  - apply (T "!1 * 2" 1%nat _
             [mkToken TOK_NOT 0 1 NoValue;
              mkToken TOK_LITERAL 1 1 (Number 1%float);
              mkToken TOK_MUL 3 1 NoValue;
              mkToken TOK_LITERAL 5 1 (Number 2%float)]
             (mkToken TOK_END_OF_STRING 6 0 NoValue)).
    + vm_compute. reflexivity.
    + reflexivity.
    + apply (PrecedenceProperties.written_binary
               (mkToken TOK_MUL 3 1 NoValue) OpMul
               (UnaryOp OpNot (Literal 1))
               [mkToken TOK_NOT 0 1 NoValue;
                mkToken TOK_LITERAL 1 1 (Number 1%float)]
               (Literal 2) [mkToken TOK_LITERAL 5 1 (Number 2%float)]).
      * reflexivity.
      * apply (PrecedenceProperties.written_looser 0); [cbn; lia|].
        apply (PrecedenceProperties.written_unary
                 (mkToken TOK_NOT 0 1 NoValue) OpNot); [reflexivity|].
        exact (PrecedenceProperties.written_literal
                 (mkToken TOK_LITERAL 1 1 (Number 1%float)) eq_refl).
      * exact (PrecedenceProperties.written_literal
                 (mkToken TOK_LITERAL 5 1 (Number 2%float)) eq_refl).
Defined.

(** With a true condition the other branch can be anything. *)
Lemma ternary_evaluates_selected_branch_only_witness :
  Evaluator.GetState Evaluator.basic_functions
    (Conditional (Literal 1) (Literal 5)
       (BinaryOp OpDiv (Literal 1) (Literal 0)))
    Evaluator.empty_environment
  = Evaluator.GetState Evaluator.basic_functions
      (Conditional (Literal 1) (Literal 5)
         (FunctionCall 8 "toggle" [Literal 1]))
      Evaluator.empty_environment.
Proof.
  destruct ternary_evaluates_selected_branch_only as (_ & H & _).
  apply (H _ Evaluator.basic_functions (Literal 1) (Literal 5)).
  reflexivity.
Defined.

End Instances.

(** Further texts, dialogs and device lists. *)

Module Scenarios.
Import Instances.

(** A control name over two lines, then [+ 1]: the second block starts
    at offset 3 inside the control token. *)
Definition two_line_control : string :=
  ("`a" ++ String (ascii_of_nat 10) "b` + 1")%string.

(** The control token, which began in the first block, is painted at the
    start of the second block for its two remaining characters. *)
Lemma ordered_tokens_painted_in_their_blocks_witness :
  In {| QTextLayout.start := 0;
        QTextLayout.length := 2;
        QTextLayout.format := GetControlCharFormat false |}
    (set_block_formats false (fst (Lexer.Tokenize two_line_control))
       (mkBlock 3 7)).
Proof.
  apply (ordered_tokens_painted_in_their_blocks false
           (fst (Lexer.Tokenize two_line_control)) (mkBlock 3 7)
           (mkToken TOK_CONTROL 0 5
              (Text ("a" ++ String (ascii_of_nat 10) "b")))
           (GetControlCharFormat false)).
  - unfold in_position_order.
    repeat (apply SSorted_cons;
            [|apply List.Forall_forall; intros t Ht; vm_compute in Ht;
              repeat (destruct Ht as [<- | Ht]; [vm_compute; discriminate|]);
              contradiction]).
    apply SSorted_nil.
  - vm_compute. discriminate.
  - vm_compute. split; [discriminate | reflexivity].
  - vm_compute. split; reflexivity.
  - vm_compute. left. reflexivity.
  - reflexivity.
  - vm_compute. reflexivity.
  - vm_compute. reflexivity.
Defined.

(** After "1 + 2" is typed the indicator is painted, over a reference
    that compiled. *)
Lemma state_indicator_only_over_successful_parse_witness :
  let w := run threshold [TextEdited "1 + 2"] input_window in
  paints_state_indicator (m_parse_text w) = true
  /\ GetParseStatus (m_reference w) = Successful
  /\ text (m_parse_text w) = EmptyString.
Proof.
  cbv zeta. split; [vm_compute; reflexivity|].
  apply (state_indicator_only_over_successful_parse threshold
           (ControlReference.create true) (∅ : ControlReference.Controller)
           Input ["ctrl1"%string; "ctrl2"%string] [TextEdited "1 + 2"]).
  vm_compute. reflexivity.
Defined.

(** The control reference of this file keeps the text it is given. *)
Lemma ControlReference_stores (s : string) (r : ControlReference.t) :
  GetExpression (snd (SetExpression s r)) = s.
Proof. reflexivity. Qed.

Definition editing : list Event :=
  [TextEdited "1 +"; RangeEdited 50; ButtonPressed ClearButton;
   TextEdited "ctrl1 & ctrl2"; TestClicked].

(** After some editing the editor and the reference both hold the last
    text. *)
Lemma editor_shows_the_reference_expression_witness :
  let w := run threshold editing input_window in
  m_expression_text w = "ctrl1 & ctrl2"%string
  /\ m_expression_text w = GetExpression (m_reference w)
  /\ m_reference (UpdateExpression (m_expression_text w) Normal w)
     = m_reference w.
Proof.
  cbv zeta. split; [vm_compute; reflexivity|].
  apply (editor_shows_the_reference_expression threshold
           ControlReference_stores (ControlReference.create true)
           (∅ : ControlReference.Controller) Input
           ["ctrl1"%string; "ctrl2"%string] editing).
  - reflexivity.
  - unfold editing.
    intros [H | [H | [H | [H | [H | []]]]]]; discriminate.
Defined.

(** A reference opened with "ctrl1" has it back when the dialog is
    closed after the same editing. *)
Lemma edits_are_provisional_until_ok_witness :
  let ref := snd (SetExpression "ctrl1" (ControlReference.create true)) in
  let w :=
    run threshold editing
      (construct ref (∅ : ControlReference.Controller) Input
         ["ctrl1"%string; "ctrl2"%string]) in
  GetExpression (m_reference w) = "ctrl1 & ctrl2"%string
  /\ GetExpression (m_reference (done Rejected w)) = "ctrl1"%string.
Proof.
  cbv zeta. split; [vm_compute; reflexivity|].
  destruct (edits_are_provisional_until_ok threshold ControlReference_stores
              (snd (SetExpression "ctrl1" (ControlReference.create true)))
              (∅ : ControlReference.Controller) Input
              ["ctrl1"%string; "ctrl2"%string] editing) as [H1 H2].
  rewrite H1. apply H2.
  unfold editing.
  intros [H | [H | [H | [H | [H | []]]]]]; discriminate.
Defined.

(** An output window with its test running: every change ends it. *)
Lemma changes_end_the_output_test_witness :
  let w := handle threshold TestClicked output_window in
  m_output_test_timer w = true
  /\ m_output_test_timer (handle threshold (TextEdited "Motor") w) = false
  /\ hd_error (state_written (handle threshold (RangeEdited 50) w))
     = Some 0%float.
Proof.
  cbv zeta. split; [vm_compute; reflexivity|].
  destruct (changes_end_the_output_test threshold
              (handle threshold TestClicked output_window))
    as (Htext & _ & _ & _ & Hrange & _); [vm_compute; reflexivity|].
  split; [apply Htext|].
  apply Hrange. vm_compute. discriminate.
Defined.

(** A controller with one expression variable: the box lists it after
    the four fixed items. *)
Lemma variables_box_lists_controller_variables_witness :
  let controller : ControlReference.Controller :=
    {[ "x"%string := 0%float ]} in
  let w :=
    run threshold []
      (construct (ControlReference.create true) controller Input []) in
  m_variables_combo (UpdateExpression "$x" Normal w)
  = [Item "User Variables"; Separator; Item "Reset Values"; Separator;
     Item "x"].
Proof.
  cbv zeta.
  destruct (variables_box_lists_controller_variables threshold
              (ControlReference.create true)
              ({[ "x"%string := 0%float ]} : ControlReference.Controller)
              Input [] [] "$x" Normal) as [_ H].
  - right. vm_compute. discriminate.
  - rewrite H. vm_compute. reflexivity.
Defined.

(** With one variable listed, activating the fifth item inserts its
    name behind a [$]. *)
Lemma variables_box_slot_matches_its_items_witness :
  let controller : ControlReference.Controller :=
    {[ "x"%string := 0%float ]} in
  let w :=
    run threshold []
      (construct (ControlReference.create true) controller Input []) in
  variables_combo_activated 4 (m_variables_combo w) = InsertPlainText "$x"
  /\ match variables_combo_activated 4 (m_variables_combo w) with
     | NoAction => 4 = 0 /\ "x"%string = "User Variables"%string
     | ResetValues => 4 = 2 /\ "x"%string = "Reset Values"%string
     | InsertPlainText s => 4 <= 4 /\ s = ("$" ++ "x")%string
     end.
Proof.
  cbv zeta. split; [vm_compute; reflexivity|].
  apply (variables_box_slot_matches_its_items threshold
           (ControlReference.create true)
           ({[ "x"%string := 0%float ]} : ControlReference.Controller)
           Input [] [] 4 "x").
  - lia.
  - vm_compute. reflexivity.
Defined.

(** The range of the control reference of this file is not touched by
    compiling. *)
Lemma ControlReference_keeps_range (s : string) (r : ControlReference.t) :
  range (snd (SetExpression s r)) = range r.
Proof. reflexivity. Qed.

(** The open input dialog, its reference's range set to 0.5078125 from
    outside: at the next configuration change the spin box goes from 100
    to 50 and the range becomes 0.5. *)
Definition rescaled_window : IOWindow :=
  set_m_reference (set_range 0.5078125%float (m_reference input_window))
    input_window.

Lemma ConfigChanged_presents_the_reference_witness :
  let w := ConfigChanged ["ctrl1"%string] rescaled_window in
  spin_value (m_scalar_spinbox input_window) = 100
  /\ spin_value (m_scalar_spinbox w) = 50
  /\ range (m_reference w) = 0.5%float
  /\ m_option_list w = ["ctrl1"%string].
Proof.
  cbv zeta. split; [vm_compute; reflexivity|].
  destruct (ConfigChanged_presents_the_reference ControlReference_stores
              ControlReference_keeps_range rescaled_window ["ctrl1"%string]
              50)
    as (_ & _ & Hs & Hr & Ho);
    [vm_compute; reflexivity | vm_compute; split; discriminate |].
  split; [rewrite Hs; vm_compute; reflexivity|].
  split; [rewrite Hr; vm_compute; reflexivity | exact Ho].
Defined.

(** A reference with the expression "ctrl1" and the range 0.75, opened in
    an input dialog. *)
Lemma construct_presents_the_reference_witness :
  let ref :=
    set_range 0.75%float
      (snd (SetExpression "ctrl1" (ControlReference.create true))) in
  let w :=
    construct ref (∅ : ControlReference.Controller) Input
      ["ctrl1"%string] in
  m_expression_text w = "ctrl1"%string
  /\ range (m_reference w) = 0.75%float
  /\ spin_value (m_scalar_spinbox w) = 75.
Proof.
  cbv zeta.
  destruct (construct_presents_the_reference ControlReference_stores
              ControlReference_keeps_range
              (set_range 0.75%float
                 (snd (SetExpression "ctrl1" (ControlReference.create true))))
              (∅ : ControlReference.Controller) Input ["ctrl1"%string] 75)
    as (_ & Hr & Ht & _ & Hs & _);
    [vm_compute; reflexivity | vm_compute; split; discriminate |].
  split; [rewrite Ht; reflexivity|].
  split; [rewrite Hr; reflexivity|].
  rewrite Hs. vm_compute. reflexivity.
Defined.





End Scenarios.
